(** * Shiba: the markdown preview and the state of its window

    A shallow embedding of the web side of the previewer:
    - [src/v2/web/markdown.tsx], the asynchronous React renderer
      ([RenderTreeToReact]), and [src/v2/web/markdown.ts], the legacy
      synchronous DOM renderer ([ParseTreeRenderer]), with the properties
      of the table alignment tracker, the footnote collector, the search
      match counter, the last-modified marker and the fence collaborator
      glue;
    - [src/v2/web/reducer.ts], the reducer of the application state;
    - [src/v2/web/keymaps.ts], the key shortcuts and their registration,
      with the [scrollTo] that the dispatcher has as well;
    - the key actions of the dispatcher ([GlobalDispatcher]). *)

From Stdlib Require Import List String Ascii Bool Arith Lia PeanoNat.
From Stdlib Require Import DecimalString ZArith Permutation Sorted.
Import ListNotations.
Open Scope string_scope.
Open Scope list_scope.
Open Scope nat_scope.

Set Implicit Arguments.
Set Warnings "-register-all".

(** ** The render tree ([RenderTreeElem] of [./ipc]) *)

(** [RenderTreeTableAlign]: ['left' | 'center' | 'right' | null]; the
    [null] alignment is [None]. *)
Inductive Align : Type := left | center | right.

Definition RenderTreeTableAlign : Type := option Align.

Definition align_name (a : Align) : string :=
  match a with
  | left => "left"
  | center => "center"
  | right => "right"
  end.

(** An element is a raw string or an object with a tag [t], kind-specific
    fields and, for containers, children [c].  [Unknown] stands for an
    object whose tag is none of the known ones. *)
Inductive RenderTreeElem : Type :=
| Text (s : string)
| P (c : list RenderTreeElem)
| H (level : nat) (id : option string) (c : list RenderTreeElem)
| A (auto : bool) (href : string) (title : option string) (c : list RenderTreeElem)
| Img (src : string) (title : option string) (c : list RenderTreeElem)
| Br
| Blockquote (c : list RenderTreeElem)
| Em (c : list RenderTreeElem)
| Strong (c : list RenderTreeElem)
| Del (c : list RenderTreeElem)
| Pre (c : list RenderTreeElem)
| Code (lang : option string) (c : list RenderTreeElem)
| Ol (start : option nat) (c : list RenderTreeElem)
| Ul (c : list RenderTreeElem)
| Li (c : list RenderTreeElem)
| TaskList (c : list RenderTreeElem)
| Emoji (name : string) (c : list RenderTreeElem)
| Table (align : list RenderTreeTableAlign) (c : list RenderTreeElem)
| Thead (c : list RenderTreeElem)
| Tbody (c : list RenderTreeElem)
| Tr (c : list RenderTreeElem)
| Th (c : list RenderTreeElem)
| Td (c : list RenderTreeElem)
| Checkbox (checked : bool)
| Hr
| FnRef (id : string)
| FnDef (id : string) (c : list RenderTreeElem)
| Math (inline : bool) (expr : string)
| Html (raw : string)
| Modified
| Match (c : list RenderTreeElem)
| MatchCurrent (c : list RenderTreeElem)
| MatchStart (c : list RenderTreeElem)
| MatchCurrentStart (c : list RenderTreeElem)
| Unknown (t : string) (c : list RenderTreeElem).

(** The structural induction principle that goes through the children. *)
Section RenderTreeElem_ind.
Variable Q : RenderTreeElem -> Prop.
Hypothesis HText : forall s, Q (Text s).
Hypothesis HP : forall c, Forall Q c -> Q (P c).
Hypothesis HH : forall level id c, Forall Q c -> Q (H level id c).
Hypothesis HA : forall auto href title c, Forall Q c -> Q (A auto href title c).
Hypothesis HImg : forall src title c, Forall Q c -> Q (Img src title c).
Hypothesis HBr : Q Br.
Hypothesis HBlockquote : forall c, Forall Q c -> Q (Blockquote c).
Hypothesis HEm : forall c, Forall Q c -> Q (Em c).
Hypothesis HStrong : forall c, Forall Q c -> Q (Strong c).
Hypothesis HDel : forall c, Forall Q c -> Q (Del c).
Hypothesis HPre : forall c, Forall Q c -> Q (Pre c).
Hypothesis HCode : forall lang c, Forall Q c -> Q (Code lang c).
Hypothesis HOl : forall start c, Forall Q c -> Q (Ol start c).
Hypothesis HUl : forall c, Forall Q c -> Q (Ul c).
Hypothesis HLi : forall c, Forall Q c -> Q (Li c).
Hypothesis HTaskList : forall c, Forall Q c -> Q (TaskList c).
Hypothesis HEmoji : forall name c, Forall Q c -> Q (Emoji name c).
Hypothesis HTable : forall align c, Forall Q c -> Q (Table align c).
Hypothesis HThead : forall c, Forall Q c -> Q (Thead c).
Hypothesis HTbody : forall c, Forall Q c -> Q (Tbody c).
Hypothesis HTr : forall c, Forall Q c -> Q (Tr c).
Hypothesis HTh : forall c, Forall Q c -> Q (Th c).
Hypothesis HTd : forall c, Forall Q c -> Q (Td c).
Hypothesis HCheckbox : forall checked, Q (Checkbox checked).
Hypothesis HHr : Q Hr.
Hypothesis HFnRef : forall id, Q (FnRef id).
Hypothesis HFnDef : forall id c, Forall Q c -> Q (FnDef id c).
Hypothesis HMath : forall inline expr, Q (Math inline expr).
Hypothesis HHtml : forall raw, Q (Html raw).
Hypothesis HModified : Q Modified.
Hypothesis HMatch : forall c, Forall Q c -> Q (Match c).
Hypothesis HMatchCurrent : forall c, Forall Q c -> Q (MatchCurrent c).
Hypothesis HMatchStart : forall c, Forall Q c -> Q (MatchStart c).
Hypothesis HMatchCurrentStart : forall c, Forall Q c -> Q (MatchCurrentStart c).
Hypothesis HUnknown : forall t c, Forall Q c -> Q (Unknown t c).

Fixpoint elem_ind (e : RenderTreeElem) : Q e :=
  let all := fix all (l : list RenderTreeElem) : Forall Q l :=
    match l with
    | [] => Forall_nil Q
    | x :: r => Forall_cons x (elem_ind x) (all r)
    end in
  match e with
  | Text s => HText s
  | P c => HP (all c)
  | H level id c => HH level id (all c)
  | A auto href title c => HA auto href title (all c)
  | Img src title c => HImg src title (all c)
  | Br => HBr
  | Blockquote c => HBlockquote (all c)
  | Em c => HEm (all c)
  | Strong c => HStrong (all c)
  | Del c => HDel (all c)
  | Pre c => HPre (all c)
  | Code lang c => HCode lang (all c)
  | Ol start c => HOl start (all c)
  | Ul c => HUl (all c)
  | Li c => HLi (all c)
  | TaskList c => HTaskList (all c)
  | Emoji name c => HEmoji name (all c)
  | Table align c => HTable align (all c)
  | Thead c => HThead (all c)
  | Tbody c => HTbody (all c)
  | Tr c => HTr (all c)
  | Th c => HTh (all c)
  | Td c => HTd (all c)
  | Checkbox checked => HCheckbox checked
  | Hr => HHr
  | FnRef id => HFnRef id
  | FnDef id c => HFnDef id (all c)
  | Math inline expr => HMath inline expr
  | Html raw => HHtml raw
  | Modified => HModified
  | Match c => HMatch (all c)
  | MatchCurrent c => HMatchCurrent (all c)
  | MatchStart c => HMatchStart (all c)
  | MatchCurrentStart c => HMatchCurrentStart (all c)
  | Unknown t c => HUnknown t (all c)
  end.
End RenderTreeElem_ind.

(** [RenderTreeFootNoteDef]: the ['fn-def'] object as the collector keeps it. *)
Record RenderTreeFootNoteDef : Type := mkFootNoteDef {
  fn_id : string;
  fn_c : list RenderTreeElem
}.

(** ** The output tree of the React renderer *)

Inductive Key : Type :=
| KIdx (n : nat)
| KName (s : string).

(** [React.RefObject] identities, in order of creation by [React.createRef]. *)
Definition Ref : Type := nat.

Definition CSSProperties : Type := list (string * string).

Inductive PropValue : Type :=
| PStr (s : string)
| PNum (n : nat)
| PBool (b : bool)
| PStyle (css : CSSProperties)
| PRef (r : Ref)
| PInnerHTML (html : string).

Definition Props : Type := list (string * PropValue).

Inductive ElementType : Type :=
| Tag (name : string)
| Fragment.

(** [ReactNode]: [null], a string, an array of nodes, or an element.  The
    element's [children] is [props.children]: absent, one node, or an
    array.  [RArray] is an array that the renderer holds itself (what
    [Promise.all] resolves to), handed to an element as its one child;
    [RStaticArray] is the array that React builds of two or more children
    given one by one, which the development build of React freezes. *)
Inductive ReactNode : Type :=
| RNull
| RText (s : string)
| RArray (items : list ReactNode)
| RStaticArray (items : list ReactNode)
| RElement (type : ElementType) (key : option Key) (props : Props)
           (children : option ReactNode).

(** ** The render session ([RenderTreeToReact]) *)

Record TableState : Type := mkTableState {
  aligns : list RenderTreeTableAlign;
  index : nat
}.

(** [log.debug] and [log.error] calls, oldest first.  The payload of an
    error is the element that [JSON.stringify] prints. *)
Inductive LogEntry : Type :=
| LogDebug (msg : string) (payload : list RenderTreeElem)
| LogError (msg : string) (payload : RenderTreeElem).

(** The fields of the class, the number of [React.createRef] calls so far
    (the identity of the next ref) and the log. *)
Record Session : Type := mkSession {
  table : option TableState;
  lastModifiedRef : option Ref;
  footNotes : list RenderTreeFootNoteDef;
  matchCount : nat;
  refs : nat;
  log : list LogEntry
}.

(** The constructor. *)
Definition new_session : Session :=
  {| table := None; lastModifiedRef := None; footNotes := []; matchCount := 0;
     refs := 0; log := [] |}.

Definition set_table (t : option TableState) (s : Session) : Session :=
  {| table := t; lastModifiedRef := lastModifiedRef s; footNotes := footNotes s;
     matchCount := matchCount s; refs := refs s; log := log s |}.

Definition set_lastModifiedRef (r : Ref) (s : Session) : Session :=
  {| table := table s; lastModifiedRef := Some r; footNotes := footNotes s;
     matchCount := matchCount s; refs := refs s; log := log s |}.

Definition new_ref (s : Session) : Session :=
  {| table := table s; lastModifiedRef := lastModifiedRef s; footNotes := footNotes s;
     matchCount := matchCount s; refs := S (refs s); log := log s |}.

Definition push_footNote (d : RenderTreeFootNoteDef) (s : Session) : Session :=
  {| table := table s; lastModifiedRef := lastModifiedRef s;
     footNotes := footNotes s ++ [d];
     matchCount := matchCount s; refs := refs s; log := log s |}.

Definition incr_matchCount (s : Session) : Session :=
  {| table := table s; lastModifiedRef := lastModifiedRef s; footNotes := footNotes s;
     matchCount := S (matchCount s); refs := refs s; log := log s |}.

Definition add_log (e : LogEntry) (s : Session) : Session :=
  {| table := table s; lastModifiedRef := lastModifiedRef s; footNotes := footNotes s;
     matchCount := matchCount s; refs := refs s; log := log s ++ [e] |}.

(** Methods of the session read and write its fields: a state monad. *)
Definition M (St X : Type) : Type := St -> X * St.

Definition ret {St X : Type} (x : X) : M St X := fun s => (x, s).

Definition bind {St X Y : Type} (m : M St X) (f : X -> M St Y) : M St Y :=
  fun s => let (x, s') := m s in f x s'.

Definition modify {St : Type} (f : St -> St) : M St unit := fun s => (tt, f s).

Definition gets {St X : Type} (f : St -> X) : M St X := fun s => (f s, s).

Notation "x <- m ;; k" := (bind m (fun x => k))
  (at level 61, m at next level, right associativity).
Notation "m ;;; k" := (bind m (fun _ => k))
  (at level 61, right associativity).

(** [React.createRef()]: a ref that no one holds yet. *)
Definition createRef : M Session Ref :=
  ref <- gets refs ;; modify new_ref ;;; ret ref.

(** ** Helpers of [markdown.tsx] *)

Definition FOOTNOTE_BACKREF_STYLE : CSSProperties :=
  [("fontFamily", "monospace"); ("fontSize", "1.25em"); ("margin", "0 0.25em")].

Fixpoint rawText (elem : RenderTreeElem) : string :=
  match elem with
  | Text s => s
  | P c | H _ _ c | A _ _ _ c | Img _ _ c | Blockquote c | Em c | Strong c
  | Del c | Pre c | Code _ c | Ol _ c | Ul c | Li c | TaskList c | Emoji _ c
  | Table _ c | Thead c | Tbody c | Tr c | Th c | Td c | FnDef _ c | Match c
  | MatchCurrent c | MatchStart c | MatchCurrentStart c | Unknown _ c =>
      String.concat EmptyString (map rawText c)
  | Br | Checkbox _ | Hr | FnRef _ | Math _ _ | Html _ | Modified => EmptyString
  end.

Definition isReactElement (node : ReactNode) : bool :=
  match node with
  | RElement _ _ _ _ => true
  | _ => false
  end.

Definition lastElementOf (nodes : list ReactNode) : option ReactNode :=
  match rev nodes with
  | [] => None
  | last :: _ => if isReactElement last then Some last else None
  end.

Definition tableAlignStyle (st : TableState) : option CSSProperties :=
  if List.length (aligns st) <=? index st then None
  else match nth (index st) (aligns st) None with
       | None => None
       | Some textAlign => Some [("textAlign", align_name textAlign)]
       end.

(** ** JSX *)

Definition idx_key (key : option nat) : option Key := option_map KIdx key.

(** [<tag key={key} ...props>{children}</tag>] with one expression child
    that is an array. *)
Definition jsx (type : ElementType) (key : option nat) (props : Props)
    (children : list ReactNode) : ReactNode :=
  RElement type (idx_key key) props (Some (RArray children)).

(** [<tag key={key} ...props />]. *)
Definition jsx_empty (type : ElementType) (key : option nat) (props : Props) : ReactNode :=
  RElement type (idx_key key) props None.

(** [React.createElement(tag, props, ...children)]: no child leaves
    [props.children] absent, one child is stored as it is, several as an
    array that React builds. *)
Definition createElement (type : ElementType) (key : option nat) (props : Props)
    (children : list ReactNode) : ReactNode :=
  RElement type (idx_key key) props
    match children with
    | [] => None
    | [child] => Some child
    | _ => Some (RStaticArray children)
    end.

(** A property whose value may be [undefined]. *)
Definition optional (name : string) (v : option PropValue) : Props :=
  match v with
  | Some v => [(name, v)]
  | None => []
  end.

(** Truthiness of an optional string: [undefined] and the empty string are falsy. *)
Definition truthy (o : option string) : option string :=
  match o with
  | Some s => if String.eqb s EmptyString then None else Some s
  | None => None
  end.

(** Template strings are concatenations. *)
Infix "+++" := String.append (at level 60, right associativity).

Definition dquote : string := String (ascii_of_nat 34) EmptyString.

Definition string_of_nat (n : nat) : string := NilEmpty.string_of_uint (Nat.to_uint n).

(** ** Promises

    An [async] method runs synchronously up to its first [await] that has
    to wait.  [render] below is that synchronous part; what it returns is
    the promise it leaves behind:
    - [Resolved n]: the result is known;
    - [AwaitAll cs k]: [await this.renderAll(elem.c)] is waiting for the
      children's promises [cs] (a [Promise.all], whose value is the array
      of the children's values by position), after which [k] builds the
      element with no further access to the session;
    - [AwaitFence lang c key]: [await this.fence.render(elem, key)] is
      waiting for the fence collaborator; the rest of the ['code'] case
      has not run yet;
    - [AwaitMath expr className key]: the call has returned the promise
      of [this.mathjax.render(expr, className, key)] and settles with it. *)
Inductive Promise : Type :=
| Resolved (n : ReactNode)
| AwaitAll (cs : list Promise) (k : list ReactNode -> ReactNode)
| AwaitFence (lang : option string) (c : list RenderTreeElem) (key : option nat)
| AwaitMath (expr className : string) (key : option nat).

(** The state of a promise seen from outside. *)
Inductive Settled (X : Type) : Type :=
| StillPending
| Fulfilled (x : X)
| Rejected (err : string).
Arguments StillPending {X}.
Arguments Fulfilled {X} x.
Arguments Rejected {X} err.

(** ** The legacy synchronous renderer ([markdown.ts])

    [ParseTreeRenderer] builds DOM nodes in place.  Its parse tree has
    the shape of the render tree; the kinds its [switch] does not list
    ([task-list], [emoji], [math], [modified], the four match kinds) fall
    to [default] like any unknown kind. *)
Module Legacy.

Inductive Node : Type :=
| TextNode (data : string)
| Element (tagName : string) (props : Props) (childNodes : list Node).

Record ParseTreeRenderer : Type := mkParseTreeRenderer {
  table : option TableState;
  footNotes : list RenderTreeFootNoteDef;
  log : list LogEntry
}.

(** The constructor. *)
Definition new_renderer : ParseTreeRenderer :=
  {| table := None; footNotes := []; log := [] |}.

Definition set_table (t : option TableState) (r : ParseTreeRenderer) : ParseTreeRenderer :=
  {| table := t; footNotes := footNotes r; log := log r |}.

Definition push_footNote (d : RenderTreeFootNoteDef) (r : ParseTreeRenderer)
    : ParseTreeRenderer :=
  {| table := table r; footNotes := footNotes r ++ [d]; log := log r |}.

Definition add_log (e : LogEntry) (r : ParseTreeRenderer) : ParseTreeRenderer :=
  {| table := table r; footNotes := footNotes r; log := log r ++ [e] |}.

(** What [tableAlign] returns: an alignment or [null] ([Found]), or the
    [undefined] of an array read past the end. *)
Inductive Lookup : Type :=
| Found (a : RenderTreeTableAlign)
| Undefined.

Definition tableAlign (r : ParseTreeRenderer) : Lookup :=
  match table r with
  | None => Found None
  | Some st =>
      if index st <=? List.length (aligns st) then Found None
      else match nth_error (aligns st) (index st) with
           | Some a => Found a
           | None => Undefined
           end
  end.

(** The [if (this.table) { this.table.index++; }] of the ['th'] and ['td'] cases. *)
Definition advance : M ParseTreeRenderer unit :=
  t <- gets table ;;
  match t with
  | Some st => modify (set_table (Some {| aligns := aligns st; index := S (index st) |}))
  | None => ret tt
  end.

Section ParseTreeRenderer.

(** The browser's [innerHTML]: the getter serializes a node's children,
    the setter parses markup into children. *)
Variable innerHTML : list Node -> string.
Variable parseHTML : string -> list Node.

(** The [switch] of [render] and what follows it.  [renderChildren c]
    stands for [for (const child of elem.c) { this.render(child, node); }];
    the result is what the call appends to [parent], in order. *)
Definition render_body (renderChildren : list RenderTreeElem -> M ParseTreeRenderer (list Node))
    (elem : RenderTreeElem) : M ParseTreeRenderer (list Node) :=
  let element (tagName : string) (props : Props) (c : list RenderTreeElem) :=
    children <- renderChildren c ;; ret [Element tagName props children] in
  match elem with
  | Text s => ret [TextNode s]
  | P c => element "p" [] c
  | H level id c =>
      element ("h" +++ string_of_nat level) (optional "id" (option_map PStr (truthy id))) c
  | A _ href title c =>
      element "a" ([("href", PStr href)] ++ optional "title" (option_map PStr (truthy title))) c
  | Img src title c =>
      tmp <- renderChildren c ;;
      ret [Element "img"
             ([("src", PStr src)] ++ optional "title" (option_map PStr (truthy title))
              ++ [("alt", PStr (innerHTML tmp))]) []]
  | Br => ret [Element "br" [] []]
  | Blockquote c => element "blockquote" [] c
  | Em c => element "em" [] c
  | Strong c => element "strong" [] c
  | Del c => element "del" [] c
  | Pre c => element "pre" [] c
  | Code lang c =>
      element "code"
        (optional "className" (option_map (fun l => PStr ("language-" +++ l)) (truthy lang))) c
  | Ol start c => element "ol" (optional "start" (option_map PNum start)) c
  | Ul c => element "ul" [] c
  | Li c => element "li" [] c
  | Table align c =>
      modify (set_table (Some {| aligns := align; index := 0 |})) ;;;
      element "table" [] c
  | Thead c => element "thead" [] c
  | Tbody c => element "thead" [] c
  | Tr c =>
      t <- gets table ;;
      match t with
      | Some st => modify (set_table (Some {| aligns := aligns st; index := 0 |}))
      | None => ret tt
      end ;;;
      element "tr" [] c
  | Th c => advance ;;; element "th" [] c
  | Td c => advance ;;; element "td" [] c
  | Checkbox checked =>
      ret [Element "input" [("disabled", PBool true); ("checked", PBool checked)] []]
  | Hr => ret [Element "hr" [] []]
  | FnRef id =>
      ret [Element "sup" []
             [Element "a"
                [("href", PStr ("#user-content-fn-" +++ id));
                 ("id", PStr ("user-content-fnref-" +++ id));
                 ("aria-describedby", PStr "footnote-label")] []]]
  | FnDef id c =>
      modify (push_footNote {| fn_id := id; fn_c := c |}) ;;;
      ret []
  | Html raw => ret (rev (parseHTML raw))
  | TaskList _ | Emoji _ _ | Math _ _ | Modified | Match _ | MatchCurrent _
  | MatchStart _ | MatchCurrentStart _ | Unknown _ _ =>
      modify (add_log (LogError "Unknown parse tree element:" elem)) ;;;
      ret []
  end.

(** [render elem] is [this.render(elem, parent)]. *)
Fixpoint render (elem : RenderTreeElem) {struct elem} : M ParseTreeRenderer (list Node) :=
  render_body
    (fix renderChildren (c : list RenderTreeElem) {struct c} : M ParseTreeRenderer (list Node) :=
       match c with
       | [] => ret []
       | child :: rest =>
           nodes <- render child ;;
           more <- renderChildren rest ;;
           ret (nodes ++ more)
       end)
    elem.

Fixpoint renderChildren (c : list RenderTreeElem) {struct c} : M ParseTreeRenderer (list Node) :=
  match c with
  | [] => ret []
  | child :: rest =>
      nodes <- render child ;;
      more <- renderChildren rest ;;
      ret (nodes ++ more)
  end.

Definition backref_link (id : string) : Node :=
  Element "a"
    [("href", PStr ("user-content-fnref-" +++ id));
     ("className", PStr "data-footnote-backref");
     ("aria-label", PStr "Back to content")]
    [TextNode "↩"].

(** [(li.lastChild ?? li).appendChild(a)]: into the last child when there
    is one, which throws when that child is a text node; into [li]
    itself when it has no child. *)
Definition append_backref (children : list Node) (a : Node) : Settled (list Node) :=
  match rev children with
  | [] => Fulfilled [a]
  | Element tagName props childNodes :: _ =>
      Fulfilled (removelast children ++ [Element tagName props (childNodes ++ [a])])
  | TextNode _ :: _ => Rejected "HierarchyRequestError"
  end.

(** A bound on the definitions a subtree can add to the collector. *)
Fixpoint fndefs (elem : RenderTreeElem) : nat :=
  match elem with
  | FnDef _ c => S (list_sum (map fndefs c))
  | P c | H _ _ c | A _ _ _ c | Img _ _ c | Blockquote c | Em c | Strong c
  | Del c | Pre c | Code _ c | Ol _ c | Ul c | Li c | TaskList c | Emoji _ c
  | Table _ c | Thead c | Tbody c | Tr c | Th c | Td c | Match c
  | MatchCurrent c | MatchStart c | MatchCurrentStart c | Unknown _ c =>
      list_sum (map fndefs c)
  | Text _ | Br | Checkbox _ | Hr | FnRef _ | Math _ _ | Html _ | Modified => 0
  end.

Definition loop_bound (defs : list RenderTreeFootNoteDef) : nat :=
  list_sum (map (fun d => S (list_sum (map fndefs (fn_c d)))) defs).

(** [for (const elem of this.footNotes) { ... }] from position [i] on,
    [items] being the [li]s appended to [ol] so far.  The iterator reads
    the array at every turn, so it reaches the definitions that the
    bodies rendered on the way add. *)
Fixpoint end_loop (turns i : nat) (items : list Node) {struct turns}
    : M ParseTreeRenderer (Settled (list Node)) :=
  match turns with
  | 0 => ret StillPending
  | S turns' =>
      defs <- gets footNotes ;;
      match nth_error defs i with
      | None => ret (Fulfilled items)
      | Some elem =>
          children <- renderChildren (fn_c elem) ;;
          match append_backref children (backref_link (fn_id elem)) with
          | Fulfilled children' =>
              end_loop turns' (S i)
                (items ++ [Element "li" [("id", PStr ("user-content-fn-" +++ fn_id elem))]
                             children'])
          | Rejected err => ret (Rejected err)
          | StillPending => ret StillPending
          end
      end
  end.

(** [end_ parent] is [this.end(parent)]: the nodes it appends to [parent]. *)
Definition end_ : M ParseTreeRenderer (Settled (list Node)) :=
  defs <- gets footNotes ;;
  match defs with
  | [] => ret (Fulfilled [])
  | _ :: _ =>
      items <- end_loop (S (loop_bound defs)) 0 [] ;;
      match items with
      | Fulfilled items =>
          ret (Fulfilled
                 [Element "section" [("className", PStr "footnotes")]
                    [Element "h2" [("id", PStr "footnote-label"); ("className", PStr "sr-only")]
                       [TextNode "Footnotes"];
                     Element "ol" [] items]])
      | Rejected err => ret (Rejected err)
      | StillPending => ret StillPending
      end
  end.

(** [PreviewContent.render]: the children of the emptied root element. *)
Definition PreviewContent_render (tree : list RenderTreeElem)
    : Settled (list Node) * ParseTreeRenderer :=
  let (blocks, r) := renderChildren tree new_renderer in
  let (section, r') := end_ r in
  (match section with
   | Fulfilled section => Fulfilled (blocks ++ section)
   | Rejected err => Rejected err
   | StillPending => StillPending
   end, r').

End ParseTreeRenderer.

End Legacy.

(** * The application state ([src/v2/web/reducer.ts]) *)

(** What a synchronous call comes to: it returns or it throws. *)
Inductive Outcome (X : Type) : Type :=
| Returned (x : X)
| Thrown (err : string).
Arguments Returned {X} x.
Arguments Thrown {X} err.

Module Reducer.

Inductive Theme : Type := light | dark.

(** [SearchMatcher] and the window theme of [./ipc] are strings; a
    search index is a [number] or [null]. *)
Definition SearchMatcher : Type := string.
Definition WindowTheme : Type := string.

Record State : Type := mkState {
  searching : bool;
  searchIndex : option Z;
  matcher : SearchMatcher;
  previewing : bool;
  outline : bool;
  theme : Theme
}.

Definition INITIAL_STATE : State :=
  {| searching := false; searchIndex := None; matcher := "SmartCase";
     previewing := true; outline := false; theme := light |}.

(** An action is an object with a [kind]; [kind_other] stands for an
    object whose kind is none of those the [switch] lists. *)
Inductive Action : Type :=
| kind_open_search
| kind_close_search
| kind_search_index (index : option Z)
| kind_search_matcher (matcher : SearchMatcher)
| kind_previewing (previewing : bool)
| kind_outline (open : bool)
| kind_theme (theme : Theme)
| kind_other (kind : string).

(** The lines of [log.debug]. *)
Inductive LogLine : Type :=
| Debug (msg : string) (action : Action).

Definition Console : Type := list LogLine.

Definition log_debug (msg : string) (action : Action) : M Console unit :=
  modify (fun console => console ++ [Debug msg action]).

(** [`Unknown action: ${action}`] prints an object as [[object Object]]. *)
Definition reducer (state : State) (action : Action) : M Console (Outcome State) :=
  log_debug "Dispatched new action" action ;;;
  match action with
  | kind_open_search =>
      if searching state then ret (Returned state)
      else ret (Returned {| searching := true; searchIndex := None;
                            matcher := matcher state; previewing := previewing state;
                            outline := outline state; theme := theme state |})
  | kind_close_search =>
      ret (Returned {| searching := false; searchIndex := None;
                       matcher := matcher state; previewing := previewing state;
                       outline := outline state; theme := theme state |})
  | kind_search_index index =>
      if negb (searching state) then ret (Returned state)
      else ret (Returned {| searching := searching state; searchIndex := index;
                            matcher := matcher state; previewing := previewing state;
                            outline := outline state; theme := theme state |})
  | kind_search_matcher m =>
      ret (Returned {| searching := searching state; searchIndex := searchIndex state;
                       matcher := m; previewing := previewing state;
                       outline := outline state; theme := theme state |})
  | kind_previewing p =>
      ret (Returned {| searching := searching state; searchIndex := searchIndex state;
                       matcher := matcher state; previewing := p;
                       outline := outline state; theme := theme state |})
  | kind_outline open =>
      ret (Returned {| searching := searching state; searchIndex := searchIndex state;
                       matcher := matcher state; previewing := previewing state;
                       outline := open; theme := theme state |})
  | kind_theme t =>
      ret (Returned {| searching := searching state; searchIndex := searchIndex state;
                       matcher := matcher state; previewing := previewing state;
                       outline := outline state; theme := t |})
  | kind_other _ => ret (Thrown "Unknown action: [object Object]")
  end.

(** ** Action creators *)

Definition openSearch : Action := kind_open_search.

Definition closeSearch : Action := kind_close_search.

(** [searchIndex(index)]; the name without the underscore is the field
    of the state. *)
Definition searchIndex_ (index : option Z) : Action := kind_search_index index.

Section Search.

(** [searchNextIndex] and [searchPreviousIndex] of [./search]. *)
Variable searchNextIndex : option Z -> option Z.
Variable searchPreviousIndex : option Z -> option Z.

Definition searchNext (index : option Z) : Action := searchIndex_ (searchNextIndex index).

Definition searchPrevious (index : option Z) : Action :=
  searchIndex_ (searchPreviousIndex index).

End Search.

Definition setSearchMatcher (matcher : SearchMatcher) : Action := kind_search_matcher matcher.

Definition setPreviewing (previewing : bool) : Action := kind_previewing previewing.

Definition openOutline : Action := kind_outline true.

Definition closeOutline : Action := kind_outline false.

Definition setTheme (theme : WindowTheme) : Action :=
  kind_theme (if String.eqb theme "Dark" then dark else light).

(** ** What the properties are stated with *)

(** The state after a series of dispatched actions: React's
    [useReducer] calls [reducer] with the current state for each action
    in turn, and a throw ends the series. *)
Fixpoint reduce (actions : list Action) (state : State) : M Console (Outcome State) :=
  match actions with
  | [] => ret (Returned state)
  | action :: rest =>
      next <- reducer state action ;;
      match next with
      | Returned state' => reduce rest state'
      | Thrown err => ret (Thrown err)
      end
  end.

(** Whether an action has one of the kinds of the [switch]. *)
Definition known (action : Action) : bool :=
  match action with
  | kind_other _ => false
  | _ => true
  end.

(** No index is kept while no search is open. *)
Definition closed_without_index (state : State) : Prop :=
  searching state = false -> searchIndex state = None.

(** The fields of the state that the case of an action reads or writes. *)
Inductive Field : Type :=
| f_searching | f_searchIndex | f_matcher | f_previewing | f_outline | f_theme.

Definition touches (action : Action) : list Field :=
  match action with
  | kind_open_search | kind_close_search | kind_search_index _ => [f_searching; f_searchIndex]
  | kind_search_matcher _ => [f_matcher]
  | kind_previewing _ => [f_previewing]
  | kind_outline _ => [f_outline]
  | kind_theme _ => [f_theme]
  | kind_other _ => []
  end.

Definition Field_eqb (f g : Field) : bool :=
  match f, g with
  | f_searching, f_searching | f_searchIndex, f_searchIndex | f_matcher, f_matcher
  | f_previewing, f_previewing | f_outline, f_outline | f_theme, f_theme => true
  | _, _ => false
  end.

Definition apart (a b : Action) : bool :=
  forallb (fun f => negb (existsb (Field_eqb f) (touches b))) (touches a).

End Reducer.

(** * Key shortcuts ([src/v2/web/keymaps.ts]) *)

Module Keymaps.

(** ** [scrollTo]

    The function is the same, word for word, in [keymaps.ts] and in the
    dispatcher.  Of an element it reads [offsetTop]; of the window it
    reads [scrollY] and calls [scrollTo(x, y)], which is the browser's. *)
Record HTMLElement : Type := mkHTMLElement {
  offsetTop : Z
}.

Section Window.

Variable Window : Type.
Variable scrollY : Window -> Z.
Variable window_scrollTo : Z -> Z -> Window -> Window.

(** The [for] loop from [candidates] on: whether it has scrolled, and
    the window it leaves. *)
Fixpoint scrollTo_for (candidates : list HTMLElement)
    (pred : HTMLElement -> Z -> bool) (windowTop : Z) : M Window bool :=
  match candidates with
  | [] => ret false
  | elem :: rest =>
      if pred elem windowTop then
        modify (window_scrollTo 0 (offsetTop elem)) ;;;
        y <- gets scrollY ;;
        if negb (Z.eqb windowTop y) then ret true
        else scrollTo_for rest pred windowTop
      else scrollTo_for rest pred windowTop
  end.

Definition scrollTo (candidates : list HTMLElement) (pred : HTMLElement -> Z -> bool)
    : M Window unit :=
  match candidates with
  | [] => ret tt
  | first :: _ =>
      windowTop <- gets scrollY ;;
      scrolled <- scrollTo_for candidates pred windowTop ;;
      if negb scrolled then modify (window_scrollTo 0 (offsetTop first))
      else ret tt
  end.

(** The bodies of [ScrollNextSection] and [ScrollPrevSection] (in the
    dispatcher: of the cases ['NextSection'] and ['PrevSection']), given
    the headings that [document.querySelectorAll('h1,h2,h3,h4,h5,h6')]
    finds, in document order. *)
Definition ScrollNextSection (headings : list HTMLElement) : M Window unit :=
  scrollTo headings (fun elem windowTop => Z.ltb windowTop (offsetTop elem)).

Definition ScrollPrevSection (headings : list HTMLElement) : M Window unit :=
  scrollTo (rev headings) (fun elem windowTop => Z.ltb (offsetTop elem) windowTop).

End Window.

(** ** The shortcuts *)

Definition KeyAction : Type := string.

(** The lengths that the scrolling shortcuts compute. *)
Inductive Length : Type :=
| zero
| innerHeight
| innerWidth
| scrollHeight
| half (l : Length)
| minus (l : Length).

(** What the [dispatch] method of a shortcut does. *)
Inductive Dispatch : Type :=
| window_scrollBy (x y : Length)
| window_scrollTo_ (x y : Length)
| scrollTo_next_section
| scrollTo_prev_section
| sendMessage (kind : string)
| dispatcher_openSearch
| dispatcher_searchNext
| dispatcher_searchPrev
| dispatcher_dispatch (creator : string).

Record KeyShortcut : Type := mkKeyShortcut {
  description : string;
  dispatch : Dispatch
}.

(** The object literal, property by property. *)
Definition KeyShortcuts : list (KeyAction * KeyShortcut) :=
  [("ScrollDown",
    {| description := "Scroll down the page by half of window height";
       dispatch := window_scrollBy zero (half innerHeight) |});
   ("ScrollUp",
    {| description := "Scroll up the page by half of window height";
       dispatch := window_scrollBy zero (half (minus innerHeight)) |});
   ("ScrollLeft",
    {| description := "Scroll the page to the left by half of window width";
       dispatch := window_scrollBy (half (minus innerWidth)) zero |});
   ("ScrollRight",
    {| description := "Scroll the page to the right by half of window width";
       dispatch := window_scrollBy (half innerWidth) zero |});
   ("ScrollPageDown",
    {| description := "Scroll down the page by window height";
       dispatch := window_scrollBy zero innerHeight |});
   ("ScrollPageUp",
    {| description := "Scroll up the page by window height";
       dispatch := window_scrollBy zero (minus innerHeight) |});
   ("ScrollTop",
    {| description := "Scroll to the top of the page";
       dispatch := window_scrollTo_ zero zero |});
   ("ScrollBottom",
    {| description := "Scroll to the bottom of the page";
       dispatch := window_scrollTo_ zero scrollHeight |});
   ("ScrollNextSection",
    {| description := "Scroll to the next section header";
       dispatch := scrollTo_next_section |});
   ("ScrollPrevSection",
    {| description := "Scroll to the previous section header";
       dispatch := scrollTo_prev_section |});
   ("Forward",
    {| description := "Go forawrd the next document in preview history";
       dispatch := sendMessage "forward" |});
   ("Back",
    {| description := "Go ackward the previous document in preview history";
       dispatch := sendMessage "back" |});
   ("Reload",
    {| description := "Reload the current document preview";
       dispatch := sendMessage "reload" |});
   ("OpenFile",
    {| description := "Open dialog to choose a file to preview";
       dispatch := sendMessage "file_dialog" |});
   ("OpenDir",
    {| description := "Open dialog to choose a directory to watch file changes";
       dispatch := sendMessage "dir_dialog" |});
   ("Search",
    {| description := "Open in-page search box";
       dispatch := dispatcher_openSearch |});
   ("SearchNext",
    {| description := "Focus next match of ongoing text search";
       dispatch := dispatcher_searchNext |});
   ("SearchPrev",
    {| description := "Focus previous match of ongoing text search";
       dispatch := dispatcher_searchPrev |});
   ("Outline",
    {| description := "Open palette to incrementally search section headers";
       dispatch := dispatcher_dispatch "openOutline" |});
   ("History",
    {| description := "Open palette to incrementally search files in history";
       dispatch := dispatcher_dispatch "openHistory" |});
   ("Quit",
    {| description := "Quit application";
       dispatch := sendMessage "quit" |})].

(** The properties every object inherits from [Object.prototype]. *)
Definition Object_prototype : list string :=
  ["constructor"; "__defineGetter__"; "__defineSetter__"; "hasOwnProperty";
   "__lookupGetter__"; "__lookupSetter__"; "isPrototypeOf"; "propertyIsEnumerable";
   "toString"; "valueOf"; "__proto__"; "toLocaleString"].

(** [KeyShortcuts[action]] when [action] is a property of the literal. *)
Definition own (action : KeyAction) : option KeyShortcut :=
  option_map snd (find (fun entry => String.eqb (fst entry) action) KeyShortcuts).

(** [action in KeyShortcuts]: an own property or an inherited one. *)
Definition in_KeyShortcuts (action : KeyAction) : bool :=
  match own action with
  | Some _ => true
  | None => existsb (String.eqb action) Object_prototype
  end.

(** ** [KeyMapping] *)

Record BoundShortcut : Type := mkBoundShortcut {
  action : KeyAction;
  binds : list string;
  shortcut : KeyShortcut
}.

(** [KeyMaps] of [./ipc]: an object from key bindings to actions, as the
    list of its entries in the order of [Object.keys]. *)
Definition KeyMaps : Type := list (string * KeyAction).

(** A [Map] with string keys, in insertion order. *)
Definition Map (V : Type) : Type := list (string * V).

Definition Map_get {V : Type} (key : string) (m : Map V) : option V :=
  option_map snd (find (fun entry => String.eqb (fst entry) key) m).

Fixpoint Map_set {V : Type} (key : string) (v : V) (m : Map V) : Map V :=
  match m with
  | [] => [(key, v)]
  | (k, v') :: rest =>
      if String.eqb k key then (k, v) :: rest else (k, v') :: Map_set key v rest
  end.

Definition Map_values {V : Type} (m : Map V) : list V := map snd m.

Section KeyMapping.

(** The dispatcher handed to [register] and kept by the callbacks. *)
Variable GlobalDispatcher : Type.

(** [String.prototype.localeCompare]: negative, zero or positive. *)
Variable localeCompare : string -> string -> Z.

(** A call [Mousetrap.bind(keybind, callback)]: the callback runs the
    [dispatch] of the shortcut of [bound_action] on [bound_dispatcher]. *)
Record Binding : Type := mkBinding {
  keybind : string;
  bound_action : KeyAction;
  bound_dispatcher : GlobalDispatcher
}.

(** A line of [log.error]. *)
Inductive LogLine : Type :=
| Error (msg : string) (keybind : string) (action : KeyAction).

(** The [KeyMapping] object and what [register] reaches outside it: the
    calls made to Mousetrap and the lines logged, oldest first. *)
Record Env : Type := mkEnv {
  sortedShortcuts : list BoundShortcut;
  mousetrap : list Binding;
  console : list LogLine
}.

Definition new_KeyMapping : Env :=
  {| sortedShortcuts := []; mousetrap := []; console := [] |}.

Definition shortcuts (env : Env) : list BoundShortcut := sortedShortcuts env.

Definition Mousetrap_bind (b : Binding) : M Env unit :=
  modify (fun env => {| sortedShortcuts := sortedShortcuts env;
                        mousetrap := mousetrap env ++ [b];
                        console := console env |}).

Definition log_error (msg keybind : string) (action : KeyAction) : M Env unit :=
  modify (fun env => {| sortedShortcuts := sortedShortcuts env;
                        mousetrap := mousetrap env;
                        console := console env ++ [Error msg keybind action] |}).

Definition set_sortedShortcuts (l : list BoundShortcut) : M Env unit :=
  modify (fun env => {| sortedShortcuts := l;
                        mousetrap := mousetrap env;
                        console := console env |}).

(** [Array.prototype.sort] is stable; with a consistent comparator its
    result is the one stable insertion gives. *)
Fixpoint insert (x : BoundShortcut) (l : list BoundShortcut) : list BoundShortcut :=
  match l with
  | [] => [x]
  | y :: rest =>
      if Z.leb (localeCompare (action x) (action y)) 0 then x :: l
      else y :: insert x rest
  end.

Definition sort (l : list BoundShortcut) : list BoundShortcut := fold_right insert [] l.

(** The [for] loop of [register] over the entries left.  For an action
    that [KeyShortcuts] only inherits, [KeyShortcuts[action]] has no
    [dispatch] and [shortcut.dispatch.bind] throws. *)
Fixpoint register_for (maps : KeyMaps) (dispatcher : GlobalDispatcher)
    (bounds : Map BoundShortcut) : M Env (Outcome (Map BoundShortcut)) :=
  match maps with
  | [] => ret (Returned bounds)
  | (keybind, action) :: rest =>
      if negb (in_KeyShortcuts action) then
        log_error "Unknown key action in keymaps:" keybind action ;;;
        register_for rest dispatcher bounds
      else
        match own action with
        | None => ret (Thrown "TypeError")
        | Some shortcut =>
            Mousetrap_bind {| keybind := keybind; bound_action := action;
                              bound_dispatcher := dispatcher |} ;;;
            match Map_get action bounds with
            | None =>
                register_for rest dispatcher
                  (Map_set action
                     {| action := action; binds := [keybind]; shortcut := shortcut |} bounds)
            | Some b =>
                register_for rest dispatcher
                  (Map_set action
                     {| action := Keymaps.action b; binds := binds b ++ [keybind];
                        shortcut := Keymaps.shortcut b |} bounds)
            end
        end
  end.

Definition register (maps : KeyMaps) (dispatcher : GlobalDispatcher)
    : M Env (Outcome unit) :=
  bounds <- register_for maps dispatcher [] ;;
  match bounds with
  | Returned bounds =>
      set_sortedShortcuts (sort (Map_values bounds)) ;;;
      ret (Returned tt)
  | Thrown err => ret (Thrown err)
  end.

End KeyMapping.

(** ** What the properties are stated with *)

(** The key bindings that a keymap gives to an action, in its order. *)
Definition keybinds_of (action : KeyAction) (maps : KeyMaps) : list string :=
  map fst (filter (fun entry => String.eqb (snd entry) action) maps).

(** An action that is a property of [KeyShortcuts] itself. *)
Definition is_own (action : KeyAction) : bool :=
  match own action with
  | Some _ => true
  | None => false
  end.

(** An action that [KeyShortcuts] has from [Object.prototype] only. *)
Definition inherited (action : KeyAction) : bool :=
  match own action with
  | Some _ => false
  | None => existsb (String.eqb action) Object_prototype
  end.

(** The calls to Mousetrap and the errors that a keymap asks for. *)
Definition bindings_of {GlobalDispatcher : Type} (maps : KeyMaps)
    (dispatcher : GlobalDispatcher) : list (Binding GlobalDispatcher) :=
  map (fun entry => {| keybind := fst entry; bound_action := snd entry;
                       bound_dispatcher := dispatcher |})
      (filter (fun entry => is_own (snd entry)) maps).

Definition errors_of (maps : KeyMaps) : list LogLine :=
  map (fun entry => Error "Unknown key action in keymaps:" (fst entry) (snd entry))
      (filter (fun entry => negb (in_KeyShortcuts (snd entry))) maps).

(** [grouped seen bounds]: the map [bounds] holds one shortcut for each
    action of [KeyShortcuts] that the entries [seen] name, with the key
    bindings that [seen] gives to the action, in its order. *)
Definition grouped (seen : KeyMaps) (bounds : Map BoundShortcut) : Prop :=
  NoDup (map fst bounds)
  /\ (forall a b, In (a, b) bounds ->
        action b = a /\ own a = Some (shortcut b)
        /\ binds b = keybinds_of a seen /\ binds b <> [])
  /\ (forall k a, In (k, a) seen -> own a <> None -> In a (map fst bounds)).

(** For examples: a window that is its scroll position, over a page
    that scrolls between [0] and [height]; and a comparator that orders
    names by their length. *)
Definition page_scrollTo (height : Z) (x y : Z) (w : Z) : Z := Z.max 0 (Z.min y height).

Definition by_length (a b : string) : Z :=
  (Z.of_nat (String.length a) - Z.of_nat (String.length b))%Z.

(** The order that the comparator of [register] asks for. *)
Definition by_action (localeCompare : string -> string -> Z) (l r : BoundShortcut) : Prop :=
  (localeCompare (action l) (action r) <= 0)%Z.

End Keymaps.

(** * The dispatcher: the key actions of [GlobalDispatcher] *)

Module Dispatcher.

(** ** [handleKeyAction]

    The cases of the [switch], in order, each with what it does, in the
    terms in which [Keymaps.KeyShortcuts] tells what a shortcut does;
    [this.openSearch()], [this.searchNext()], [this.searchPrev()] and
    [this.dispatch(openOutline())] are the calls that a shortcut makes on
    the dispatcher it is handed. *)
Definition key_action_cases : list (string * Keymaps.Dispatch) :=
  [("ScrollDown", Keymaps.window_scrollBy Keymaps.zero (Keymaps.half Keymaps.innerHeight));
   ("ScrollUp",
    Keymaps.window_scrollBy Keymaps.zero (Keymaps.half (Keymaps.minus Keymaps.innerHeight)));
   ("ScrollLeft",
    Keymaps.window_scrollBy (Keymaps.half (Keymaps.minus Keymaps.innerWidth)) Keymaps.zero);
   ("ScrollRight", Keymaps.window_scrollBy (Keymaps.half Keymaps.innerWidth) Keymaps.zero);
   ("ScrollPageDown", Keymaps.window_scrollBy Keymaps.zero Keymaps.innerHeight);
   ("ScrollPageUp", Keymaps.window_scrollBy Keymaps.zero (Keymaps.minus Keymaps.innerHeight));
   ("Forward", Keymaps.sendMessage "forward");
   ("Back", Keymaps.sendMessage "back");
   ("Reload", Keymaps.sendMessage "reload");
   ("OpenFile", Keymaps.sendMessage "file_dialog");
   ("OpenDir", Keymaps.sendMessage "dir_dialog");
   ("ScrollTop", Keymaps.window_scrollTo_ Keymaps.zero Keymaps.zero);
   ("ScrollBottom", Keymaps.window_scrollTo_ Keymaps.zero Keymaps.scrollHeight);
   ("Search", Keymaps.dispatcher_openSearch);
   ("SearchNext", Keymaps.dispatcher_searchNext);
   ("SearchPrev", Keymaps.dispatcher_searchPrev);
   ("NextSection", Keymaps.scrollTo_next_section);
   ("PrevSection", Keymaps.scrollTo_prev_section);
   ("Outline", Keymaps.dispatcher_dispatch "openOutline");
   ("Quit", Keymaps.sendMessage "quit")].

(** What a call of [handleKeyAction] comes to: the case of the action,
    or the [default], which logs an error. *)
Inductive Handled : Type :=
| Does (what : Keymaps.Dispatch)
| LogsError (msg : string) (action : string).

Definition handleKeyAction (action : string) : Handled :=
  match find (fun case => String.eqb (fst case) action) key_action_cases with
  | Some (_, what) => Does what
  | None => LogsError "Unknown key action:" action
  end.

(** The name that [keymaps.ts] has for a key action of the dispatcher. *)
Definition shortcut_name (action : string) : string :=
  if String.eqb action "NextSection" then "ScrollNextSection"
  else if String.eqb action "PrevSection" then "ScrollPrevSection"
  else action.

End Dispatcher.

(** ** What the properties are stated with *)

(** Induction on a promise through the promises it waits for. *)
Section Promise_ind.
Variable Q : Promise -> Prop.
Hypothesis HResolved : forall n, Q (Resolved n).
Hypothesis HAwaitAll : forall cs k, Forall Q cs -> Q (AwaitAll cs k).
Hypothesis HAwaitFence : forall lang c key, Q (AwaitFence lang c key).
Hypothesis HAwaitMath : forall expr className key, Q (AwaitMath expr className key).

Fixpoint promise_ind' (p : Promise) : Q p :=
  match p with
  | Resolved n => HResolved n
  | AwaitAll cs k =>
      HAwaitAll k
        ((fix all (l : list Promise) : Forall Q l :=
            match l with
            | [] => Forall_nil Q
            | x :: r => Forall_cons x (promise_ind' x) (all r)
            end) cs)
  | AwaitFence lang c key => HAwaitFence lang c key
  | AwaitMath expr className key => HAwaitMath expr className key
  end.
End Promise_ind.

(** Reading an output tree: the children of a node as a list, its
    properties, and the node at the end of a path of child positions. *)
Definition child_nodes (n : ReactNode) : list ReactNode :=
  match n with
  | RElement _ _ _ (Some (RArray items)) => items
  | RElement _ _ _ (Some (RStaticArray items)) => items
  | RElement _ _ _ (Some child) => [child]
  | RArray items => items
  | RStaticArray items => items
  | _ => []
  end.

Definition node_props (n : ReactNode) : Props :=
  match n with
  | RElement _ _ props _ => props
  | _ => []
  end.

Fixpoint descend (path : list nat) (n : ReactNode) : option ReactNode :=
  match path with
  | [] => Some n
  | i :: rest =>
      match nth_error (child_nodes n) i with
      | Some child => descend rest child
      | None => None
      end
  end.

Definition text_align (a : Align) : Props :=
  [("style", PStyle [("textAlign", align_name a)])].

(** A header or data cell. *)
Definition cell (header : bool) (c : list RenderTreeElem) : RenderTreeElem :=
  if header then Th c else Td c.

Definition cell_tag (header : bool) : string := if header then "th" else "td".

(** Whether rendering an element reaches, before any wait on the fence
    collaborator, a node that writes the table state: a table, a row or a
    cell.  Children of images, footnote definitions and unknown kinds are
    not rendered in place, and those of a fence only after its wait. *)
Fixpoint reaches_table (elem : RenderTreeElem) : bool :=
  match elem with
  | Table _ _ | Tr _ | Th _ | Td _ => true
  | P c | H _ _ c | A _ _ _ c | Blockquote c | Em c | Strong c
  | Del c | Pre c | Ol _ c | Ul c | Li c | TaskList c | Emoji _ c
  | Thead c | Tbody c | Match c
  | MatchCurrent c | MatchStart c | MatchCurrentStart c =>
      existsb reaches_table c
  | Img _ _ _ | Code _ _ | FnDef _ _ | Unknown _ _
  | Text _ | Br | Checkbox _ | Hr | FnRef _ | Math _ _ | Html _ | Modified => false
  end.

(** The alignment sequence of the table node entered last while an
    element is rendered, before any wait on the fence collaborator. *)
Definition entered_body
    (enteredAll : list RenderTreeElem -> option (list RenderTreeTableAlign))
    (elem : RenderTreeElem) : option (list RenderTreeTableAlign) :=
  match elem with
  | Table align c =>
      match enteredAll c with
      | Some inner => Some inner
      | None => Some align
      end
  | P c | H _ _ c | A _ _ _ c | Blockquote c | Em c | Strong c
  | Del c | Pre c | Ol _ c | Ul c | Li c | TaskList c | Emoji _ c
  | Thead c | Tbody c | Tr c | Th c | Td c | Match c
  | MatchCurrent c | MatchStart c | MatchCurrentStart c =>
      enteredAll c
  | Img _ _ _ | Code _ _ | FnDef _ _ | Unknown _ _
  | Text _ | Br | Checkbox _ | Hr | FnRef _ | Math _ _ | Html _ | Modified => None
  end.

Fixpoint entered (elem : RenderTreeElem) : option (list RenderTreeTableAlign) :=
  entered_body
    (fix enteredAll (elems : list RenderTreeElem) : option (list RenderTreeTableAlign) :=
       match elems with
       | [] => None
       | e :: es =>
           match enteredAll es with
           | Some later => Some later
           | None => entered e
           end
       end)
    elem.

Fixpoint enteredAll (elems : list RenderTreeElem) : option (list RenderTreeTableAlign) :=
  match elems with
  | [] => None
  | e :: es =>
      match enteredAll es with
      | Some later => Some later
      | None => entered e
      end
  end.

(** Whether a table node occurs anywhere in a subtree. *)
Fixpoint has_table (elem : RenderTreeElem) : bool :=
  match elem with
  | Table _ _ => true
  | P c | H _ _ c | A _ _ _ c | Img _ _ c | Blockquote c | Em c | Strong c
  | Del c | Pre c | Code _ c | Ol _ c | Ul c | Li c | TaskList c | Emoji _ c
  | Thead c | Tbody c | Tr c | Th c | Td c | FnDef _ c | Match c
  | MatchCurrent c | MatchStart c | MatchCurrentStart c | Unknown _ c =>
      existsb has_table c
  | Text _ | Br | Checkbox _ | Hr | FnRef _ | Math _ _ | Html _ | Modified => false
  end.

(** [reach s s']: [s'] is [s] after some of the writes the renderer
    makes: a table state set to an object, a ref created, the
    last-modified ref set, a footnote definition pushed, the match count
    incremented, a line logged. *)
Inductive reach : Session -> Session -> Prop :=
| reach_refl : forall s, reach s s
| reach_set_table : forall s s' st, reach s s' -> reach s (set_table (Some st) s')
| reach_new_ref : forall s s', reach s s' -> reach s (new_ref s')
| reach_set_lastModifiedRef : forall s s' r, reach s s' -> reach s (set_lastModifiedRef r s')
| reach_push_footNote : forall s s' d, reach s s' -> reach s (push_footNote d s')
| reach_incr_matchCount : forall s s', reach s s' -> reach s (incr_matchCount s')
| reach_add_log : forall s s' e, reach s s' -> reach s (add_log e s').

(** Two sessions that differ at most in the log. *)
Definition same_but_log (s t : Session) : Prop :=
  table s = table t /\ lastModifiedRef s = lastModifiedRef t
  /\ footNotes s = footNotes t /\ matchCount s = matchCount t /\ refs s = refs t.

Definition legacy_same_but_log (r r' : Legacy.ParseTreeRenderer) : Prop :=
  Legacy.table r = Legacy.table r' /\ Legacy.footNotes r = Legacy.footNotes r'.

(** Two sessions that agree on every field but the log, and whose logs
    are one run of lines after [pre] in the one and after [pre'] in the
    other. *)
Definition log_apart (pre pre' : list LogEntry) (s t : Session) : Prop :=
  same_but_log s t
  /\ exists rest, log s = pre ++ rest /\ log t = pre' ++ rest.

Definition legacy_log_apart (pre pre' : list LogEntry) (r r' : Legacy.ParseTreeRenderer)
    : Prop :=
  legacy_same_but_log r r'
  /\ exists rest, Legacy.log r = pre ++ rest /\ Legacy.log r' = pre' ++ rest.

(** Whether rendering an element reaches, before any wait on the fence
    collaborator, a last-modified marker node. *)
Fixpoint reaches_modified (elem : RenderTreeElem) : bool :=
  match elem with
  | Modified => true
  | P c | H _ _ c | A _ _ _ c | Blockquote c | Em c | Strong c
  | Del c | Pre c | Ol _ c | Ul c | Li c | TaskList c | Emoji _ c
  | Table _ c | Thead c | Tbody c | Tr c | Th c | Td c | Match c
  | MatchCurrent c | MatchStart c | MatchCurrentStart c =>
      existsb reaches_modified c
  | Img _ _ _ | Code _ _ | FnDef _ _ | Unknown _ _
  | Text _ | Br | Checkbox _ | Hr | FnRef _ | Math _ _ | Html _ => false
  end.

(** Where the legacy back-reference link ends up: alone in the item when
    the definition rendered to nothing, and else as the last child of
    the last rendered node, which is an element. *)
Definition legacy_backref_placed (children : list Legacy.Node) (link : Legacy.Node)
    (children' : list Legacy.Node) : Prop :=
  (children = [] /\ children' = [link])
  \/ (exists front tagName props childNodes,
        children = front ++ [Legacy.Element tagName props childNodes]
        /\ children' = front ++ [Legacy.Element tagName props (childNodes ++ [link])]).

(** The item of a footnote definition in the legacy footnote section:
    the [li] with the anchor of the definition for id, over what the
    body of the definition rendered to, with the link placed in it. *)
Definition legacy_item (innerHTML : list Legacy.Node -> string)
    (parseHTML : string -> list Legacy.Node)
    (def : RenderTreeFootNoteDef) (item : Legacy.Node) : Prop :=
  exists r children',
    legacy_backref_placed
      (fst (Legacy.renderChildren innerHTML parseHTML (fn_c def) r))
      (Legacy.Element "a"
         [("href", PStr ("user-content-fnref-" +++ fn_id def));
          ("className", PStr "data-footnote-backref");
          ("aria-label", PStr "Back to content")]
         [Legacy.TextNode "↩"])
      children'
    /\ item = Legacy.Element "li" [("id", PStr ("user-content-fn-" +++ fn_id def))] children'.

Definition legacy_section (items : list Legacy.Node) : Legacy.Node :=
  Legacy.Element "section" [("className", PStr "footnotes")]
    [Legacy.Element "h2" [("id", PStr "footnote-label"); ("className", PStr "sr-only")]
       [Legacy.TextNode "Footnotes"];
     Legacy.Element "ol" [] items].

Definition current_aligns (s : Session) : option (list RenderTreeTableAlign) :=
  option_map aligns (table s).

(** A row of three cells, all header cells or all data cells. *)
Definition row3 (header : bool) (c0 c1 c2 : list RenderTreeElem) : RenderTreeElem :=
  Tr [cell header c0; cell header c1; cell header c2].

Definition row3_of (r : bool * (list RenderTreeElem * list RenderTreeElem * list RenderTreeElem))
    : RenderTreeElem :=
  let '(header, (c0, c1, c2)) := r in row3 header c0 c1 c2.

Definition row3_neutral
    (r : bool * (list RenderTreeElem * list RenderTreeElem * list RenderTreeElem)) : bool :=
  let '(_, (c0, c1, c2)) := r in negb (existsb reaches_table (c0 ++ c1 ++ c2)).

(** The output of such a row under the alignments [left, none, right]:
    a [tr] over three cells with keys 0, 1 and 2, the first with the
    style [textAlign: left], the second with no property, the third with
    the style [textAlign: right]. *)
Definition row3_output (out : ReactNode) : Prop :=
  exists (header : bool) (key : option nat) (o0 o1 o2 : list ReactNode),
    out = RElement (Tag "tr") (option_map KIdx key) []
            (Some (RArray
               [RElement (Tag (if header then "th" else "td")) (Some (KIdx 0))
                  [("style", PStyle [("textAlign", "left")])] (Some (RArray o0));
                RElement (Tag (if header then "th" else "td")) (Some (KIdx 1))
                  [] (Some (RArray o1));
                RElement (Tag (if header then "th" else "td")) (Some (KIdx 2))
                  [("style", PStyle [("textAlign", "right")])] (Some (RArray o2))])).

Definition row3_promise (p : Promise) : Prop :=
  exists header key cs0 cs1 cs2,
    p = AwaitAll [AwaitAll cs0 (jsx (Tag (cell_tag header)) (Some 0) (text_align left));
                  AwaitAll cs1 (jsx (Tag (cell_tag header)) (Some 1) []);
                  AwaitAll cs2 (jsx (Tag (cell_tag header)) (Some 2) (text_align right))]
          (jsx (Tag "tr") key []).

Definition left_none_right : list RenderTreeTableAlign := [Some left; None; Some right].

(** A child of a table: a row of three cells, or a head or body section
    over such rows. *)
Definition Row3 : Type :=
  (bool * (list RenderTreeElem * list RenderTreeElem * list RenderTreeElem))%type.

Inductive TableChild : Type :=
| RowOf (r : Row3)
| SectionOf (head : bool) (rows : list Row3).

Definition table_child_of (ch : TableChild) : RenderTreeElem :=
  match ch with
  | RowOf r => row3_of r
  | SectionOf head rows =>
      if head then Thead (map row3_of rows) else Tbody (map row3_of rows)
  end.

Definition table_child_neutral (ch : TableChild) : bool :=
  match ch with
  | RowOf r => row3_neutral r
  | SectionOf _ rows => forallb row3_neutral rows
  end.

(** The output of such a child under the alignments [left, none, right]:
    the row, or the [thead] or [tbody] over as many rows as the section
    holds. *)
Definition table_child_output (ch : TableChild) (out : ReactNode) : Prop :=
  match ch with
  | RowOf _ => row3_output out
  | SectionOf head rows =>
      exists key outs,
        out = RElement (Tag (if head then "thead" else "tbody")) (option_map KIdx key) []
                (Some (RArray outs))
        /\ Forall row3_output outs
        /\ List.length outs = List.length rows
  end.

Definition table_child_promise (ch : TableChild) (p : Promise) : Prop :=
  match ch with
  | RowOf _ => row3_promise p
  | SectionOf head rows =>
      exists key cs,
        p = AwaitAll cs (jsx (Tag (if head then "thead" else "tbody")) key [])
        /\ Forall row3_promise cs
        /\ List.length cs = List.length rows
  end.

(** Whether a table node occurs in a fence body that a promise still
    waits to render. *)
Fixpoint promise_has_table (p : Promise) : bool :=
  match p with
  | Resolved _ => false
  | AwaitAll cs _ => existsb promise_has_table cs
  | AwaitFence _ c _ => existsb has_table c
  | AwaitMath _ _ _ => false
  end.

(** A session whose table state is unset and whose collector holds no
    definition with a table node in its body. *)
Definition tableless (s : Session) : Prop :=
  table s = None
  /\ Forall (fun d => existsb has_table (fn_c d) = false) (footNotes s).

(** Collaborators for examples: a fence renderer that declines every
    fence, and a math renderer that shows the expression as text. *)
Definition no_fence : RenderTreeElem -> option nat -> option (ReactNode * bool) :=
  fun _ _ => None.

Definition plain_math : string -> string -> option nat -> ReactNode :=
  fun expr _ _ => RText expr.

(** A fence renderer whose every answer is a diagram that differs from
    the one rendered before. *)
Definition redrawn_fence : RenderTreeElem -> option nat -> option (ReactNode * bool) :=
  fun _ _ => Some (RText "diagram", true).

(** A browser that serializes to nothing and parses markup to one text node. *)
Definition no_markup : list Legacy.Node -> string := fun _ => EmptyString.

Definition text_markup : string -> list Legacy.Node := fun raw => [Legacy.TextNode raw].

(** The ref that [React.createRef] returned last in a session, if any. *)
Definition newest_ref (s : Session) : option Ref :=
  match refs s with
  | 0 => None
  | S n => Some n
  end.

(** The kinds whose [case] returns a JSX element of its own with
    [key={key}]: all but strings, footnote definitions and unknown kinds
    (no element) and fences and math (the collaborator's node). *)
Definition keyed_kind (elem : RenderTreeElem) : bool :=
  match elem with
  | Text _ | FnDef _ _ | Unknown _ _ | Code _ _ | Math _ _ => false
  | _ => true
  end.

(** [grows s s']: the collector of [s'] extends that of [s] at its end,
    and neither the match count nor the number of refs created is less. *)
Definition grows (s s' : Session) : Prop :=
  (exists new, footNotes s' = footNotes s ++ new)
  /\ matchCount s <= matchCount s'
  /\ refs s <= refs s'.

(** The properties that the legacy renderer sets on the elements it
    creates. *)
Definition legacy_written : list string :=
  ["id"; "href"; "title"; "src"; "alt"; "className"; "start"; "disabled"; "checked";
   "aria-describedby"; "aria-label"].

(** Whether every property set on an element of a DOM subtree is among
    [allowed]. *)
Fixpoint props_within (allowed : list string) (n : Legacy.Node) : bool :=
  match n with
  | Legacy.TextNode _ => true
  | Legacy.Element _ props childNodes =>
      forallb (fun p => existsb (String.eqb (fst p)) allowed) props
      && forallb (props_within allowed) childNodes
  end.

(** The markup of the [html] nodes of a subtree. *)
Fixpoint htmls (elem : RenderTreeElem) : list string :=
  match elem with
  | Html raw => [raw]
  | P c | H _ _ c | A _ _ _ c | Img _ _ c | Blockquote c | Em c | Strong c
  | Del c | Pre c | Code _ c | Ol _ c | Ul c | Li c | TaskList c | Emoji _ c
  | Table _ c | Thead c | Tbody c | Tr c | Th c | Td c | FnDef _ c | Match c
  | MatchCurrent c | MatchStart c | MatchCurrentStart c | Unknown _ c =>
      List.concat (map htmls c)
  | Text _ | Br | Checkbox _ | Hr | FnRef _ | Math _ _ | Modified => []
  end.

(** The kinds whose [case] wraps the rendered children in one element
    with a tag and properties that the session has no part in: the tag,
    the properties and the children.  (A link that is not automatic gets
    a title, a heading spreads its children, a cell looks up its style:
    they are not among these.) *)
Definition wrapper (elem : RenderTreeElem)
    : option (string * Props * list RenderTreeElem) :=
  match elem with
  | P c => Some ("p", [], c)
  | A true href _ c => Some ("a", [("href", PStr href)], c)
  | Blockquote c => Some ("blockquote", [], c)
  | Em c => Some ("em", [], c)
  | Strong c => Some ("strong", [], c)
  | Del c => Some ("del", [], c)
  | Pre c => Some ("pre", [], c)
  | Ol start c => Some ("ol", optional "start" (option_map PNum start), c)
  | Ul c => Some ("ul", [], c)
  | Li c => Some ("li", [], c)
  | TaskList c => Some ("li", [("className", PStr "task-list-item")], c)
  | Emoji name c =>
      Some ("span",
            [("title", PStr name); ("role", PStr "img");
             ("aria-label", PStr (name +++ " emoji"))], c)
  | Table _ c => Some ("table", [], c)
  | Thead c => Some ("thead", [], c)
  | Tbody c => Some ("tbody", [], c)
  | Tr c => Some ("tr", [], c)
  | Match c => Some ("span", [("className", PStr "search-text")], c)
  | MatchCurrent c => Some ("span", [("className", PStr "search-text-current")], c)
  | MatchStart c => Some ("span", [("className", PStr "search-text-start")], c)
  | MatchCurrentStart c =>
      Some ("span", [("className", PStr "search-text-current-start")], c)
  | _ => None
  end.

(** Two legacy renderers that differ at most in the table state. *)
Definition legacy_same_but_table (r r' : Legacy.ParseTreeRenderer) : Prop :=
  Legacy.footNotes r = Legacy.footNotes r' /\ Legacy.log r = Legacy.log r'.

(** ** The interpreter ([RenderTreeToReact.render]) *)

Section RenderTreeToReact.

(** Whether React is its development build, in which the arrays that
    React builds are frozen. *)
Variable development : bool.

(** The collaborators of [./fence]: [FenceRenderer.render(elem, key)]
    answers [null] or [[node, modified]]; [MathJaxRenderer.render(expr,
    className, key)] answers a node. *)
Variable fence_render : RenderTreeElem -> option nat -> option (ReactNode * bool).
Variable mathjax_render : string -> string -> option nat -> ReactNode.

Definition lastModified (key : option nat) : M Session ReactNode :=
  ref <- createRef ;;
  modify (set_lastModifiedRef ref) ;;;
  ret (jsx_empty (Tag "span") key [("className", PStr "last-modified-marker"); ("ref", PRef ref)]).

(** The [if (this.table) { ... }] block of the ['th'] and ['td'] cases:
    the style found at the cursor, the cursor advanced. *)
Definition cellStyle : M Session (option CSSProperties) :=
  t <- gets table ;;
  match t with
  | Some st =>
      modify (set_table (Some {| aligns := aligns st; index := S (index st) |})) ;;;
      ret (tableAlignStyle st)
  | None => ret None
  end.

Definition style_props (style : option CSSProperties) : Props :=
  optional "style" (option_map PStyle style).

(** The [switch] of [render], up to the point where the call has to
    wait.  [renderAll c] stands for [this.renderAll(elem.c)]. *)
Definition render_body (renderAll : list RenderTreeElem -> M Session (list Promise))
    (elem : RenderTreeElem) (key : option nat) : M Session Promise :=
  let container (c : list RenderTreeElem) (type : string) (props : Props) :=
    cs <- renderAll c ;; ret (AwaitAll cs (jsx (Tag type) key props)) in
  match elem with
  | Text s => ret (Resolved (RText s))
  | P c => container c "p" []
  | H level id c =>
      let tag := "h" +++ string_of_nat level in
      let props := optional "id" (option_map PStr (truthy id)) in
      cs <- renderAll c ;;
      ret (AwaitAll cs (createElement (Tag tag) key props))
  | A auto href title c =>
      if auto then container c "a" [("href", PStr href)]
      else
        let title :=
          match truthy title with
          | Some t => if String.eqb t href then href
                      else dquote +++ t +++ dquote +++ " " +++ href
          | None => href
          end in
        container c "a" [("title", PStr title); ("href", PStr href)]
  | Img src title c =>
      ret (Resolved (jsx_empty (Tag "img") key
             ([("src", PStr src); ("alt", PStr (rawText elem))]
              ++ optional "title" (option_map PStr title))))
  | Br => ret (Resolved (jsx_empty (Tag "br") key []))
  | Blockquote c => container c "blockquote" []
  | Em c => container c "em" []
  | Strong c => container c "strong" []
  | Del c => container c "del" []
  | Pre c => container c "pre" []
  | Code lang c => ret (AwaitFence lang c key)
  | Ol start c => container c "ol" (optional "start" (option_map PNum start))
  | Ul c => container c "ul" []
  | Li c => container c "li" []
  | TaskList c => container c "li" [("className", PStr "task-list-item")]
  | Emoji name c =>
      container c "span"
        [("title", PStr name); ("role", PStr "img"); ("aria-label", PStr (name +++ " emoji"))]
  | Table align c =>
      modify (set_table (Some {| aligns := align; index := 0 |})) ;;;
      container c "table" []
  | Thead c => container c "thead" []
  | Tbody c => container c "tbody" []
  | Tr c =>
      t <- gets table ;;
      match t with
      | Some st => modify (set_table (Some {| aligns := aligns st; index := 0 |}))
      | None => ret tt
      end ;;;
      container c "tr" []
  | Th c =>
      style <- cellStyle ;;
      container c "th" (style_props style)
  | Td c =>
      style <- cellStyle ;;
      container c "td" (style_props style)
  | Checkbox checked =>
      ret (Resolved (jsx_empty (Tag "input") key
             [("type", PStr "checkbox"); ("disabled", PBool true);
              ("checked", PBool checked); ("className", PStr "task-list-item-checkbox")]))
  | Hr => ret (Resolved (jsx_empty (Tag "hr") key []))
  | FnRef id =>
      ret (Resolved (RElement (Tag "sup") (idx_key key) []
             (Some (RElement (Tag "a") None
                      [("href", PStr ("#user-content-fn-" +++ id));
                       ("id", PStr ("user-content-fnref-" +++ id));
                       ("aria-describedby", PStr "footnote-label")]
                      (Some (RText id))))))
  | FnDef id c =>
      modify (push_footNote {| fn_id := id; fn_c := c |}) ;;;
      ret (Resolved RNull)
  | Math inline expr =>
      let className := if inline then "math-expr-inline" else "math-expr-block" in
      ret (AwaitMath expr className key)
  | Html raw =>
      ret (Resolved (jsx_empty (Tag "span") key [("dangerouslySetInnerHTML", PInnerHTML raw)]))
  | Modified =>
      marker <- lastModified key ;;
      ret (Resolved marker)
  | Match c => container c "span" [("className", PStr "search-text")]
  | MatchCurrent c => container c "span" [("className", PStr "search-text-current")]
  | MatchStart c =>
      modify incr_matchCount ;;;
      container c "span" [("className", PStr "search-text-start")]
  | MatchCurrentStart c =>
      modify incr_matchCount ;;;
      container c "span" [("className", PStr "search-text-current-start")]
  | Unknown _ _ =>
      modify (add_log (LogError "Unknown render tree element:" elem)) ;;;
      ret (Resolved RNull)
  end.

(** [render elem key]: the call [this.render(elem, key)] up to the point
    where it has to wait.  [renderAll] is [elems.map((elem, idx) =>
    this.render(elem, idx))]: the calls are made in index order, each to
    its first wait. *)
Fixpoint render (elem : RenderTreeElem) (key : option nat) {struct elem}
    : M Session Promise :=
  render_body
    (fun c =>
       (fix renderAll (elems : list RenderTreeElem) (idx : nat) {struct elems}
            : M Session (list Promise) :=
          match elems with
          | [] => ret []
          | e :: es =>
              p <- render e (Some idx) ;;
              ps <- renderAll es (S idx) ;;
              ret (p :: ps)
          end) c 0)
    elem key.

(** [renderAll] as a method of its own. *)
Fixpoint renderAll_from (elems : list RenderTreeElem) (idx : nat) {struct elems}
    : M Session (list Promise) :=
  match elems with
  | [] => ret []
  | e :: es =>
      p <- render e (Some idx) ;;
      ps <- renderAll_from es (S idx) ;;
      ret (p :: ps)
  end.

Definition renderAll (elems : list RenderTreeElem) : M Session (list Promise) :=
  renderAll_from elems 0.

(** The ['code'] case after [await this.fence.render(elem, key)]. *)
Definition fence_continue (lang : option string) (c : list RenderTreeElem)
    (key : option nat) : M Session Promise :=
  match fence_render (Code lang c) key with
  | None =>
      cs <- renderAll c ;;
      ret (AwaitAll cs (jsx (Tag "code") key []))
  | Some (node, modified) =>
      if negb modified then ret (Resolved node)
      else
        marker <- lastModified None ;;
        ret (Resolved (RElement Fragment (idx_key key) []
                         (Some (RStaticArray [marker; node]))))
  end.

(** ** Completion of the waits

    The collaborators' answers arrive in an order the renderer does not
    control.  [pending p] counts the waits of [p] on a collaborator;
    [step n p] lets the [n]-th of them (in tree order) complete and runs
    the code that was waiting for it, which may start further waits. *)
Fixpoint pending (p : Promise) : nat :=
  match p with
  | Resolved _ => 0
  | AwaitAll cs _ => list_sum (map pending cs)
  | AwaitFence _ _ _ => 1
  | AwaitMath _ _ _ => 1
  end.

Definition pendingAll (ps : list Promise) : nat := list_sum (map pending ps).

Fixpoint step (n : nat) (p : Promise) {struct p} : M Session Promise :=
  let stepAll :=
    fix stepAll (n : nat) (ps : list Promise) {struct ps} : M Session (list Promise) :=
      match ps with
      | [] => ret []
      | q :: r =>
          if n <? pending q then q' <- step n q ;; ret (q' :: r)
          else r' <- stepAll (n - pending q) r ;; ret (q :: r')
      end in
  match p with
  | Resolved _ => ret p
  | AwaitAll cs k => cs' <- stepAll n cs ;; ret (AwaitAll cs' k)
  | AwaitFence lang c key => fence_continue lang c key
  | AwaitMath expr className key => ret (Resolved (mathjax_render expr className key))
  end.

Fixpoint stepAll (n : nat) (ps : list Promise) {struct ps} : M Session (list Promise) :=
  match ps with
  | [] => ret []
  | q :: r =>
      if n <? pending q then q' <- step n q ;; ret (q' :: r)
      else r' <- stepAll (n - pending q) r ;; ret (q :: r')
  end.

(** The value of a promise: [None] while a wait is left in it.  The value
    of [AwaitAll] holds the children's values by position. *)
Fixpoint value (p : Promise) : option ReactNode :=
  let values :=
    fix values (ps : list Promise) : option (list ReactNode) :=
      match ps with
      | [] => Some []
      | q :: r =>
          match value q, values r with
          | Some v, Some vs => Some (v :: vs)
          | _, _ => None
          end
      end in
  match p with
  | Resolved n => Some n
  | AwaitAll cs k => option_map k (values cs)
  | AwaitFence _ _ _ => None
  | AwaitMath _ _ _ => None
  end.

Fixpoint values (ps : list Promise) : option (list ReactNode) :=
  match ps with
  | [] => Some []
  | q :: r =>
      match value q, values r with
      | Some v, Some vs => Some (v :: vs)
      | _, _ => None
      end
  end.

(** A bound on the waits a subtree can still start: its ['code'] and
    ['math'] nodes. *)
Fixpoint codes (elem : RenderTreeElem) : nat :=
  match elem with
  | Code _ c => S (list_sum (map codes c))
  | Math _ _ => 1
  | P c | H _ _ c | A _ _ _ c | Img _ _ c | Blockquote c | Em c | Strong c
  | Del c | Pre c | Ol _ c | Ul c | Li c | TaskList c | Emoji _ c
  | Table _ c | Thead c | Tbody c | Tr c | Th c | Td c | FnDef _ c | Match c
  | MatchCurrent c | MatchStart c | MatchCurrentStart c | Unknown _ c =>
      list_sum (map codes c)
  | Text _ | Br | Checkbox _ | Hr | FnRef _ | Html _ | Modified => 0
  end.

Fixpoint work (p : Promise) : nat :=
  match p with
  | Resolved _ => 0
  | AwaitAll cs _ => list_sum (map work cs)
  | AwaitFence _ c _ => S (list_sum (map codes c))
  | AwaitMath _ _ _ => 1
  end.

Definition workAll (ps : list Promise) : nat := list_sum (map work ps).

(** [sched] is the order of completion: at each turn, which of the
    waits left completes next. *)
Definition Schedule : Type := nat -> nat.

Definition later (sched : Schedule) : Schedule := fun t => sched (S t).

Fixpoint settle (turns : nat) (sched : Schedule) (ps : list Promise) {struct turns}
    : M Session (list Promise) :=
  match turns with
  | 0 => ret ps
  | S turns' =>
      match pendingAll ps with
      | 0 => ret ps
      | S m =>
          ps' <- stepAll (sched 0 mod S m) ps ;;
          settle turns' (later sched) ps'
      end
  end.

(** [await Promise.all(ps)]: the waits complete in the order [sched] until
    none is left. *)
Definition await_all (sched : Schedule) (ps : list Promise) : M Session (list Promise) :=
  settle (workAll ps) sched ps.

(** ** [renderFootnotes] and [run] *)

Definition backref_link (id : string) : ReactNode :=
  RElement (Tag "a") (Some (KName "backref"))
    [("href", PStr ("#user-content-fnref-" +++ id));
     ("aria-label", PStr "Back to content");
     ("style", PStyle FOOTNOTE_BACKREF_STYLE)]
    (Some (RText "↩")).

(** [(lastElementOf(children)?.props?.children ?? children).push(backref)]:
    the link goes into the last element's children when they are an
    array, into [children] when the last node is no element or has no
    (or [null]) children, and the call throws when the last element's
    children are one node, which has no [push], and when they are an
    array that React has frozen. *)
Definition push_backref (children : list ReactNode) (backref : ReactNode)
    : Settled (list ReactNode) :=
  match lastElementOf children with
  | Some (RElement type key props (Some target)) =>
      match target with
      | RArray items =>
          Fulfilled (removelast children
                     ++ [RElement type key props (Some (RArray (items ++ [backref])))])
      | RStaticArray items =>
          if development then Rejected "TypeError: object is not extensible"
          else
            Fulfilled (removelast children
                       ++ [RElement type key props
                             (Some (RStaticArray (items ++ [backref])))])
      | RNull => Fulfilled (children ++ [backref])
      | _ => Rejected "TypeError: push is not a function"
      end
  | _ => Fulfilled (children ++ [backref])
  end.

(** The callback of [this.footNotes.map] after [await this.renderAll(elem.c)]. *)
Definition footnote_item (idx : nat) (elem : RenderTreeFootNoteDef)
    (children : list ReactNode) : Settled ReactNode :=
  match push_backref children (backref_link (fn_id elem)) with
  | Fulfilled children' =>
      Fulfilled (jsx (Tag "li") (Some idx) [("id", PStr ("user-content-fn-" +++ fn_id elem))]
                   children')
  | Rejected err => Rejected err
  | StillPending => StillPending
  end.

(** The callbacks of [this.footNotes.map] up to their first wait, in
    order.  [map] visits the elements the array has when it is called. *)
Fixpoint footnote_bodies (defs : list RenderTreeFootNoteDef)
    : M Session (list Promise) :=
  match defs with
  | [] => ret []
  | elem :: rest =>
      cs <- renderAll (fn_c elem) ;;
      ps <- footnote_bodies rest ;;
      ret (AwaitAll cs RArray :: ps)
  end.

(** [Promise.all] of the callbacks' promises: the items by position, the
    first rejection if one throws. *)
Fixpoint footnote_items (idx : nat) (defs : list RenderTreeFootNoteDef)
    (bodies : list Promise) : Settled (list ReactNode) :=
  match defs, bodies with
  | elem :: defs', body :: bodies' =>
      match value body with
      | Some (RArray children) =>
          match footnote_item idx elem children, footnote_items (S idx) defs' bodies' with
          | Fulfilled item, Fulfilled items => Fulfilled (item :: items)
          | Rejected err, _ => Rejected err
          | _, Rejected err => Rejected err
          | _, _ => StillPending
          end
      | _ => StillPending
      end
  | _, _ => Fulfilled []
  end.

Definition footnote_log (d : RenderTreeFootNoteDef) : RenderTreeElem :=
  FnDef (fn_id d) (fn_c d).

Definition renderFootnotes (sched : Schedule) : M Session (Settled ReactNode) :=
  defs <- gets footNotes ;;
  match defs with
  | [] => ret (Fulfilled RNull)
  | _ :: _ =>
      modify (add_log (LogDebug "Rendering footnotes" (map footnote_log defs))) ;;;
      bodies <- footnote_bodies defs ;;
      bodies' <- await_all sched bodies ;;
      match footnote_items 0 defs bodies' with
      | Fulfilled items =>
          ret (Fulfilled
                 (RElement (Tag "section") None [("className", PStr "footnotes")]
                    (Some (RStaticArray
                       [RElement (Tag "h2") None [("id", PStr "footnote-label")]
                          (Some (RText "Footnotes"));
                        RElement (Tag "ol") None [] (Some (RArray items))]))))
      | Rejected err => ret (Rejected err)
      | StillPending => ret StillPending
      end
  end.

Record MarkdownReactTree : Type := mkMarkdownReactTree {
  root : ReactNode;
  tree_lastModified : option Ref;
  tree_matchCount : nat
}.

(** [sched] orders the completions of the main pass, [sched_fn] those of
    the footnote pass. *)
Definition run (tree : list RenderTreeElem) (sched sched_fn : Schedule)
    : M Session (Settled MarkdownReactTree) :=
  modify (add_log (LogDebug "Rendering preview tree" tree)) ;;;
  ps <- renderAll tree ;;
  ps' <- await_all sched ps ;;
  match values ps' with
  | None => ret StillPending
  | Some blocks =>
      footNotes <- renderFootnotes sched_fn ;;
      match footNotes with
      | Fulfilled footNotes =>
          ref <- gets lastModifiedRef ;;
          count <- gets matchCount ;;
          ret (Fulfilled
                 {| root := RElement Fragment None []
                              (Some (RStaticArray [RArray blocks; footNotes]));
                    tree_lastModified := ref;
                    tree_matchCount := count |})
      | Rejected err => ret (Rejected err)
      | StillPending => ret StillPending
      end
  end.

(** [ReactMarkdownRenderer.render]: a fresh session for every tree. *)
Definition ReactMarkdownRenderer_render (tree : list RenderTreeElem)
    (sched sched_fn : Schedule) : Settled MarkdownReactTree * Session :=
  run tree sched sched_fn new_session.

(** ** What the renderer is expected to visit *)

(** [evolves p q]: [q] is [p] after some of its waits have completed, in
    whatever sessions they found. *)
Inductive evolves : Promise -> Promise -> Prop :=
| evolves_refl : forall p, evolves p p
| evolves_step : forall p q n s,
    evolves p q -> evolves p (fst (step n q s)).

(** [rendering_of e i out]: [out] is the value to which the promise of
    the call [this.render(e, i)], made in some session, settles. *)
Definition rendering_of (e : RenderTreeElem) (i : nat) (out : ReactNode) : Prop :=
  exists s p', evolves (fst (render e (Some i) s)) p' /\ value p' = Some out.

(** [renderings_of elems outs]: [outs] holds, position by position, a
    rendering of each element of [elems]. *)
Definition renderings_of (elems : list RenderTreeElem) (outs : list ReactNode) : Prop :=
  List.length outs = List.length elems
  /\ forall i e, nth_error elems i = Some e ->
       exists out, nth_error outs i = Some out /\ rendering_of e i out.

(** Where the back-reference link ends up.  When the last rendered child
    is an element over an array of children that the renderer built, the
    link becomes the last child of that element.  When it is an element
    over an array that React built, the same holds in the production
    build, and the development build places nothing.  The link follows
    the last rendered child only when that child is no element, or an
    element with no children or with [null] for children. *)
Definition backref_placed (children : list ReactNode) (link : ReactNode)
    (children' : list ReactNode) : Prop :=
  (exists front type key props items,
     children = front ++ [RElement type key props (Some (RArray items))]
     /\ children' = front ++ [RElement type key props (Some (RArray (items ++ [link])))])
  \/ (exists front type key props items,
        development = false
        /\ children = front ++ [RElement type key props (Some (RStaticArray items))]
        /\ children' =
           front ++ [RElement type key props (Some (RStaticArray (items ++ [link])))])
  \/ ((forall front type key props target,
         children = front ++ [RElement type key props (Some target)] -> target = RNull)
      /\ children' = children ++ [link]).

(** The item of a footnote definition in the list of the footnote
    section: the [li] with the position for key and the anchor of the
    definition for id, over the rendered children of the definition with
    the link to the anchor of the reference placed among them. *)
Definition footnote_body (idx : nat) (def : RenderTreeFootNoteDef) (item : ReactNode) : Prop :=
  exists children children',
    renderings_of (fn_c def) children
    /\ backref_placed children
         (RElement (Tag "a") (Some (KName "backref"))
            [("href", PStr ("#user-content-fnref-" +++ fn_id def));
             ("aria-label", PStr "Back to content");
             ("style", PStyle [("fontFamily", "monospace"); ("fontSize", "1.25em");
                               ("margin", "0 0.25em")])]
            (Some (RText "↩")))
         children'
    /\ item = RElement (Tag "li") (Some (KIdx idx))
                [("id", PStr ("user-content-fn-" +++ fn_id def))]
                (Some (RArray children')).

Fixpoint footnote_list (idx : nat) (defs : list RenderTreeFootNoteDef)
    (items : list ReactNode) : Prop :=
  match defs, items with
  | [], [] => True
  | def :: defs', item :: items' =>
      footnote_body idx def item /\ footnote_list (S idx) defs' items'
  | _, _ => False
  end.

(** The footnote section around its items. *)
Definition footnote_section (items : list ReactNode) : ReactNode :=
  RElement (Tag "section") None [("className", PStr "footnotes")]
    (Some (RStaticArray
       [RElement (Tag "h2") None [("id", PStr "footnote-label")] (Some (RText "Footnotes"));
        RElement (Tag "ol") None [] (Some (RArray items))])).

(** The match-start and match-current-start nodes that rendering an
    element visits, now or after a wait: the children of a fence are
    visited when the collaborator declines it; those of images, of
    unknown kinds and of footnote definitions are not visited in place. *)
Definition starts_body (startsAll : list RenderTreeElem -> nat)
    (elem : RenderTreeElem) (key : option nat) : nat :=
  match elem with
  | MatchStart c | MatchCurrentStart c => S (startsAll c)
  | Code _ c =>
      match fence_render elem key with
      | None => startsAll c
      | Some _ => 0
      end
  | P c | H _ _ c | A _ _ _ c | Blockquote c | Em c | Strong c
  | Del c | Pre c | Ol _ c | Ul c | Li c | TaskList c | Emoji _ c
  | Table _ c | Thead c | Tbody c | Tr c | Th c | Td c | Match c
  | MatchCurrent c =>
      startsAll c
  | Img _ _ _ | FnDef _ _ | Unknown _ _
  | Text _ | Br | Checkbox _ | Hr | FnRef _ | Math _ _ | Html _ | Modified => 0
  end.

Fixpoint starts (elem : RenderTreeElem) (key : option nat) {struct elem} : nat :=
  starts_body
    (fun c =>
       (fix startsAll (elems : list RenderTreeElem) (idx : nat) {struct elems} : nat :=
          match elems with
          | [] => 0
          | e :: es => starts e (Some idx) + startsAll es (S idx)
          end) c 0)
    elem key.

Fixpoint startsAll (elems : list RenderTreeElem) (idx : nat) {struct elems} : nat :=
  match elems with
  | [] => 0
  | e :: es => starts e (Some idx) + startsAll es (S idx)
  end.

(** The footnote definitions that rendering an element visits, in tree order. *)
Definition collects_body (collectsAll : list RenderTreeElem -> list RenderTreeFootNoteDef)
    (elem : RenderTreeElem) (key : option nat) : list RenderTreeFootNoteDef :=
  match elem with
  | FnDef id c => [{| fn_id := id; fn_c := c |}]
  | Code _ c =>
      match fence_render elem key with
      | None => collectsAll c
      | Some _ => []
      end
  | P c | H _ _ c | A _ _ _ c | Blockquote c | Em c | Strong c
  | Del c | Pre c | Ol _ c | Ul c | Li c | TaskList c | Emoji _ c
  | Table _ c | Thead c | Tbody c | Tr c | Th c | Td c | Match c
  | MatchCurrent c | MatchStart c | MatchCurrentStart c =>
      collectsAll c
  | Img _ _ _ | Unknown _ _
  | Text _ | Br | Checkbox _ | Hr | FnRef _ | Math _ _ | Html _ | Modified => []
  end.

Fixpoint collects (elem : RenderTreeElem) (key : option nat) {struct elem}
    : list RenderTreeFootNoteDef :=
  collects_body
    (fun c =>
       (fix collectsAll (elems : list RenderTreeElem) (idx : nat) {struct elems}
            : list RenderTreeFootNoteDef :=
          match elems with
          | [] => []
          | e :: es => collects e (Some idx) ++ collectsAll es (S idx)
          end) c 0)
    elem key.

Fixpoint collectsAll (elems : list RenderTreeElem) (idx : nat) {struct elems}
    : list RenderTreeFootNoteDef :=
  match elems with
  | [] => []
  | e :: es => collects e (Some idx) ++ collectsAll es (S idx)
  end.

(** The sum of a weight over a list of definitions. *)
Definition total (w : RenderTreeFootNoteDef -> nat) (defs : list RenderTreeFootNoteDef) : nat :=
  list_sum (map w defs).

(** The starts in the body of a footnote definition. *)
Definition body_starts (d : RenderTreeFootNoteDef) : nat := startsAll (fn_c d) 0.

(** The starts a pass over [tree] visits: those of the tree and those of
    the bodies of the footnote definitions the main pass collects. *)
Definition encountered_starts (tree : list RenderTreeElem) : nat :=
  startsAll tree 0 + total body_starts (collectsAll tree 0).

(** The tree of the spec's example of match counting. *)
Definition four_matches (a b c d : list RenderTreeElem) : list RenderTreeElem :=
  [MatchStart a; Match b; MatchCurrentStart c; Match d].

(** What the waits left in a promise will still visit. *)
Fixpoint owed_starts (p : Promise) : nat :=
  match p with
  | Resolved _ => 0
  | AwaitAll cs _ => list_sum (map owed_starts cs)
  | AwaitFence lang c key => starts (Code lang c) key
  | AwaitMath _ _ _ => 0
  end.

Fixpoint owed_defs (p : Promise) : list RenderTreeFootNoteDef :=
  match p with
  | Resolved _ => []
  | AwaitAll cs _ => List.concat (map owed_defs cs)
  | AwaitFence lang c key => collects (Code lang c) key
  | AwaitMath _ _ _ => []
  end.

(** The balance of a session and the promises that hang on it: the
    starts counted plus those still to be visited, and likewise the
    weight of the definitions collected and still to be collected. *)
Definition starts_balance (s : Session) (owed : nat) : nat := matchCount s + owed.

Definition defs_balance (w : RenderTreeFootNoteDef -> nat) (s : Session)
    (owed : list RenderTreeFootNoteDef) : nat :=
  total w (footNotes s) + total w owed.

Definition owed_startsAll (ps : list Promise) : nat := list_sum (map owed_starts ps).

Definition owed_defsAll (ps : list Promise) : list RenderTreeFootNoteDef :=
  List.concat (map owed_defs ps).

(** The fences and math nodes in the body of a footnote definition. *)
Definition body_codes (d : RenderTreeFootNoteDef) : nat := list_sum (map codes (fn_c d)).


(** * Properties *)

Unset Implicit Arguments.
Set Default Proof Using "Type".
Local Arguments Nat.modulo : simpl never.

(** ** Unfolding *)

Lemma render_eq (e : RenderTreeElem) (key : option nat) :
  render e key = render_body renderAll e key.
Proof. destruct e; reflexivity. Qed.

Lemma step_eq (n : nat) (p : Promise) :
  step n p =
  match p with
  | Resolved _ => ret p
  | AwaitAll cs k => bind (stepAll n cs) (fun cs' => ret (AwaitAll cs' k))
  | AwaitFence lang c key => fence_continue lang c key
  | AwaitMath expr className key => ret (Resolved (mathjax_render expr className key))
  end.
Proof. destruct p; reflexivity. Qed.

Lemma value_eq (p : Promise) :
  value p =
  match p with
  | Resolved n => Some n
  | AwaitAll cs k => option_map k (values cs)
  | AwaitFence _ _ _ => None
  | AwaitMath _ _ _ => None
  end.
Proof. destruct p; reflexivity. Qed.

Ltac run_monad :=
  unfold cellStyle, lastModified in *; unfold createRef in *;
  unfold bind, ret, modify, gets in *; cbv beta in *.

Lemma work_renderAll_from (elems : list RenderTreeElem) :
  Forall (fun e => forall key s, work (fst (render e key s)) <= codes e) elems ->
  forall idx s, workAll (fst (renderAll_from elems idx s)) <= list_sum (map codes elems).
Proof.
  induction 1 as [|e es He _ IH]; intros idx s; simpl.
  - reflexivity.
  - unfold bind, ret. specialize (He (Some idx) s).
    destruct (render e (Some idx) s) as [p s1]. specialize (IH (S idx) s1).
    destruct (renderAll_from es (S idx) s1) as [ps s2]. simpl in *.
    unfold workAll in *. simpl. lia.
Qed.

Lemma work_render (e : RenderTreeElem) :
  forall key s, work (fst (render e key s)) <= codes e.
Proof.
  induction e using elem_ind; intros key0 s0; rewrite render_eq; simpl.
  all: try lia.
  all: run_monad.
  all: try match goal with
       | |- context [if ?b then _ else _] => destruct b
       end.
  all: try match goal with
       | |- context [table ?s] => destruct (table s)
       end.
  all: try match goal with
       | H : Forall _ ?c |- context [renderAll ?c ?s] =>
           let W := fresh "W" in
           pose proof (work_renderAll_from c H 0 s) as W; unfold renderAll;
           destruct (renderAll_from c 0 s); simpl in *; exact W
       end.
Qed.

Lemma promise_pending_le_work (p : Promise) : pending p <= work p.
Proof.
  induction p as [n|cs k IHcs|lang c key|expr className key] using promise_ind'; simpl; try lia.
  induction IHcs as [|q qs Hq _ IH]; simpl; lia.
Qed.

Lemma pendingAll_le_workAll (ps : list Promise) : pendingAll ps <= workAll ps.
Proof.
  unfold pendingAll, workAll.
  induction ps as [|q qs IH]; simpl; [lia|].
  pose proof (promise_pending_le_work q). lia.
Qed.

Lemma work_fence_continue lang c key s :
  work (fst (fence_continue lang c key s)) <= list_sum (map codes c).
Proof.
  unfold fence_continue.
  destruct (fence_render (Code lang c) key) as [[node modified]|].
  - destruct modified; simpl; run_monad; simpl; lia.
  - run_monad.
    pose proof (work_renderAll_from c) as W.
    unfold renderAll. 
    assert (Hc : Forall (fun e => forall key s, work (fst (render e key s)) <= codes e) c).
    { apply Forall_forall. intros e _. apply work_render. }
    specialize (W Hc 0 s). destruct (renderAll_from c 0 s). simpl in *. exact W.
Qed.

Lemma work_stepAll_aux (ps : list Promise) :
  Forall (fun p => forall n s, n < pending p -> work (fst (step n p s)) < work p) ps ->
  forall n s, n < pendingAll ps -> workAll (fst (stepAll n ps s)) < workAll ps.
Proof.
  unfold pendingAll, workAll.
  induction 1 as [|q qs Hq _ IH]; intros n s Hn; simpl in *.
  - lia.
  - destruct (Nat.ltb_spec n (pending q)) as [Hlt|Hge]; run_monad.
    + specialize (Hq n s Hlt). destruct (step n q s) as [q' s']. simpl in *. lia.
    + assert (Hn' : n - pending q < list_sum (map pending qs)) by lia.
      specialize (IH (n - pending q) s Hn').
      destruct (stepAll (n - pending q) qs s) as [qs' s']. simpl in *. lia.
Qed.

Lemma work_step (p : Promise) :
  forall n s, n < pending p -> work (fst (step n p s)) < work p.
Proof.
  induction p as [n|cs k IHcs|lang c key|expr className key] using promise_ind';
    intros m s Hm; rewrite step_eq; simpl in *.
  - lia.
  - run_monad. pose proof (work_stepAll_aux cs IHcs m s Hm) as W.
    destruct (stepAll m cs s) as [cs' s']. simpl in *. exact W.
  - pose proof (work_fence_continue lang c key s). lia.
  - lia.
Qed.

Lemma work_stepAll (ps : list Promise) n s :
  n < pendingAll ps -> workAll (fst (stepAll n ps s)) < workAll ps.
Proof.
  apply work_stepAll_aux. apply Forall_forall. intros p _. apply work_step.
Qed.

Lemma settle_settles (turns : nat) :
  forall sched ps s, workAll ps <= turns ->
  pendingAll (fst (settle turns sched ps s)) = 0.
Proof.
  induction turns as [|turns IH]; intros sched ps s Hw; simpl.
  - pose proof (pendingAll_le_workAll ps). simpl. lia.
  - destruct (pendingAll ps) as [|m] eqn:Hp; [simpl; exact Hp|].
    run_monad.
    assert (Hn : sched 0 mod S m < pendingAll ps).
    { rewrite Hp. apply Nat.mod_upper_bound. discriminate. }
    pose proof (work_stepAll ps _ s Hn) as W.
    destruct (stepAll (sched 0 mod S m) ps s) as [ps' s']. simpl in W.
    apply IH. lia.
Qed.

Lemma await_all_settles sched ps s :
  pendingAll (fst (await_all sched ps s)) = 0.
Proof. apply settle_settles. reflexivity. Qed.


(** *** Values of settled promises *)

Lemma values_Forall2 (ps : list Promise) :
  forall vs, values ps = Some vs -> Forall2 (fun p v => value p = Some v) ps vs.
Proof.
  induction ps as [|q qs IH]; intros vs Hv; simpl in Hv.
  - injection Hv as <-. constructor.
  - destruct (value q) as [v|] eqn:Hq; [|discriminate].
    destruct (values qs) as [vs'|]; [|discriminate].
    injection Hv as <-. constructor; [exact Hq | apply IH; reflexivity].
Qed.

Lemma values_length (ps : list Promise) (vs : list ReactNode) :
  values ps = Some vs -> List.length vs = List.length ps.
Proof.
  intros Hv. apply values_Forall2 in Hv. symmetry. eapply Forall2_length; eassumption.
Qed.

Lemma value_of_settled (p : Promise) : pending p = 0 -> exists v, value p = Some v.
Proof.
  induction p as [n|cs k IHcs|lang c key|expr className key] using promise_ind';
    intros Hp; rewrite value_eq; simpl in *.
  - eexists; reflexivity.
  - assert (Hvs : exists vs, values cs = Some vs).
    { induction IHcs as [|q qs Hq _ IH]; simpl in *.
      - eexists; reflexivity.
      - destruct Hq as [v ->]; [lia|]. destruct IH as [vs ->]; [lia|].
        eexists; reflexivity. }
    destruct Hvs as [vs ->]. eexists; reflexivity.
  - discriminate.
  - discriminate.
Qed.

Lemma values_of_settled (ps : list Promise) :
  pendingAll ps = 0 -> exists vs, values ps = Some vs.
Proof.
  unfold pendingAll. induction ps as [|q qs IH]; intros Hp; simpl in *.
  - eexists; reflexivity.
  - destruct (value_of_settled q) as [v ->]; [lia|].
    destruct IH as [vs ->]; [lia|]. eexists; reflexivity.
Qed.

(** *** Completions keep every promise in its place *)


Lemma evolves_trans (p q r : Promise) : evolves p q -> evolves q r -> evolves p r.
Proof.
  intros Hpq Hqr. induction Hqr as [|q r n s _ IH].
  - exact Hpq.
  - apply evolves_step. apply IH. exact Hpq.
Qed.

Lemma evolves_one (p : Promise) n s : evolves p (fst (step n p s)).
Proof. apply evolves_step. apply evolves_refl. Qed.

Lemma Forall2_evolves_refl (ps : list Promise) : Forall2 evolves ps ps.
Proof. induction ps; constructor; [apply evolves_refl | assumption]. Qed.

Lemma Forall2_evolves_trans (ps qs rs : list Promise) :
  Forall2 evolves ps qs -> Forall2 evolves qs rs -> Forall2 evolves ps rs.
Proof.
  intros Hpq. revert rs. induction Hpq as [|p q ps qs Hp _ IH]; intros rs Hqr.
  - inversion Hqr. constructor.
  - inversion Hqr as [|q' r qs' rs' Hq Hrest]; subst.
    constructor; [eapply evolves_trans; eassumption | apply IH; assumption].
Qed.

Lemma stepAll_evolves (ps : list Promise) :
  forall n s, Forall2 evolves ps (fst (stepAll n ps s)).
Proof.
  induction ps as [|q qs IH]; intros n s; simpl.
  - constructor.
  - destruct (n <? pending q); run_monad.
    + pose proof (evolves_one q n s) as E.
      destruct (step n q s) as [q' s']. simpl in *.
      constructor; [exact E | apply Forall2_evolves_refl].
    + specialize (IH (n - pending q) s).
      destruct (stepAll (n - pending q) qs s) as [qs' s']. simpl in *.
      constructor; [apply evolves_refl | exact IH].
Qed.

Lemma settle_evolves (turns : nat) :
  forall sched ps s, Forall2 evolves ps (fst (settle turns sched ps s)).
Proof.
  induction turns as [|turns IH]; intros sched ps s; simpl.
  - apply Forall2_evolves_refl.
  - destruct (pendingAll ps) as [|m]; [apply Forall2_evolves_refl|].
    run_monad.
    pose proof (stepAll_evolves ps (sched 0 mod S m) s) as E.
    destruct (stepAll (sched 0 mod S m) ps s) as [ps' s']. simpl in E.
    eapply Forall2_evolves_trans; [exact E | apply IH].
Qed.

Lemma evolves_Resolved (v : ReactNode) (q : Promise) :
  evolves (Resolved v) q -> q = Resolved v.
Proof.
  intros E. remember (Resolved v) as p eqn:Hp.
  induction E as [|p q n s _ IH]; [reflexivity|].
  rewrite (IH Hp), Hp. reflexivity.
Qed.

Lemma evolves_AwaitAll (cs : list Promise) (k : list ReactNode -> ReactNode) (q : Promise) :
  evolves (AwaitAll cs k) q ->
  exists cs', q = AwaitAll cs' k /\ Forall2 evolves cs cs'.
Proof.
  intros E. remember (AwaitAll cs k) as p eqn:Hp.
  induction E as [|p q n s _ IH].
  - subst. exists cs. split; [reflexivity | apply Forall2_evolves_refl].
  - destruct (IH Hp) as [cs' [-> Hcs]].
    rewrite step_eq. run_monad.
    pose proof (stepAll_evolves cs' n s) as E'.
    destruct (stepAll n cs' s) as [cs'' s']. simpl in *.
    exists cs''. split; [reflexivity|].
    eapply Forall2_evolves_trans; eassumption.
Qed.

Lemma renderAll_from_length (elems : list RenderTreeElem) :
  forall idx s, List.length (fst (renderAll_from elems idx s)) = List.length elems.
Proof.
  induction elems as [|e es IH]; intros idx s; simpl; [reflexivity|].
  run_monad. destruct (render e (Some idx) s) as [p s1].
  specialize (IH (S idx) s1). destruct (renderAll_from es (S idx) s1) as [ps s2].
  simpl in *. now rewrite IH.
Qed.

Lemma renderAll_from_nth (elems : list RenderTreeElem) :
  forall idx s i e, nth_error elems i = Some e ->
  exists s_i, nth_error (fst (renderAll_from elems idx s)) i
              = Some (fst (render e (Some (idx + i)) s_i)).
Proof.
  induction elems as [|e0 es IH]; intros idx s i e Hi.
  - destruct i; discriminate.
  - simpl. run_monad.
    destruct (render e0 (Some idx) s) as [p s1] eqn:Hr.
    destruct i as [|i]; simpl in Hi.
    + injection Hi as <-. exists s.
      destruct (renderAll_from es (S idx) s1) as [ps s2]. simpl.
      rewrite Nat.add_0_r, Hr. reflexivity.
    + destruct (IH (S idx) s1 i e Hi) as [s_i Hs].
      exists s_i. destruct (renderAll_from es (S idx) s1) as [ps s2]. simpl in *.
      rewrite Hs. now replace (idx + S i) with (S idx + i) by lia.
Qed.


Lemma Forall2_nth_error {X Y : Type} (R : X -> Y -> Prop) (l : list X) (l' : list Y) :
  Forall2 R l l' ->
  forall i x, nth_error l i = Some x -> exists y, nth_error l' i = Some y /\ R x y.
Proof.
  induction 1 as [|x0 y0 l l' Hxy _ IH]; intros i x Hi.
  - destruct i; discriminate.
  - destruct i as [|i]; simpl in *.
    + injection Hi as <-. exists y0. split; [reflexivity | exact Hxy].
    + apply IH. exact Hi.
Qed.


(** C9: whatever the order in which the waits of the siblings complete,
    [await this.renderAll(elems)] yields as many results as there are
    elements, and the result at position [i] is the rendering of the
    element at position [i]. *)
Theorem C9_sibling_order_kept (elems : list RenderTreeElem) (sched : Schedule) (s : Session) :
  exists outs,
    values (fst (await_all sched (fst (renderAll elems s)) (snd (renderAll elems s))))
    = Some outs
    /\ List.length outs = List.length elems
    /\ forall i e, nth_error elems i = Some e ->
         exists out, nth_error outs i = Some out /\ rendering_of e i out.
Proof.
  set (ps := fst (renderAll elems s)).
  set (s1 := snd (renderAll elems s)).
  pose proof (await_all_settles sched ps s1) as Hdone.
  pose proof (settle_evolves (workAll ps) sched ps s1) as Hev.
  fold (await_all sched ps s1) in Hev.
  destruct (values_of_settled _ Hdone) as [outs Houts].
  exists outs. split; [exact Houts|]. split.
  - rewrite (values_length _ _ Houts).
    rewrite <- (Forall2_length Hev). apply renderAll_from_length.
  - intros i e Hi.
    destruct (renderAll_from_nth elems 0 s i e Hi) as [s_i Hp].
    fold (renderAll elems s) in Hp. fold ps in Hp. simpl in Hp.
    destruct (Forall2_nth_error _ _ _ Hev i _ Hp) as [p' [Hp' Hevp]].
    destruct (Forall2_nth_error _ _ _ (values_Forall2 _ _ Houts) i _ Hp') as [out [Hout Hval]].
    exists out. split; [exact Hout|].
    exists s_i, p'. split; assumption.
Qed.


(** *** The writes of the renderer *)

Lemma reach_trans (s1 s2 s3 : Session) : reach s1 s2 -> reach s2 s3 -> reach s1 s3.
Proof.
  intros H12 H23. induction H23.
  - exact H12.
  - apply reach_set_table; auto.
  - apply reach_new_ref; auto.
  - apply reach_set_lastModifiedRef; auto.
  - apply reach_push_footNote; auto.
  - apply reach_incr_matchCount; auto.
  - apply reach_add_log; auto.
Qed.

Lemma renderAll_from_reach (elems : list RenderTreeElem) :
  Forall (fun e => forall key s, reach s (snd (render e key s))) elems ->
  forall idx s, reach s (snd (renderAll_from elems idx s)).
Proof.
  induction 1 as [|e es He _ IH]; intros idx s; simpl.
  - apply reach_refl.
  - run_monad. specialize (He (Some idx) s).
    destruct (render e (Some idx) s) as [p s1]. specialize (IH (S idx) s1).
    destruct (renderAll_from es (S idx) s1) as [ps s2]. simpl in *.
    eapply reach_trans; eassumption.
Qed.

Ltac reach_children :=
  match goal with
  | H : Forall _ ?c |- context [renderAll ?c ?s] =>
      let W := fresh "W" in
      pose proof (renderAll_from_reach c H 0 s) as W; unfold renderAll;
      destruct (renderAll_from c 0 s); simpl in *;
      try exact W;
      try (eapply reach_trans; [|exact W]; repeat constructor)
  end.

Lemma render_reach (e : RenderTreeElem) :
  forall key s, reach s (snd (render e key s)).
Proof.
  induction e using elem_ind; intros key0 s0; rewrite render_eq; simpl.
  all: run_monad; simpl.
  all: try match goal with
       | |- context [if ?b then _ else _] => destruct b
       end.
  all: try match goal with
       | |- context [table ?s] => destruct (table s)
       end.
  all: try solve [repeat constructor].
  all: reach_children.
Qed.

Lemma renderAll_reach (elems : list RenderTreeElem) (s : Session) :
  reach s (snd (renderAll elems s)).
Proof.
  apply renderAll_from_reach. apply Forall_forall. intros e _. apply render_reach.
Qed.

Lemma fence_continue_reach lang c key s : reach s (snd (fence_continue lang c key s)).
Proof.
  unfold fence_continue.
  destruct (fence_render (Code lang c) key) as [[node modified]|].
  - destruct modified; simpl; run_monad; simpl; repeat constructor.
  - run_monad. pose proof (renderAll_reach c s) as W.
    destruct (renderAll c s). exact W.
Qed.

Lemma stepAll_reach_aux (ps : list Promise) :
  Forall (fun p => forall n s, reach s (snd (step n p s))) ps ->
  forall n s, reach s (snd (stepAll n ps s)).
Proof.
  induction 1 as [|q qs Hq _ IH]; intros n s; simpl.
  - apply reach_refl.
  - destruct (n <? pending q); run_monad.
    + specialize (Hq n s). destruct (step n q s). exact Hq.
    + specialize (IH (n - pending q) s). destruct (stepAll (n - pending q) qs s). exact IH.
Qed.

Lemma step_reach (p : Promise) : forall n s, reach s (snd (step n p s)).
Proof.
  induction p as [n|cs k IHcs|lang c key|expr className key] using promise_ind';
    intros m s; rewrite step_eq; simpl.
  - apply reach_refl.
  - run_monad. pose proof (stepAll_reach_aux cs IHcs m s) as W.
    destruct (stepAll m cs s). exact W.
  - apply fence_continue_reach.
  - apply reach_refl.
Qed.

Lemma stepAll_reach (ps : list Promise) n s : reach s (snd (stepAll n ps s)).
Proof.
  apply stepAll_reach_aux. apply Forall_forall. intros p _. apply step_reach.
Qed.

Lemma settle_reach (turns : nat) :
  forall sched ps s, reach s (snd (settle turns sched ps s)).
Proof.
  induction turns as [|turns IH]; intros sched ps s; simpl.
  - apply reach_refl.
  - destruct (pendingAll ps) as [|m]; [apply reach_refl|].
    run_monad. pose proof (stepAll_reach ps (sched 0 mod S m) s) as W.
    destruct (stepAll (sched 0 mod S m) ps s) as [ps' s'].
    eapply reach_trans; [exact W | apply IH].
Qed.

Lemma await_all_reach sched ps s : reach s (snd (await_all sched ps s)).
Proof. apply settle_reach. Qed.

Lemma footnote_bodies_reach (defs : list RenderTreeFootNoteDef) :
  forall s, reach s (snd (footnote_bodies defs s)).
Proof.
  induction defs as [|def defs IH]; intros s; simpl.
  - apply reach_refl.
  - run_monad. pose proof (renderAll_reach (fn_c def) s) as W.
    destruct (renderAll (fn_c def) s) as [cs s1]. specialize (IH s1).
    destruct (footnote_bodies defs s1) as [ps s2]. simpl in *.
    eapply reach_trans; eassumption.
Qed.

Lemma renderFootnotes_reach (sched : Schedule) (s : Session) :
  reach s (snd (renderFootnotes sched s)).
Proof.
  unfold renderFootnotes. run_monad.
  destruct (footNotes s) as [|def defs]; [apply reach_refl|].
  pose proof (footnote_bodies_reach (def :: defs)
                (add_log (LogDebug "Rendering footnotes" (map footnote_log (def :: defs))) s))
    as W1.
  destruct (footnote_bodies (def :: defs) _) as [bodies s1].
  pose proof (await_all_reach sched bodies s1) as W2.
  destruct (await_all sched bodies s1) as [bodies' s2]. simpl in W1, W2.
  assert (W : reach s s2).
  { eapply reach_trans; [|exact W2]. eapply reach_trans; [|exact W1].
    apply reach_add_log. apply reach_refl. }
  destruct (footnote_items 0 (def :: defs) bodies'); exact W.
Qed.

Lemma reach_table_kept (s s' : Session) :
  reach s s' -> table s <> None -> table s' <> None.
Proof. induction 1; simpl; auto; discriminate. Qed.

Lemma reach_footNotes (s s' : Session) :
  reach s s' -> exists new, footNotes s' = footNotes s ++ new.
Proof.
  induction 1 as [s| | | |s s' d _ [new IH]| |]; simpl; auto.
  - exists []. now rewrite app_nil_r.
  - exists (new ++ [d]). rewrite IH. now rewrite app_assoc.
Qed.

Lemma reach_matchCount (s s' : Session) : reach s s' -> matchCount s <= matchCount s'.
Proof. induction 1; simpl; lia. Qed.


(** *** The table alignment tracker *)

Lemma render_cell_tracked (header : bool) c key s st :
  table s = Some st ->
  render (cell header c) key s =
  (let (cs, s') :=
     renderAll c (set_table (Some {| aligns := aligns st; index := S (index st) |}) s) in
   (AwaitAll cs (jsx (Tag (cell_tag header)) key (style_props (tableAlignStyle st))), s')).
Proof.
  intros Ht. destruct header; rewrite render_eq; simpl; run_monad; rewrite Ht; reflexivity.
Qed.

Lemma render_cell_untracked (header : bool) c key s :
  table s = None ->
  render (cell header c) key s =
  (let (cs, s') := renderAll c s in
   (AwaitAll cs (jsx (Tag (cell_tag header)) key []), s')).
Proof.
  intros Ht. destruct header; rewrite render_eq; simpl; run_monad; rewrite Ht; reflexivity.
Qed.

Lemma existsb_false_Forall {X : Type} (f : X -> bool) (l : list X) :
  existsb f l = false -> Forall (fun x => f x = false) l.
Proof.
  induction l as [|x l IH]; simpl; intros E; constructor.
  - now destruct (f x).
  - apply IH. now destruct (f x).
Qed.

Lemma no_table_renderAll_from (elems : list RenderTreeElem) :
  Forall (fun e => forall key s, has_table e = false -> table s = None ->
                   table (snd (render e key s)) = None) elems ->
  existsb has_table elems = false ->
  forall idx s, table s = None -> table (snd (renderAll_from elems idx s)) = None.
Proof.
  induction 1 as [|e es He _ IH]; intros Hno idx s Ht; simpl in *.
  - exact Ht.
  - apply Bool.orb_false_iff in Hno as [He0 Hes].
    run_monad. specialize (He (Some idx) s He0 Ht).
    destruct (render e (Some idx) s) as [p s1]. specialize (IH Hes (S idx) s1 He).
    destruct (renderAll_from es (S idx) s1) as [ps s2]. exact IH.
Qed.

Lemma no_table_render (e : RenderTreeElem) :
  forall key s, has_table e = false -> table s = None -> table (snd (render e key s)) = None.
Proof.
  induction e using elem_ind; intros key0 s0 Hno Ht; rewrite render_eq; simpl in *.
  all: run_monad; simpl.
  all: try discriminate.
  all: try match goal with
       | |- context [if ?b then _ else _] => destruct b
       end.
  all: try rewrite Ht.
  all: try assumption.
  all: try reflexivity.
  all: try match goal with
       | H : Forall _ ?c |- context [renderAll ?c ?s] =>
           let W := fresh "W" in
           pose proof (no_table_renderAll_from c H Hno 0 s) as W;
           unfold renderAll; destruct (renderAll_from c 0 s); simpl in *;
           apply W; assumption
       end.
Qed.

Lemma no_table_renderAll (elems : list RenderTreeElem) (s : Session) :
  existsb has_table elems = false -> table s = None ->
  table (snd (renderAll elems s)) = None.
Proof.
  intros Hno Ht. apply no_table_renderAll_from; try assumption.
  apply Forall_forall. intros e _. apply no_table_render.
Qed.

Lemma no_table_fence_continue lang c key s :
  existsb has_table c = false -> table s = None ->
  table (snd (fence_continue lang c key s)) = None.
Proof.
  intros Hno Ht. unfold fence_continue.
  destruct (fence_render (Code lang c) key) as [[node modified]|].
  - destruct modified; simpl; run_monad; simpl; exact Ht.
  - run_monad. pose proof (no_table_renderAll c s Hno Ht) as W.
    destruct (renderAll c s). exact W.
Qed.

Lemma entered_eq (e : RenderTreeElem) : entered e = entered_body enteredAll e.
Proof. destruct e; reflexivity. Qed.

Lemma entered_renderAll_from (elems : list RenderTreeElem) :
  Forall (fun e => forall key s,
            current_aligns (snd (render e key s))
            = match entered e with Some a => Some a | None => current_aligns s end) elems ->
  forall idx s,
    current_aligns (snd (renderAll_from elems idx s))
    = match enteredAll elems with Some a => Some a | None => current_aligns s end.
Proof.
  induction 1 as [|e es He _ IH]; intros idx s; simpl.
  - reflexivity.
  - run_monad. specialize (He (Some idx) s).
    destruct (render e (Some idx) s) as [p s1]. specialize (IH (S idx) s1).
    destruct (renderAll_from es (S idx) s1) as [ps s2]. simpl in *.
    rewrite IH. destruct (enteredAll es); [reflexivity | exact He].
Qed.

Lemma entered_render (e : RenderTreeElem) :
  forall key s,
    current_aligns (snd (render e key s))
    = match entered e with Some a => Some a | None => current_aligns s end.
Proof.
  induction e using elem_ind; intros key0 s0; rewrite render_eq, entered_eq; simpl.
  all: run_monad; simpl.
  all: try reflexivity.
  all: try match goal with
       | |- context [if ?b then _ else _] => destruct b
       end.
  all: try match goal with
       | |- context [table ?s] => destruct (table s) eqn:Ht
       end.
  all: try match goal with
       | H : Forall _ ?c |- context [renderAll ?c ?s] =>
           let W := fresh "W" in
           pose proof (entered_renderAll_from c H 0 s) as W;
           unfold renderAll; destruct (renderAll_from c 0 s); simpl in *;
           rewrite W; unfold current_aligns; simpl; try rewrite Ht;
           destruct (enteredAll c); reflexivity
       end.
Qed.

Lemma entered_renderAll (elems : list RenderTreeElem) (s : Session) :
  current_aligns (snd (renderAll elems s))
  = match enteredAll elems with Some a => Some a | None => current_aligns s end.
Proof.
  apply entered_renderAll_from. apply Forall_forall. intros e _. apply entered_render.
Qed.


Lemma renderAll_from_app (l1 l2 : list RenderTreeElem) :
  forall idx s,
    renderAll_from (l1 ++ l2) idx s =
    (let (ps1, s1) := renderAll_from l1 idx s in
     let (ps2, s2) := renderAll_from l2 (idx + List.length l1) s1 in
     (ps1 ++ ps2, s2)).
Proof.
  induction l1 as [|e es IH]; intros idx s; simpl.
  - rewrite Nat.add_0_r. destruct (renderAll_from l2 idx s). reflexivity.
  - run_monad. destruct (render e (Some idx) s) as [p s1].
    rewrite IH. destruct (renderAll_from es (S idx) s1) as [ps1 s2].
    replace (idx + S (List.length es)) with (S idx + List.length es) by lia.
    destruct (renderAll_from l2 (S idx + List.length es) s2). reflexivity.
Qed.

Lemma neutral_renderAll_from (elems : list RenderTreeElem) :
  Forall (fun e => forall key s, reaches_table e = false ->
                   table (snd (render e key s)) = table s) elems ->
  existsb reaches_table elems = false ->
  forall idx s, table (snd (renderAll_from elems idx s)) = table s.
Proof.
  induction 1 as [|e es He _ IH]; intros Hno idx s; simpl in *.
  - reflexivity.
  - apply Bool.orb_false_iff in Hno as [He0 Hes].
    run_monad. specialize (He (Some idx) s He0).
    destruct (render e (Some idx) s) as [p s1]. specialize (IH Hes (S idx) s1).
    destruct (renderAll_from es (S idx) s1) as [ps s2]. simpl in *. congruence.
Qed.

Lemma neutral_render (e : RenderTreeElem) :
  forall key s, reaches_table e = false -> table (snd (render e key s)) = table s.
Proof.
  induction e using elem_ind; intros key0 s0 Hno; rewrite render_eq; simpl in *.
  all: run_monad; simpl.
  all: try discriminate.
  all: try reflexivity.
  all: try match goal with
       | |- context [if ?b then _ else _] => destruct b
       end.
  all: try match goal with
       | IHc : Forall _ ?c |- context [renderAll ?c ?s] =>
           let W := fresh "W" in
           pose proof (neutral_renderAll_from c IHc Hno 0 s) as W;
           unfold renderAll; destruct (renderAll_from c 0 s); simpl in *;
           exact W
       end.
Qed.

Lemma neutral_renderAll (elems : list RenderTreeElem) (s : Session) :
  existsb reaches_table elems = false -> table (snd (renderAll elems s)) = table s.
Proof.
  intros Hno. apply neutral_renderAll_from; try assumption.
  apply Forall_forall. intros e _. apply neutral_render.
Qed.

Lemma render_Table align c key s :
  render (Table align c) key s =
  (let (cs, s') := renderAll c (set_table (Some {| aligns := align; index := 0 |}) s) in
   (AwaitAll cs (jsx (Tag "table") key []), s')).
Proof. rewrite render_eq. reflexivity. Qed.

Lemma render_Tr_tracked c key s st :
  table s = Some st ->
  render (Tr c) key s =
  (let (cs, s') := renderAll c (set_table (Some {| aligns := aligns st; index := 0 |}) s) in
   (AwaitAll cs (jsx (Tag "tr") key []), s')).
Proof. intros Ht. rewrite render_eq. simpl. run_monad. rewrite Ht. reflexivity. Qed.

Lemma tableAlignStyle_out_of_range (st : TableState) :
  List.length (aligns st) <= index st -> tableAlignStyle st = None.
Proof.
  intros Hle. unfold tableAlignStyle.
  destruct (Nat.leb_spec (List.length (aligns st)) (index st)); [reflexivity | lia].
Qed.

Lemma row3_render (header : bool) (c0 c1 c2 : list RenderTreeElem) key s st :
  table s = Some st -> aligns st = left_none_right ->
  existsb reaches_table (c0 ++ c1 ++ c2) = false ->
  exists cs0 cs1 cs2 s',
    render (row3 header c0 c1 c2) key s =
    (AwaitAll [AwaitAll cs0 (jsx (Tag (cell_tag header)) (Some 0) (text_align left));
               AwaitAll cs1 (jsx (Tag (cell_tag header)) (Some 1) []);
               AwaitAll cs2 (jsx (Tag (cell_tag header)) (Some 2) (text_align right))]
       (jsx (Tag "tr") key []), s')
    /\ table s' = Some {| aligns := left_none_right; index := 3 |}.
Proof.
  intros Ht Ha Hn.
  rewrite !existsb_app in Hn.
  apply Bool.orb_false_iff in Hn as [H0 Hn].
  apply Bool.orb_false_iff in Hn as [H1 H2].
  unfold row3. rewrite (render_Tr_tracked _ _ _ _ Ht). rewrite Ha.
  unfold renderAll at 1. cbn [renderAll_from]. run_monad.
  erewrite (render_cell_tracked header c0 (Some 0)) by reflexivity.
  match goal with |- context [renderAll c0 ?s0] =>
    pose proof (neutral_renderAll c0 s0 H0) as T0; destruct (renderAll c0 s0) as [cs0 s1]
  end.
  simpl in T0.
  rewrite (render_cell_tracked header c1 (Some 1) _ _ T0).
  match goal with |- context [renderAll c1 ?s0] =>
    pose proof (neutral_renderAll c1 s0 H1) as T1; destruct (renderAll c1 s0) as [cs1 s2]
  end.
  simpl in T1.
  rewrite (render_cell_tracked header c2 (Some 2) _ _ T1).
  match goal with |- context [renderAll c2 ?s0] =>
    pose proof (neutral_renderAll c2 s0 H2) as T2; destruct (renderAll c2 s0) as [cs2 s3]
  end.
  simpl in T2.
  exists cs0, cs1, cs2, s3. split; [reflexivity | exact T2].
Qed.

Lemma rows_renderAll_from
    (rows : list (bool * (list RenderTreeElem * list RenderTreeElem * list RenderTreeElem))) :
  forallb row3_neutral rows = true ->
  forall idx s st, table s = Some st -> aligns st = left_none_right ->
    Forall row3_promise (fst (renderAll_from (map row3_of rows) idx s))
    /\ exists st', table (snd (renderAll_from (map row3_of rows) idx s)) = Some st'
                   /\ aligns st' = left_none_right.
Proof.
  induction rows as [|[header [[c0 c1] c2]] rows IH]; intros Hn idx s st Ht Ha.
  - simpl. split; [constructor | exists st; split; assumption].
  - cbn [forallb] in Hn. apply Bool.andb_true_iff in Hn as [Hrow Hrows].
    cbn [row3_neutral] in Hrow. apply Bool.negb_true_iff in Hrow.
    destruct (row3_render header c0 c1 c2 (Some idx) s st Ht Ha Hrow)
      as [cs0 [cs1 [cs2 [s1 [Hr Ht1]]]]].
    cbn [map renderAll_from].
    change (row3_of (header, (c0, c1, c2))) with (row3 header c0 c1 c2).
    run_monad. rewrite Hr.
    destruct (IH Hrows (S idx) s1 _ Ht1 eq_refl) as [Hps Hst].
    destruct (renderAll_from (map row3_of rows) (S idx) s1) as [ps s2]. simpl in *.
    split; [|exact Hst].
    constructor; [|exact Hps].
    exists header, (Some idx), cs0, cs1, cs2. reflexivity.
Qed.

Lemma Forall2_evolves_cons_inv (p : Promise) (ps qs : list Promise) :
  Forall2 evolves (p :: ps) qs ->
  exists q qs', qs = q :: qs' /\ evolves p q /\ Forall2 evolves ps qs'.
Proof. intros E. inversion E; subst. eauto. Qed.

Lemma Forall2_evolves_nil_inv (qs : list Promise) : Forall2 evolves [] qs -> qs = [].
Proof. intros E. inversion E. reflexivity. Qed.

Lemma value_AwaitAll_inv (cs : list Promise) (k : list ReactNode -> ReactNode) (v : ReactNode) :
  value (AwaitAll cs k) = Some v -> exists vs, values cs = Some vs /\ v = k vs.
Proof.
  rewrite value_eq. destruct (values cs) as [vs|]; simpl; [|discriminate].
  intros E. injection E as <-. eauto.
Qed.

Lemma evolved_cell_value (cs : list Promise) (k : list ReactNode -> ReactNode)
    (q : Promise) (v : ReactNode) :
  evolves (AwaitAll cs k) q -> value q = Some v -> exists o, v = k o.
Proof.
  intros E Hv. destruct (evolves_AwaitAll _ _ _ E) as [cs' [-> _]].
  destruct (value_AwaitAll_inv _ _ _ Hv) as [vs [_ ->]]. eauto.
Qed.

Lemma row3_promise_output (p p' : Promise) (out : ReactNode) :
  row3_promise p -> evolves p p' -> value p' = Some out -> row3_output out.
Proof.
  intros [header [key [cs0 [cs1 [cs2 ->]]]]] E Hv.
  destruct (evolves_AwaitAll _ _ _ E) as [cs' [-> Hcs]].
  destruct (Forall2_evolves_cons_inv _ _ _ Hcs) as [q0 [r0 [-> [E0 Hcs0]]]].
  destruct (Forall2_evolves_cons_inv _ _ _ Hcs0) as [q1 [r1 [-> [E1 Hcs1]]]].
  destruct (Forall2_evolves_cons_inv _ _ _ Hcs1) as [q2 [r2 [-> [E2 Hcs2]]]].
  apply Forall2_evolves_nil_inv in Hcs2 as ->.
  destruct (value_AwaitAll_inv _ _ _ Hv) as [vs [Hvs ->]].
  simpl in Hvs.
  destruct (value q0) as [v0|] eqn:V0; [|discriminate].
  destruct (value q1) as [v1|] eqn:V1; [|discriminate].
  destruct (value q2) as [v2|] eqn:V2; [|discriminate].
  injection Hvs as <-.
  destruct (evolved_cell_value _ _ _ _ E0 V0) as [o0 ->].
  destruct (evolved_cell_value _ _ _ _ E1 V1) as [o1 ->].
  destruct (evolved_cell_value _ _ _ _ E2 V2) as [o2 ->].
  exists header, key, o0, o1, o2. reflexivity.
Qed.

Lemma rows_output (cs cs' : list Promise) :
  Forall row3_promise cs -> Forall2 evolves cs cs' ->
  forall outs, values cs' = Some outs -> Forall row3_output outs.
Proof.
  intros Hrows E. induction E as [|p p' cs cs' Ep _ IH]; intros outs Hv; simpl in Hv.
  - injection Hv as <-. constructor.
  - inversion Hrows as [|? ? Hp Hcs]; subst.
    destruct (value p') as [v|] eqn:V; [|discriminate].
    destruct (values cs') as [vs|]; [|discriminate].
    injection Hv as <-. constructor.
    + eapply row3_promise_output; eassumption.
    + apply IH; [assumption | reflexivity].
Qed.

Lemma table_rows_output
    (rows : list (bool * (list RenderTreeElem * list RenderTreeElem * list RenderTreeElem)))
    (key : option nat) (s : Session) (sched : Schedule) :
  forallb row3_neutral rows = true ->
  exists outs,
    values (fst (await_all sched
                   [fst (render (Table left_none_right (map row3_of rows)) key s)]
                   (snd (render (Table left_none_right (map row3_of rows)) key s))))
    = Some [jsx (Tag "table") key [] outs]
    /\ Forall row3_output outs
    /\ List.length outs = List.length rows.
Proof.
  intros Hn. rewrite render_Table.
  destruct (rows_renderAll_from rows Hn 0
              (set_table (Some {| aligns := left_none_right; index := 0 |}) s) _
              eq_refl eq_refl) as [Hps _].
  pose proof (renderAll_from_length (map row3_of rows) 0
                (set_table (Some {| aligns := left_none_right; index := 0 |}) s)) as Hlen.
  unfold renderAll.
  destruct (renderAll_from (map row3_of rows) 0
              (set_table (Some {| aligns := left_none_right; index := 0 |}) s)) as [cs s1].
  simpl in Hps, Hlen. simpl fst. simpl snd.
  pose proof (await_all_settles sched [AwaitAll cs (jsx (Tag "table") key [])] s1) as Hdone.
  pose proof (settle_evolves (workAll [AwaitAll cs (jsx (Tag "table") key [])]) sched
                [AwaitAll cs (jsx (Tag "table") key [])] s1) as Hev.
  fold (await_all sched [AwaitAll cs (jsx (Tag "table") key [])] s1) in Hev.
  destruct (values_of_settled _ Hdone) as [vs Hvs].
  destruct (Forall2_evolves_cons_inv _ _ _ Hev) as [p' [r [Hps' [E Hr]]]].
  apply Forall2_evolves_nil_inv in Hr as ->.
  rewrite Hps' in Hvs |- *.
  destruct (evolves_AwaitAll _ _ _ E) as [cs' [-> Hcs]].
  cbn [values] in Hvs |- *. rewrite value_eq in Hvs |- *.
  destruct (values cs') as [outs|] eqn:Houts; [|discriminate].
  exists outs. split; [reflexivity|]. split.
  - eapply rows_output; eassumption.
  - rewrite (values_length _ _ Houts), <- (Forall2_length Hcs), Hlen.
    apply length_map.
Qed.

Lemma render_section (head : bool) (c : list RenderTreeElem) key s :
  render (if head then Thead c else Tbody c) key s =
  (let (cs, s') := renderAll c s in
   (AwaitAll cs (jsx (Tag (if head then "thead" else "tbody")) key []), s')).
Proof. destruct head; rewrite render_eq; reflexivity. Qed.

Lemma table_children_renderAll_from (children : list TableChild) :
  forallb table_child_neutral children = true ->
  forall idx s st, table s = Some st -> aligns st = left_none_right ->
    Forall2 table_child_promise children
      (fst (renderAll_from (map table_child_of children) idx s))
    /\ exists st', table (snd (renderAll_from (map table_child_of children) idx s)) = Some st'
                   /\ aligns st' = left_none_right.
Proof.
  induction children as [|ch children IH]; intros Hn idx s st Ht Ha.
  - simpl. split; [constructor | exists st; split; assumption].
  - cbn [forallb] in Hn. apply Bool.andb_true_iff in Hn as [Hch Hchildren].
    cbn [map renderAll_from]. run_monad.
    assert (Hfirst : table_child_promise ch (fst (render (table_child_of ch) (Some idx) s))
                     /\ exists st1, table (snd (render (table_child_of ch) (Some idx) s))
                                    = Some st1
                                    /\ aligns st1 = left_none_right).
    { destruct ch as [[header [[c0 c1] c2]]|head rows]; cbn [table_child_of table_child_promise].
      - cbn [table_child_neutral row3_neutral] in Hch. apply Bool.negb_true_iff in Hch.
        change (row3_of (header, (c0, c1, c2))) with (row3 header c0 c1 c2).
        destruct (row3_render header c0 c1 c2 (Some idx) s st Ht Ha Hch)
          as [cs0 [cs1 [cs2 [s1 [Hr Ht1]]]]].
        rewrite Hr. simpl. split.
        + exists header, (Some idx), cs0, cs1, cs2. reflexivity.
        + eexists. split; [exact Ht1 | reflexivity].
      - cbn [table_child_neutral] in Hch.
        destruct (rows_renderAll_from rows Hch 0 s st Ht Ha) as [Hps Hst].
        pose proof (renderAll_from_length (map row3_of rows) 0 s) as Hlen.
        rewrite render_section. unfold renderAll.
        destruct (renderAll_from (map row3_of rows) 0 s) as [cs s1]. simpl in *.
        split; [|exact Hst].
        exists (Some idx), cs. split; [reflexivity|]. split; [exact Hps|].
        rewrite Hlen. apply length_map. }
    destruct Hfirst as [Hp [st1 [Ht1 Ha1]]].
    destruct (render (table_child_of ch) (Some idx) s) as [p s1]. simpl in Hp, Ht1.
    destruct (IH Hchildren (S idx) s1 st1 Ht1 Ha1) as [Hps Hst].
    destruct (renderAll_from (map table_child_of children) (S idx) s1) as [ps s2].
    simpl in *. split; [|exact Hst]. constructor; assumption.
Qed.

Lemma table_child_promise_output (ch : TableChild) (p p' : Promise) (out : ReactNode) :
  table_child_promise ch p -> evolves p p' -> value p' = Some out ->
  table_child_output ch out.
Proof.
  destruct ch as [r|head rows]; cbn [table_child_promise table_child_output].
  - apply row3_promise_output.
  - intros [key [cs [-> [Hrows Hlen]]]] E Hv.
    destruct (evolves_AwaitAll _ _ _ E) as [cs' [-> Hcs]].
    destruct (value_AwaitAll_inv _ _ _ Hv) as [outs [Houts ->]].
    exists key, outs. split; [reflexivity|]. split.
    + eapply rows_output; eassumption.
    + rewrite (values_length _ _ Houts), <- (Forall2_length Hcs). exact Hlen.
Qed.

Lemma table_children_output (children : list TableChild) (cs cs' : list Promise) :
  Forall2 table_child_promise children cs -> Forall2 evolves cs cs' ->
  forall outs, values cs' = Some outs -> Forall2 table_child_output children outs.
Proof.
  intros Hch. revert cs'.
  induction Hch as [|ch p children cs Hp _ IH]; intros cs' E outs Hv.
  - apply Forall2_evolves_nil_inv in E as ->. simpl in Hv. injection Hv as <-. constructor.
  - destruct (Forall2_evolves_cons_inv _ _ _ E) as [p' [rest [-> [Ep Erest]]]].
    simpl in Hv.
    destruct (value p') as [v|] eqn:V; [|discriminate].
    destruct (values rest) as [vs|] eqn:Vs; [|discriminate].
    injection Hv as <-. constructor.
    + eapply table_child_promise_output; eassumption.
    + eapply IH; [exact Erest | exact Vs].
Qed.

Lemma table_children_rendered (children : list TableChild)
    (key : option nat) (s : Session) (sched : Schedule) :
  forallb table_child_neutral children = true ->
  exists outs,
    values (fst (await_all sched
                   [fst (render (Table left_none_right (map table_child_of children)) key s)]
                   (snd (render (Table left_none_right (map table_child_of children)) key s))))
    = Some [RElement (Tag "table") (option_map KIdx key) [] (Some (RArray outs))]
    /\ Forall2 table_child_output children outs.
Proof.
  intros Hn. rewrite render_Table.
  destruct (table_children_renderAll_from children Hn 0
              (set_table (Some {| aligns := left_none_right; index := 0 |}) s) _
              eq_refl eq_refl) as [Hps _].
  unfold renderAll.
  destruct (renderAll_from (map table_child_of children) 0
              (set_table (Some {| aligns := left_none_right; index := 0 |}) s)) as [cs s1].
  simpl in Hps. simpl fst. simpl snd.
  pose proof (await_all_settles sched [AwaitAll cs (jsx (Tag "table") key [])] s1) as Hdone.
  pose proof (settle_evolves (workAll [AwaitAll cs (jsx (Tag "table") key [])]) sched
                [AwaitAll cs (jsx (Tag "table") key [])] s1) as Hev.
  fold (await_all sched [AwaitAll cs (jsx (Tag "table") key [])] s1) in Hev.
  destruct (values_of_settled _ Hdone) as [vs Hvs].
  destruct (Forall2_evolves_cons_inv _ _ _ Hev) as [p' [r [Hps' [E Hr]]]].
  apply Forall2_evolves_nil_inv in Hr as ->.
  rewrite Hps' in Hvs |- *.
  destruct (evolves_AwaitAll _ _ _ E) as [cs' [-> Hcs]].
  cbn [values] in Hvs |- *. rewrite value_eq in Hvs |- *.
  destruct (values cs') as [outs|] eqn:Houts; [|discriminate].
  exists outs. split; [reflexivity|].
  eapply table_children_output; eassumption.
Qed.

(** C1 (as amended): entering a table replaces the alignment state and
    puts the cursor at zero; entering a row puts the cursor at zero and
    keeps the alignment sequence; a header or data cell takes the style
    found at the cursor (none when the cursor is out of range) and
    advances the cursor by one in every case.  Under the alignments
    [left, none, right], a row of three cells whose contents reach no
    table, row or cell node gets left alignment on cell 0, no style on
    cell 1 and right alignment on cell 2, and leaves the sequence in
    place for the next row; so every such row of a table declared with
    these alignments, whether it stands under the table itself or under
    a head or body section of the table, comes out with the three
    alignments, in whatever session the table is rendered and in
    whatever order the waits complete. *)
Theorem C1_table_alignment_applied :
  (forall align c key s,
     render (Table align c) key s =
     (let (cs, s') := renderAll c (set_table (Some {| aligns := align; index := 0 |}) s) in
      (AwaitAll cs (jsx (Tag "table") key []), s')))
  /\ (forall c key s st,
        table s = Some st ->
        render (Tr c) key s =
        (let (cs, s') :=
           renderAll c (set_table (Some {| aligns := aligns st; index := 0 |}) s) in
         (AwaitAll cs (jsx (Tag "tr") key []), s')))
  /\ (forall header c key s st,
        table s = Some st ->
        render (cell header c) key s =
        (let (cs, s') :=
           renderAll c (set_table (Some {| aligns := aligns st; index := S (index st) |}) s) in
         (AwaitAll cs (jsx (Tag (cell_tag header)) key (style_props (tableAlignStyle st))), s'))
        /\ (List.length (aligns st) <= index st -> tableAlignStyle st = None))
  /\ (forall header c0 c1 c2 key s st,
        table s = Some st -> aligns st = left_none_right ->
        existsb reaches_table (c0 ++ c1 ++ c2) = false ->
        exists cs0 cs1 cs2 s',
          render (row3 header c0 c1 c2) key s =
          (AwaitAll [AwaitAll cs0 (jsx (Tag (cell_tag header)) (Some 0) (text_align left));
                     AwaitAll cs1 (jsx (Tag (cell_tag header)) (Some 1) []);
                     AwaitAll cs2 (jsx (Tag (cell_tag header)) (Some 2) (text_align right))]
             (jsx (Tag "tr") key []), s')
          /\ table s' = Some {| aligns := left_none_right; index := 3 |})
  /\ (forall rows key s sched,
        forallb row3_neutral rows = true ->
        exists outs,
          values (fst (await_all sched
                         [fst (render (Table left_none_right (map row3_of rows)) key s)]
                         (snd (render (Table left_none_right (map row3_of rows)) key s))))
          = Some [jsx (Tag "table") key [] outs]
          /\ Forall row3_output outs
          /\ List.length outs = List.length rows)
  /\ (forall children key s sched,
        forallb table_child_neutral children = true ->
        exists outs,
          values (fst (await_all sched
                         [fst (render (Table left_none_right (map table_child_of children))
                                 key s)]
                         (snd (render (Table left_none_right (map table_child_of children))
                                 key s))))
          = Some [RElement (Tag "table") (option_map KIdx key) [] (Some (RArray outs))]
          /\ Forall2 table_child_output children outs).
Proof.
  split; [exact render_Table|].
  split; [exact render_Tr_tracked|].
  split.
  { intros header c key s st Ht. split.
    - apply render_cell_tracked. exact Ht.
    - apply tableAlignStyle_out_of_range. }
  split; [exact row3_render|].
  split; [exact table_rows_output | exact table_children_rendered].
Qed.

(** *** A pass over a tree that holds no table node *)

Lemma tableless_renderAll_from (elems : list RenderTreeElem) :
  Forall (fun e => forall key s, has_table e = false -> tableless s ->
            tableless (snd (render e key s))
            /\ promise_has_table (fst (render e key s)) = false) elems ->
  existsb has_table elems = false ->
  forall idx s, tableless s ->
    tableless (snd (renderAll_from elems idx s))
    /\ existsb promise_has_table (fst (renderAll_from elems idx s)) = false.
Proof.
  induction 1 as [|e es He _ IH]; intros Hno idx s Hs; simpl in *.
  - split; [exact Hs | reflexivity].
  - apply Bool.orb_false_iff in Hno as [He0 Hes].
    run_monad. destruct (He (Some idx) s He0 Hs) as [Hs1 Hp].
    destruct (render e (Some idx) s) as [p s1]. simpl in Hs1, Hp.
    destruct (IH Hes (S idx) s1 Hs1) as [Hs2 Hps].
    destruct (renderAll_from es (S idx) s1) as [ps s2]. simpl in *.
    split; [exact Hs2|]. now rewrite Hp, Hps.
Qed.

Lemma tableless_render (e : RenderTreeElem) :
  forall key s, has_table e = false -> tableless s ->
    tableless (snd (render e key s)) /\ promise_has_table (fst (render e key s)) = false.
Proof.
  induction e using elem_ind; intros key0 s0 Hno Hs; rewrite render_eq; simpl in *.
  all: pose proof (proj1 Hs) as Ht.
  all: run_monad; simpl.
  all: try discriminate.
  all: try match goal with
       | |- context [if ?b then _ else _] => destruct b
       end.
  all: try rewrite Ht.
  all: try match goal with
       | H : Forall _ ?c |- context [renderAll ?c ?s] =>
           let W := fresh "W" in
           pose proof (tableless_renderAll_from c H Hno 0 s) as W;
           unfold renderAll; destruct (renderAll_from c 0 s); simpl in *;
           apply W
       end.
  all: try solve [split; [exact Hs | reflexivity]].
  all: try solve [split; [exact Hs | exact Hno]].
  all: try solve [destruct Hs as [Ht' Hd]; split; assumption].
  all: try solve [destruct Hs as [Ht' Hd]; split; [split; assumption | reflexivity]].
  (* a footnote definition *)
  destruct Hs as [Ht' Hd]. split; [|reflexivity]. split; [exact Ht'|].
  simpl. apply Forall_app. split; [exact Hd|]. constructor; [exact Hno | constructor].
Qed.

Lemma tableless_renderAll (elems : list RenderTreeElem) (s : Session) :
  existsb has_table elems = false -> tableless s ->
  tableless (snd (renderAll elems s))
  /\ existsb promise_has_table (fst (renderAll elems s)) = false.
Proof.
  intros Hno Hs. apply tableless_renderAll_from; try assumption.
  apply Forall_forall. intros e _. apply tableless_render.
Qed.

Lemma tableless_fence_continue lang c key s :
  existsb has_table c = false -> tableless s ->
  tableless (snd (fence_continue lang c key s))
  /\ promise_has_table (fst (fence_continue lang c key s)) = false.
Proof.
  intros Hno Hs. unfold fence_continue.
  destruct (fence_render (Code lang c) key) as [[node modified]|].
  - destruct modified; simpl; run_monad; simpl; (split; [|reflexivity]).
    + destruct Hs as [Ht Hd]. split; assumption.
    + exact Hs.
  - run_monad. pose proof (tableless_renderAll c s Hno Hs) as W.
    destruct (renderAll c s). exact W.
Qed.

Lemma tableless_stepAll_aux (ps : list Promise) :
  Forall (fun p => forall n s, promise_has_table p = false -> tableless s ->
            tableless (snd (step n p s))
            /\ promise_has_table (fst (step n p s)) = false) ps ->
  forall n s, existsb promise_has_table ps = false -> tableless s ->
    tableless (snd (stepAll n ps s))
    /\ existsb promise_has_table (fst (stepAll n ps s)) = false.
Proof.
  induction 1 as [|q qs Hq _ IH]; intros n s Hno Hs; simpl in *.
  - split; [exact Hs | reflexivity].
  - apply Bool.orb_false_iff in Hno as [Hq0 Hqs].
    destruct (n <? pending q); run_monad.
    + destruct (Hq n s Hq0 Hs) as [Hs1 Hp]. destruct (step n q s). simpl in *.
      split; [exact Hs1|]. now rewrite Hp, Hqs.
    + destruct (IH (n - pending q) s Hqs Hs) as [Hs1 Hp].
      destruct (stepAll (n - pending q) qs s). simpl in *.
      split; [exact Hs1|]. now rewrite Hq0, Hp.
Qed.

Lemma tableless_step (p : Promise) :
  forall n s, promise_has_table p = false -> tableless s ->
    tableless (snd (step n p s)) /\ promise_has_table (fst (step n p s)) = false.
Proof.
  induction p as [n|cs k IHcs|lang c key|expr className key] using promise_ind';
    intros m s Hno Hs; rewrite step_eq; simpl in *.
  - split; [exact Hs | reflexivity].
  - run_monad. pose proof (tableless_stepAll_aux cs IHcs m s Hno Hs) as W.
    destruct (stepAll m cs s). exact W.
  - now apply tableless_fence_continue.
  - split; [exact Hs | reflexivity].
Qed.

Lemma tableless_settle (turns : nat) :
  forall sched ps s, existsb promise_has_table ps = false -> tableless s ->
    tableless (snd (settle turns sched ps s)).
Proof.
  induction turns as [|turns IH]; intros sched ps s Hno Hs; simpl.
  - exact Hs.
  - destruct (pendingAll ps) as [|m]; [exact Hs|].
    run_monad.
    assert (W : tableless (snd (stepAll (sched 0 mod S m) ps s))
                /\ existsb promise_has_table (fst (stepAll (sched 0 mod S m) ps s)) = false).
    { apply tableless_stepAll_aux; try assumption.
      apply Forall_forall. intros p _. apply tableless_step. }
    destruct (stepAll (sched 0 mod S m) ps s) as [ps' s'].
    apply IH; apply W.
Qed.

Lemma tableless_footnote_bodies (defs : list RenderTreeFootNoteDef) :
  Forall (fun d => existsb has_table (fn_c d) = false) defs ->
  forall s, tableless s ->
    tableless (snd (footnote_bodies defs s))
    /\ existsb promise_has_table (fst (footnote_bodies defs s)) = false.
Proof.
  induction 1 as [|def defs Hdef _ IH]; intros s Hs; simpl.
  - split; [exact Hs | reflexivity].
  - run_monad. pose proof (tableless_renderAll (fn_c def) s Hdef Hs) as [Hs1 Hp].
    destruct (renderAll (fn_c def) s) as [cs s1]. simpl in Hs1, Hp.
    destruct (IH s1 Hs1) as [Hs2 Hps].
    destruct (footnote_bodies defs s1) as [ps s2]. simpl in *.
    split; [exact Hs2|]. now rewrite Hp, Hps.
Qed.

Lemma tableless_renderFootnotes (sched : Schedule) (s : Session) :
  tableless s -> tableless (snd (renderFootnotes sched s)).
Proof.
  intros Hs. unfold renderFootnotes. run_monad.
  destruct (footNotes s) as [|def defs] eqn:Hdefs; [exact Hs|].
  assert (Hs0 : tableless
                  (add_log (LogDebug "Rendering footnotes" (map footnote_log (def :: defs))) s)).
  { destruct Hs as [Ht Hd]. split; assumption. }
  assert (Hd : Forall (fun d => existsb has_table (fn_c d) = false) (def :: defs)).
  { rewrite <- Hdefs. apply Hs. }
  destruct (tableless_footnote_bodies (def :: defs) Hd _ Hs0) as [Hs1 Hp].
  destruct (footnote_bodies (def :: defs) _) as [bodies s1]. simpl in Hs1, Hp.
  pose proof (tableless_settle (workAll bodies) sched bodies s1 Hp Hs1) as Hs2.
  fold (await_all sched bodies s1) in Hs2.
  destruct (await_all sched bodies s1) as [bodies' s2]. simpl in Hs2.
  destruct (footnote_items 0 (def :: defs) bodies'); exact Hs2.
Qed.

Lemma tableless_run (tree : list RenderTreeElem) (sched sched_fn : Schedule) (s : Session) :
  existsb has_table tree = false -> tableless s ->
  tableless (snd (run tree sched sched_fn s)).
Proof.
  intros Hno Hs. unfold run. run_monad.
  assert (Hs0 : tableless (add_log (LogDebug "Rendering preview tree" tree) s)).
  { destruct Hs as [Ht Hd]. split; assumption. }
  destruct (tableless_renderAll tree _ Hno Hs0) as [Hs1 Hp].
  destruct (renderAll tree _) as [ps s1]. simpl in Hs1, Hp.
  pose proof (tableless_settle (workAll ps) sched ps s1 Hp Hs1) as Hs2.
  fold (await_all sched ps s1) in Hs2.
  destruct (await_all sched ps s1) as [ps' s2]. simpl in Hs2.
  destruct (values ps') as [blocks|]; [|exact Hs2].
  pose proof (tableless_renderFootnotes sched_fn s2 Hs2) as Hs3.
  destruct (renderFootnotes sched_fn s2) as [[|footer|err] s3]; exact Hs3.
Qed.

(** A pass that ends with the table state unset entered no table node
    before its first wait. *)
Lemma run_unset_entered_none (tree : list RenderTreeElem) (sched sched_fn : Schedule) :
  table (snd (run tree sched sched_fn new_session)) = None -> enteredAll tree = None.
Proof.
  intros Hend.
  assert (Hmain : table (snd (renderAll tree
                                (add_log (LogDebug "Rendering preview tree" tree) new_session)))
                  = None).
  { destruct (table (snd (renderAll tree _))) as [st|] eqn:Ht; [|reflexivity].
    exfalso. revert Hend. unfold run. run_monad.
    destruct (renderAll tree _) as [ps s1]. simpl in Ht.
    pose proof (await_all_reach sched ps s1) as W2.
    destruct (await_all sched ps s1) as [ps' s2]. simpl in W2 |- *.
    assert (H2 : table s2 <> None).
    { apply (reach_table_kept s1); [exact W2 | congruence]. }
    destruct (values ps') as [blocks|]; [|exact H2].
    pose proof (renderFootnotes_reach sched_fn s2) as W3.
    destruct (renderFootnotes sched_fn s2) as [[|footer|err] s3]; simpl in *;
      apply (reach_table_kept s2); assumption. }
  pose proof (entered_renderAll tree
                (add_log (LogDebug "Rendering preview tree" tree) new_session)) as He.
  unfold current_aligns in He. rewrite Hmain in He. simpl in He.
  destruct (enteredAll tree); [discriminate | reflexivity].
Qed.

(** C10 (as amended): once a table node has been entered, the table
    state stays set through every later render call, every completion of
    a wait and the footnote pass; the alignment sequence it holds is that
    of the table entered last; a header or data cell that follows, also
    one outside any table, takes the style found at the cursor of that
    state and advances the cursor.  A cell renders without consulting the
    state exactly while the state is unset, that is, from a new session,
    while no table node has been entered before the cell: a cell that
    precedes the first table of a pass renders without it.  Through a
    pass over a tree that holds no table node the state stays unset, and
    a pass that ends with the state unset has entered no table node. *)
Theorem C10_table_state_never_cleared :
  (forall e key s, table s <> None -> table (snd (render e key s)) <> None)
  /\ (forall sched ps s, table s <> None -> table (snd (await_all sched ps s)) <> None)
  /\ (forall sched s, table s <> None -> table (snd (renderFootnotes sched s)) <> None)
  /\ (forall align c key s, table (snd (render (Table align c) key s)) <> None)
  /\ (forall elems s,
        current_aligns (snd (renderAll elems s))
        = match enteredAll elems with
          | Some a => Some a
          | None => current_aligns s
          end)
  /\ (forall elems header c s st,
        table (snd (renderAll elems s)) = Some st ->
        renderAll (elems ++ [cell header c]) s =
        (let (cs, s') :=
           renderAll c (set_table (Some {| aligns := aligns st; index := S (index st) |})
                          (snd (renderAll elems s))) in
         (fst (renderAll elems s)
          ++ [AwaitAll cs (jsx (Tag (cell_tag header)) (Some (List.length elems))
                             (style_props (tableAlignStyle st)))], s')))
  /\ (forall header c key s,
        table s = None ->
        render (cell header c) key s =
        (let (cs, s') := renderAll c s in
         (AwaitAll cs (jsx (Tag (cell_tag header)) key []), s')))
  /\ table new_session = None
  /\ (forall e key s, has_table e = false -> table s = None ->
                      table (snd (render e key s)) = None)
  /\ (forall lang c key s, existsb has_table c = false -> table s = None ->
                           table (snd (fence_continue lang c key s)) = None)
  /\ (forall elems s,
        table s = None ->
        (table (snd (renderAll elems s)) = None <-> enteredAll elems = None))
  /\ (forall elems header c s,
        table s = None -> enteredAll elems = None ->
        renderAll (elems ++ [cell header c]) s =
        (let (cs, s') := renderAll c (snd (renderAll elems s)) in
         (fst (renderAll elems s)
          ++ [AwaitAll cs
                (fun children =>
                   RElement (Tag (if header then "th" else "td"))
                     (Some (KIdx (List.length elems))) [] (Some (RArray children)))],
          s')))
  /\ (forall elems header c s a,
        enteredAll elems = Some a ->
        exists st,
          table (snd (renderAll elems s)) = Some st
          /\ aligns st = a
          /\ table (snd (renderAll (elems ++ [cell header c]) s)) <> None)
  /\ (forall tree sched sched_fn,
        existsb has_table tree = false ->
        table (snd (ReactMarkdownRenderer_render tree sched sched_fn)) = None)
  /\ (forall tree sched sched_fn,
        table (snd (ReactMarkdownRenderer_render tree sched sched_fn)) = None ->
        enteredAll tree = None).
Proof.
  assert (Hiff : forall elems s, table s = None ->
            (table (snd (renderAll elems s)) = None <-> enteredAll elems = None)).
  { intros elems s Ht. pose proof (entered_renderAll elems s) as He.
    unfold current_aligns in He. rewrite Ht in He. simpl in He.
    destruct (table (snd (renderAll elems s))), (enteredAll elems); simpl in He;
      split; intros E; try discriminate; reflexivity. }
  split. { intros e key s. apply reach_table_kept. apply render_reach. }
  split. { intros sched ps s. apply reach_table_kept. apply await_all_reach. }
  split. { intros sched s. apply reach_table_kept. apply renderFootnotes_reach. }
  split. { intros align c key s. apply (reach_table_kept (set_table (Some {| aligns := align; index := 0 |}) s)).
           - rewrite render_Table. pose proof (renderAll_reach c (set_table (Some {| aligns := align; index := 0 |}) s)) as W.
             destruct (renderAll c (set_table (Some {| aligns := align; index := 0 |}) s)). exact W.
           - discriminate. }
  split; [exact entered_renderAll|].
  split.
  { intros elems header c s st Ht. unfold renderAll at 1. rewrite renderAll_from_app.
    fold (renderAll elems s). destruct (renderAll elems s) as [ps s1]. simpl in Ht |- *.
    run_monad. rewrite (render_cell_tracked header c _ s1 st Ht).
    destruct (renderAll c _) as [cs s2]. reflexivity. }
  split; [exact render_cell_untracked|].
  split; [reflexivity|].
  split; [exact no_table_render|].
  split; [exact no_table_fence_continue|].
  split; [exact Hiff|].
  split.
  { intros elems header c s Ht He. apply (Hiff elems s Ht) in He.
    unfold renderAll at 1. rewrite renderAll_from_app.
    fold (renderAll elems s). destruct (renderAll elems s) as [ps s1]. simpl in He |- *.
    run_monad. rewrite (render_cell_untracked header c _ s1 He).
    destruct (renderAll c s1) as [cs s2]. destruct header; reflexivity. }
  split.
  { intros elems header c s a He. pose proof (entered_renderAll elems s) as Hc.
    rewrite He in Hc. unfold current_aligns in Hc.
    destruct (table (snd (renderAll elems s))) as [st|] eqn:Ht; [|discriminate].
    simpl in Hc. injection Hc as Ha. exists st. split; [reflexivity|]. split; [exact Ha|].
    unfold renderAll. rewrite renderAll_from_app.
    fold (renderAll elems s). destruct (renderAll elems s) as [ps s1]. simpl in Ht.
    cbn [renderAll_from]. run_monad.
    pose proof (render_reach (cell header c) (Some (0 + List.length elems)) s1) as W.
    destruct (render (cell header c) _ s1) as [p s2]. simpl in W |- *.
    apply (reach_table_kept s1); [exact W | congruence]. }
  split.
  { intros tree sched sched_fn Hno. unfold ReactMarkdownRenderer_render.
    apply tableless_run; [exact Hno|]. split; [reflexivity | constructor]. }
  intros tree sched sched_fn. apply run_unset_entered_none.
Qed.

(** *** The fence collaborator *)

Lemma unmarked_renderAll_from (elems : list RenderTreeElem) :
  Forall (fun e => forall key s, reaches_modified e = false ->
                   lastModifiedRef (snd (render e key s)) = lastModifiedRef s) elems ->
  existsb reaches_modified elems = false ->
  forall idx s, lastModifiedRef (snd (renderAll_from elems idx s)) = lastModifiedRef s.
Proof.
  induction 1 as [|e es He _ IH]; intros Hno idx s; simpl in *.
  - reflexivity.
  - apply Bool.orb_false_iff in Hno as [He0 Hes].
    run_monad. specialize (He (Some idx) s He0).
    destruct (render e (Some idx) s) as [p s1]. specialize (IH Hes (S idx) s1).
    destruct (renderAll_from es (S idx) s1) as [ps s2]. simpl in *. congruence.
Qed.

Lemma unmarked_render (e : RenderTreeElem) :
  forall key s, reaches_modified e = false ->
                lastModifiedRef (snd (render e key s)) = lastModifiedRef s.
Proof.
  induction e using elem_ind; intros key0 s0 Hno; rewrite render_eq; simpl in *.
  all: run_monad; simpl.
  all: try discriminate.
  all: try reflexivity.
  all: try match goal with
       | |- context [if ?b then _ else _] => destruct b
       end.
  all: try match goal with
       | |- context [table ?s] => destruct (table s)
       end.
  all: try match goal with
       | IHc : Forall _ ?c |- context [renderAll ?c ?s] =>
           let W := fresh "W" in
           pose proof (unmarked_renderAll_from c IHc Hno 0 s) as W;
           unfold renderAll; destruct (renderAll_from c 0 s); simpl in *;
           exact W
       end.
Qed.

Lemma unmarked_renderAll (elems : list RenderTreeElem) (s : Session) :
  existsb reaches_modified elems = false ->
  lastModifiedRef (snd (renderAll elems s)) = lastModifiedRef s.
Proof.
  intros Hno. apply unmarked_renderAll_from; try assumption.
  apply Forall_forall. intros e _. apply unmarked_render.
Qed.

(** *** Unknown kinds and the log *)

Lemma same_but_log_add_log (e : LogEntry) (s : Session) : same_but_log (add_log e s) s.
Proof. unfold same_but_log. repeat split. Qed.

Ltac same_log :=
  unfold same_but_log in *; simpl in *;
  try clear fence_render; try clear mathjax_render; intuition congruence.

(** The renderer never reads its log: from two sessions that a relation
    which implies agreement on every other field holds of, and which
    every write of the renderer keeps, every call, every completion, the
    footnote pass and the whole pass give the same results and sessions
    of which the relation still holds. *)
Section Blind.

Variable R : Session -> Session -> Prop.
Hypothesis R_same : forall s t, R s t -> same_but_log s t.
Hypothesis R_set_table :
  forall st s t, R s t -> R (set_table (Some st) s) (set_table (Some st) t).
Hypothesis R_marker :
  forall s t, R s t ->
    R (set_lastModifiedRef (refs s) (new_ref s)) (set_lastModifiedRef (refs t) (new_ref t)).
Hypothesis R_push_footNote : forall d s t, R s t -> R (push_footNote d s) (push_footNote d t).
Hypothesis R_incr_matchCount : forall s t, R s t -> R (incr_matchCount s) (incr_matchCount t).
Hypothesis R_add_log : forall e s t, R s t -> R (add_log e s) (add_log e t).

Lemma blind_renderAll_from (elems : list RenderTreeElem) :
  Forall (fun e => forall key s t, R s t ->
            fst (render e key s) = fst (render e key t)
            /\ R (snd (render e key s)) (snd (render e key t))) elems ->
  forall idx s t, R s t ->
    fst (renderAll_from elems idx s) = fst (renderAll_from elems idx t)
    /\ R (snd (renderAll_from elems idx s)) (snd (renderAll_from elems idx t)).
Proof using Type.
  induction 1 as [|e es He _ IH]; intros idx s t Hst; simpl.
  - split; [reflexivity | exact Hst].
  - run_monad. destruct (He (Some idx) s t Hst) as [Hp Hs].
    destruct (render e (Some idx) s) as [p s1].
    destruct (render e (Some idx) t) as [p' t1]. simpl in Hp, Hs. subst p'.
    destruct (IH (S idx) s1 t1 Hs) as [Hps Hs2].
    destruct (renderAll_from es (S idx) s1) as [ps s2].
    destruct (renderAll_from es (S idx) t1) as [ps' t2]. simpl in *.
    split; [congruence | exact Hs2].
Qed.

Lemma blind_render (e : RenderTreeElem) :
  forall key s t, R s t ->
    fst (render e key s) = fst (render e key t)
    /\ R (snd (render e key s)) (snd (render e key t)).
Proof using R_same R_set_table R_marker R_push_footNote R_incr_matchCount R_add_log.
  induction e using elem_ind; intros key0 s0 t0 Hst; rewrite !render_eq; simpl.
  all: pose proof (R_same _ _ Hst) as Hsame.
  all: run_monad; simpl.
  all: try solve [split; [reflexivity | auto]].
  all: try match goal with
       | |- context [if ?b then _ else _] => destruct b
       end.
  all: try (replace (table t0) with (table s0) by same_log; destruct (table s0)).
  all: try match goal with
       | IHc : Forall _ ?c |- context [renderAll ?c ?s] =>
           match goal with
           | |- context [fst (let (_, _) := renderAll c ?t in _) = fst (let (_, _) := renderAll c ?u in _)] =>
               let W := fresh "W" in
               assert (W : R t u) by auto;
               apply (blind_renderAll_from c IHc 0) in W;
               unfold renderAll; destruct (renderAll_from c 0 t), (renderAll_from c 0 u);
               simpl in *; destruct W as [-> W]; split; [reflexivity | exact W]
           end
       end.
  all: split; [replace (refs t0) with (refs s0) by same_log; reflexivity | auto].
Qed.

Lemma blind_renderAll (elems : list RenderTreeElem) (idx : nat) (s t : Session) :
  R s t ->
  fst (renderAll_from elems idx s) = fst (renderAll_from elems idx t)
  /\ R (snd (renderAll_from elems idx s)) (snd (renderAll_from elems idx t)).
Proof using R_same R_set_table R_marker R_push_footNote R_incr_matchCount R_add_log.
  apply blind_renderAll_from. apply Forall_forall. intros e _. apply blind_render.
Qed.

Lemma blind_fence_continue lang c key (s t : Session) :
  R s t ->
  fst (fence_continue lang c key s) = fst (fence_continue lang c key t)
  /\ R (snd (fence_continue lang c key s)) (snd (fence_continue lang c key t)).
Proof using R_same R_set_table R_marker R_push_footNote R_incr_matchCount R_add_log.
  intros Hst. pose proof (R_same _ _ Hst) as Hsame. unfold fence_continue.
  destruct (fence_render (Code lang c) key) as [[node modified]|].
  - destruct modified; simpl; run_monad; simpl.
    + split; [replace (refs t) with (refs s) by same_log; reflexivity | auto].
    + split; [reflexivity | exact Hst].
  - run_monad. destruct (blind_renderAll c 0 s t Hst) as [Hp Hs]. unfold renderAll.
    destruct (renderAll_from c 0 s), (renderAll_from c 0 t). simpl in *.
    subst. split; [reflexivity | exact Hs].
Qed.

Lemma blind_stepAll_aux (ps : list Promise) :
  Forall (fun p => forall n s t, R s t ->
            fst (step n p s) = fst (step n p t)
            /\ R (snd (step n p s)) (snd (step n p t))) ps ->
  forall n s t, R s t ->
    fst (stepAll n ps s) = fst (stepAll n ps t)
    /\ R (snd (stepAll n ps s)) (snd (stepAll n ps t)).
Proof using Type.
  induction 1 as [|q qs Hq _ IH]; intros n s t Hst; simpl.
  - split; [reflexivity | exact Hst].
  - destruct (n <? pending q); run_monad.
    + destruct (Hq n s t Hst) as [Hp Hs].
      destruct (step n q s), (step n q t). simpl in *. subst.
      split; [reflexivity | exact Hs].
    + destruct (IH (n - pending q) s t Hst) as [Hp Hs].
      destruct (stepAll (n - pending q) qs s), (stepAll (n - pending q) qs t).
      simpl in *. subst. split; [reflexivity | exact Hs].
Qed.

Lemma blind_step (p : Promise) :
  forall n s t, R s t ->
    fst (step n p s) = fst (step n p t) /\ R (snd (step n p s)) (snd (step n p t)).
Proof using R_same R_set_table R_marker R_push_footNote R_incr_matchCount R_add_log.
  induction p as [n|cs k IHcs|lang c key|expr className key] using promise_ind';
    intros m s t Hst; rewrite !step_eq; simpl.
  - split; [reflexivity | exact Hst].
  - run_monad. destruct (blind_stepAll_aux cs IHcs m s t Hst) as [Hp Hs].
    destruct (stepAll m cs s), (stepAll m cs t). simpl in *. subst.
    split; [reflexivity | exact Hs].
  - now apply blind_fence_continue.
  - split; [reflexivity | exact Hst].
Qed.

Lemma blind_settle (turns : nat) :
  forall sched ps s t, R s t ->
    fst (settle turns sched ps s) = fst (settle turns sched ps t)
    /\ R (snd (settle turns sched ps s)) (snd (settle turns sched ps t)).
Proof using R_same R_set_table R_marker R_push_footNote R_incr_matchCount R_add_log.
  induction turns as [|turns IH]; intros sched ps s t Hst; simpl.
  - split; [reflexivity | exact Hst].
  - destruct (pendingAll ps) as [|m]; [split; [reflexivity | exact Hst]|].
    run_monad.
    assert (W : fst (stepAll (sched 0 mod S m) ps s) = fst (stepAll (sched 0 mod S m) ps t)
                /\ R (snd (stepAll (sched 0 mod S m) ps s))
                     (snd (stepAll (sched 0 mod S m) ps t))).
    { apply blind_stepAll_aux; [|exact Hst].
      apply Forall_forall. intros p _. apply blind_step. }
    destruct (stepAll (sched 0 mod S m) ps s) as [ps1 s1].
    destruct (stepAll (sched 0 mod S m) ps t) as [ps2 t1].
    simpl in W. destruct W as [-> W]. apply IH. exact W.
Qed.

Lemma blind_await_all sched ps (s t : Session) :
  R s t ->
  fst (await_all sched ps s) = fst (await_all sched ps t)
  /\ R (snd (await_all sched ps s)) (snd (await_all sched ps t)).
Proof using R_same R_set_table R_marker R_push_footNote R_incr_matchCount R_add_log.
  apply blind_settle.
Qed.

Lemma blind_footnote_bodies (defs : list RenderTreeFootNoteDef) :
  forall s t, R s t ->
    fst (footnote_bodies defs s) = fst (footnote_bodies defs t)
    /\ R (snd (footnote_bodies defs s)) (snd (footnote_bodies defs t)).
Proof using R_same R_set_table R_marker R_push_footNote R_incr_matchCount R_add_log.
  induction defs as [|def defs IH]; intros s t Hst; simpl.
  - split; [reflexivity | exact Hst].
  - run_monad. destruct (blind_renderAll (fn_c def) 0 s t Hst) as [Hp Hs]. unfold renderAll.
    destruct (renderAll_from (fn_c def) 0 s) as [cs s1].
    destruct (renderAll_from (fn_c def) 0 t) as [cs' t1]. simpl in Hp, Hs. subst cs'.
    destruct (IH s1 t1 Hs) as [Hq Hs2].
    destruct (footnote_bodies defs s1) as [ps s2].
    destruct (footnote_bodies defs t1) as [ps' t2]. simpl in *. subst ps'.
    split; [reflexivity | exact Hs2].
Qed.

Lemma blind_renderFootnotes (sched : Schedule) (s t : Session) :
  R s t ->
  fst (renderFootnotes sched s) = fst (renderFootnotes sched t)
  /\ R (snd (renderFootnotes sched s)) (snd (renderFootnotes sched t)).
Proof using R_same R_set_table R_marker R_push_footNote R_incr_matchCount R_add_log.
  intros Hst. pose proof (R_same _ _ Hst) as Hsame. unfold renderFootnotes. run_monad.
  replace (footNotes t) with (footNotes s) by same_log.
  destruct (footNotes s) as [|def defs]; [split; [reflexivity | exact Hst]|].
  destruct (blind_footnote_bodies (def :: defs) _ _
              (R_add_log (LogDebug "Rendering footnotes" (map footnote_log (def :: defs)))
                 _ _ Hst)) as [Hp Hs].
  destruct (footnote_bodies (def :: defs) (add_log _ s)) as [bodies s1].
  destruct (footnote_bodies (def :: defs) (add_log _ t)) as [bodies0 t1].
  simpl in Hp, Hs. subst bodies0.
  destruct (blind_await_all sched bodies s1 t1 Hs) as [Hq Hs2].
  destruct (await_all sched bodies s1) as [bodies' s2].
  destruct (await_all sched bodies t1) as [bodies0 t2]. simpl in Hq, Hs2. subst bodies0.
  destruct (footnote_items 0 (def :: defs) bodies'); split; try reflexivity; exact Hs2.
Qed.

Lemma blind_run (tree : list RenderTreeElem) (sched sched_fn : Schedule) (s t : Session) :
  R s t ->
  fst (run tree sched sched_fn s) = fst (run tree sched sched_fn t)
  /\ R (snd (run tree sched sched_fn s)) (snd (run tree sched sched_fn t)).
Proof using R_same R_set_table R_marker R_push_footNote R_incr_matchCount R_add_log.
  intros Hst. unfold run. run_monad.
  destruct (blind_renderAll tree 0 _ _
              (R_add_log (LogDebug "Rendering preview tree" tree) _ _ Hst)) as [Hp Hs].
  unfold renderAll.
  destruct (renderAll_from tree 0 (add_log _ s)) as [ps s1].
  destruct (renderAll_from tree 0 (add_log _ t)) as [ps0 t1]. simpl in Hp, Hs. subst ps0.
  destruct (blind_await_all sched ps s1 t1 Hs) as [Hq Hs2].
  destruct (await_all sched ps s1) as [ps' s2].
  destruct (await_all sched ps t1) as [ps0 t2]. simpl in Hq, Hs2. subst ps0.
  destruct (values ps') as [blocks|]; [|split; [reflexivity | exact Hs2]].
  destruct (blind_renderFootnotes sched_fn s2 t2 Hs2) as [Hf Hs3].
  pose proof (R_same _ _ Hs3) as Hsame.
  destruct (renderFootnotes sched_fn s2) as [footer s3].
  destruct (renderFootnotes sched_fn t2) as [footer0 t3]. simpl in Hf, Hs3, Hsame.
  subst footer0.
  destruct footer as [|footer|err]; simpl; try (split; [reflexivity | exact Hs3]).
  split; [|exact Hs3].
  replace (lastModifiedRef t3) with (lastModifiedRef s3) by same_log.
  replace (matchCount t3) with (matchCount s3) by same_log. reflexivity.
Qed.

End Blind.

(** The relation between a session in which a run of lines was logged
    and one in which it was not is kept by every write. *)
Section LogApart.

Variables pre pre' : list LogEntry.

Lemma log_apart_same (s t : Session) : log_apart pre pre' s t -> same_but_log s t.
Proof. intros [H _]. exact H. Qed.

Lemma log_apart_set_table st (s t : Session) :
  log_apart pre pre' s t -> log_apart pre pre' (set_table (Some st) s) (set_table (Some st) t).
Proof. intros [H [rest Hl]]. split; [same_log | exists rest; exact Hl]. Qed.

Lemma log_apart_marker (s t : Session) :
  log_apart pre pre' s t ->
  log_apart pre pre' (set_lastModifiedRef (refs s) (new_ref s))
            (set_lastModifiedRef (refs t) (new_ref t)).
Proof. intros [H [rest Hl]]. split; [same_log | exists rest; exact Hl]. Qed.

Lemma log_apart_push_footNote d (s t : Session) :
  log_apart pre pre' s t -> log_apart pre pre' (push_footNote d s) (push_footNote d t).
Proof. intros [H [rest Hl]]. split; [same_log | exists rest; exact Hl]. Qed.

Lemma log_apart_incr_matchCount (s t : Session) :
  log_apart pre pre' s t -> log_apart pre pre' (incr_matchCount s) (incr_matchCount t).
Proof. intros [H [rest Hl]]. split; [same_log | exists rest; exact Hl]. Qed.

Lemma log_apart_add_log e (s t : Session) :
  log_apart pre pre' s t -> log_apart pre pre' (add_log e s) (add_log e t).
Proof.
  intros [H [rest [Hs Ht]]]. split; [same_log|]. exists (rest ++ [e]). simpl.
  rewrite Hs, Ht, !app_assoc. split; reflexivity.
Qed.

End LogApart.

Lemma render_Unknown t c key s :
  render (Unknown t c) key s =
  (Resolved RNull, add_log (LogError "Unknown render tree element:" (Unknown t c)) s).
Proof. rewrite render_eq. reflexivity. Qed.

Lemma unknown_among_siblings t c before after idx s :
  fst (renderAll_from (before ++ Unknown t c :: after) idx s)
  = fst (renderAll_from before idx s)
    ++ Resolved RNull
       :: fst (renderAll_from after (S (idx + List.length before))
                 (snd (renderAll_from before idx s)))
  /\ log_apart
       (log (snd (renderAll_from before idx s))
        ++ [LogError "Unknown render tree element:" (Unknown t c)])
       (log (snd (renderAll_from before idx s)))
       (snd (renderAll_from (before ++ Unknown t c :: after) idx s))
       (snd (renderAll_from after (S (idx + List.length before))
               (snd (renderAll_from before idx s)))).
Proof.
  rewrite renderAll_from_app.
  destruct (renderAll_from before idx s) as [ps1 s1]. simpl fst. simpl snd.
  cbn [renderAll_from]. run_monad.
  set (line := LogError "Unknown render tree element:" (Unknown t c)).
  assert (H0 : log_apart (log s1 ++ [line]) (log s1) (add_log line s1) s1).
  { split; [apply same_but_log_add_log|]. exists []. simpl. now rewrite !app_nil_r. }
  pose proof (blind_renderAll (log_apart (log s1 ++ [line]) (log s1))
                (log_apart_same _ _) (log_apart_set_table _ _) (log_apart_marker _ _)
                (log_apart_push_footNote _ _) (log_apart_incr_matchCount _ _)
                (log_apart_add_log _ _)
                after (S (idx + List.length before)) (add_log line s1) s1 H0) as [Hp Hs].
  fold line.
  destruct (renderAll_from after (S (idx + List.length before)) (add_log line s1)) as [ps2 s2].
  destruct (renderAll_from after (S (idx + List.length before)) s1) as [ps2' s2'].
  simpl in *. subst. split; [reflexivity | exact Hs].
Qed.

(** What the log of a session holds stays in it. *)
Lemma reach_log (s s' : Session) : reach s s' -> exists post, log s' = log s ++ post.
Proof.
  induction 1 as [s|s s' st _ [post IH]|s s' _ [post IH]|s s' r _ [post IH]
                  |s s' d _ [post IH]|s s' _ [post IH]|s s' e _ [post IH]];
    try (exists post; exact IH).
  - exists []. now rewrite app_nil_r.
  - exists (post ++ [e]). simpl. rewrite IH. now rewrite app_assoc.
Qed.

Lemma rendering_of_Unknown t c (i : nat) (out : ReactNode) :
  rendering_of (Unknown t c) i out -> out = RNull.
Proof.
  intros [s0 [p' [E Hv]]]. rewrite render_eq in E. simpl in E.
  apply evolves_Resolved in E. subst p'. simpl in Hv. now injection Hv as <-.
Qed.

(** *** The match counter and the footnote collector *)

Lemma starts_eq (e : RenderTreeElem) (key : option nat) :
  starts e key = starts_body (fun c => startsAll c 0) e key.
Proof. destruct e; reflexivity. Qed.

Lemma collects_eq (e : RenderTreeElem) (key : option nat) :
  collects e key = collects_body (fun c => collectsAll c 0) e key.
Proof. destruct e; reflexivity. Qed.

Lemma total_app (w : RenderTreeFootNoteDef -> nat) (l1 l2 : list RenderTreeFootNoteDef) :
  total w (l1 ++ l2) = total w l1 + total w l2.
Proof. unfold total. now rewrite map_app, list_sum_app. Qed.

Section Accounts.

Variable w : RenderTreeFootNoteDef -> nat.

Local Abbreviation defs_balance := (defs_balance w).

Lemma balance_renderAll_from (elems : list RenderTreeElem) :
  Forall (fun e => forall key s,
            starts_balance (snd (render e key s)) (owed_starts (fst (render e key s)))
            = starts_balance s (starts e key)
            /\ defs_balance (snd (render e key s)) (owed_defs (fst (render e key s)))
               = defs_balance s (collects e key)) elems ->
  forall idx s,
    starts_balance (snd (renderAll_from elems idx s))
                   (owed_startsAll (fst (renderAll_from elems idx s)))
    = starts_balance s (startsAll elems idx)
    /\ defs_balance (snd (renderAll_from elems idx s))
                    (owed_defsAll (fst (renderAll_from elems idx s)))
       = defs_balance s (collectsAll elems idx).
Proof.
  unfold starts_balance, defs_balance, owed_startsAll, owed_defsAll.
  induction 1 as [|e es He _ IH]; intros idx s; simpl.
  - split; reflexivity.
  - run_monad. destruct (He (Some idx) s) as [Hs Hd].
    destruct (render e (Some idx) s) as [p s1].
    destruct (IH (S idx) s1) as [Hs' Hd'].
    destruct (renderAll_from es (S idx) s1) as [ps s2]. simpl in *.
    rewrite !total_app in *. split; lia.
Qed.

Lemma balance_render (e : RenderTreeElem) :
  forall key s,
    starts_balance (snd (render e key s)) (owed_starts (fst (render e key s)))
    = starts_balance s (starts e key)
    /\ defs_balance (snd (render e key s)) (owed_defs (fst (render e key s)))
       = defs_balance s (collects e key).
Proof.
  induction e using elem_ind; intros key0 s0;
    rewrite render_eq, starts_eq, collects_eq; simpl.
  all: run_monad; simpl.
  all: try match goal with
       | |- context [if ?b then _ else _] => destruct b
       end.
  all: try match goal with
       | |- context [table ?s] => destruct (table s)
       end.
  all: try match goal with
       | IHc : Forall _ ?c |- context [renderAll ?c ?s] =>
           let W := fresh "W" in
           pose proof (balance_renderAll_from c IHc 0 s) as W;
           unfold renderAll; destruct (renderAll_from c 0 s);
           unfold starts_balance, defs_balance, owed_startsAll, owed_defsAll in *;
           simpl in *; destruct W as [W1 W2]; split; lia
       end.
  all: unfold starts_balance, defs_balance; simpl; rewrite ?total_app; simpl;
       try rewrite starts_eq; try rewrite collects_eq; simpl; split; try lia.
  all: try reflexivity.
  all: unfold total; simpl; lia.
Qed.

Lemma balance_renderAll (elems : list RenderTreeElem) (s : Session) :
  starts_balance (snd (renderAll elems s)) (owed_startsAll (fst (renderAll elems s)))
  = starts_balance s (startsAll elems 0)
  /\ defs_balance (snd (renderAll elems s)) (owed_defsAll (fst (renderAll elems s)))
     = defs_balance s (collectsAll elems 0).
Proof.
  apply balance_renderAll_from. apply Forall_forall. intros e _. apply balance_render.
Qed.

Lemma balance_fence_continue lang c key s :
  starts_balance (snd (fence_continue lang c key s))
                 (owed_starts (fst (fence_continue lang c key s)))
  = starts_balance s (starts (Code lang c) key)
  /\ defs_balance (snd (fence_continue lang c key s))
                  (owed_defs (fst (fence_continue lang c key s)))
     = defs_balance s (collects (Code lang c) key).
Proof.
  rewrite starts_eq, collects_eq. unfold fence_continue. simpl.
  destruct (fence_render (Code lang c) key) as [[node modified]|].
  - destruct modified; simpl; run_monad; simpl; split; reflexivity.
  - run_monad. pose proof (balance_renderAll c s) as W.
    destruct (renderAll c s). exact W.
Qed.

Lemma balance_stepAll_aux (ps : list Promise) :
  Forall (fun p => forall n s,
            starts_balance (snd (step n p s)) (owed_starts (fst (step n p s)))
            = starts_balance s (owed_starts p)
            /\ defs_balance (snd (step n p s)) (owed_defs (fst (step n p s)))
               = defs_balance s (owed_defs p)) ps ->
  forall n s,
    starts_balance (snd (stepAll n ps s)) (owed_startsAll (fst (stepAll n ps s)))
    = starts_balance s (owed_startsAll ps)
    /\ defs_balance (snd (stepAll n ps s)) (owed_defsAll (fst (stepAll n ps s)))
       = defs_balance s (owed_defsAll ps).
Proof.
  unfold starts_balance, defs_balance, owed_startsAll, owed_defsAll.
  induction 1 as [|q qs Hq _ IH]; intros n s; simpl.
  - split; reflexivity.
  - destruct (n <? pending q); run_monad.
    + destruct (Hq n s) as [Hs Hd]. destruct (step n q s) as [q' s']. simpl in *.
      rewrite !total_app in *. split; lia.
    + destruct (IH (n - pending q) s) as [Hs Hd].
      destruct (stepAll (n - pending q) qs s) as [qs' s']. simpl in *.
      rewrite !total_app in *. split; lia.
Qed.

Lemma balance_step (p : Promise) :
  forall n s,
    starts_balance (snd (step n p s)) (owed_starts (fst (step n p s)))
    = starts_balance s (owed_starts p)
    /\ defs_balance (snd (step n p s)) (owed_defs (fst (step n p s)))
       = defs_balance s (owed_defs p).
Proof.
  induction p as [v|cs k IHcs|lang c key|expr className key] using promise_ind';
    intros m s; rewrite step_eq.
  - split; reflexivity.
  - run_monad. pose proof (balance_stepAll_aux cs IHcs m s) as W.
    destruct (stepAll m cs s). exact W.
  - apply balance_fence_continue.
  - split; reflexivity.
Qed.

Lemma balance_stepAll (ps : list Promise) n s :
  starts_balance (snd (stepAll n ps s)) (owed_startsAll (fst (stepAll n ps s)))
  = starts_balance s (owed_startsAll ps)
  /\ defs_balance (snd (stepAll n ps s)) (owed_defsAll (fst (stepAll n ps s)))
     = defs_balance s (owed_defsAll ps).
Proof.
  apply balance_stepAll_aux. apply Forall_forall. intros p _. apply balance_step.
Qed.

Lemma balance_settle (turns : nat) :
  forall sched ps s,
    starts_balance (snd (settle turns sched ps s))
                   (owed_startsAll (fst (settle turns sched ps s)))
    = starts_balance s (owed_startsAll ps)
    /\ defs_balance (snd (settle turns sched ps s))
                    (owed_defsAll (fst (settle turns sched ps s)))
       = defs_balance s (owed_defsAll ps).
Proof.
  induction turns as [|turns IH]; intros sched ps s; simpl.
  - split; reflexivity.
  - destruct (pendingAll ps) as [|m]; [split; reflexivity|].
    run_monad. destruct (balance_stepAll ps (sched 0 mod S m) s) as [Hs Hd].
    destruct (stepAll (sched 0 mod S m) ps s) as [ps' s'].
    destruct (IH (later sched) ps' s') as [Hs' Hd']. simpl in *.
    split; congruence.
Qed.

Lemma nothing_owed (p : Promise) :
  pending p = 0 -> owed_starts p = 0 /\ owed_defs p = [].
Proof.
  induction p as [v|cs k IHcs|lang c key|expr className key] using promise_ind'; simpl; intros Hp.
  - split; reflexivity.
  - induction IHcs as [|q qs Hq _ IH]; simpl in *.
    + split; reflexivity.
    + destruct Hq as [-> ->]; [lia|]. destruct IH as [-> ->]; [lia|]. split; reflexivity.
  - discriminate.
  - discriminate.
Qed.

Lemma nothing_owedAll (ps : list Promise) :
  pendingAll ps = 0 -> owed_startsAll ps = 0 /\ owed_defsAll ps = [].
Proof.
  unfold pendingAll, owed_startsAll, owed_defsAll.
  induction ps as [|q qs IH]; simpl; intros Hp.
  - split; reflexivity.
  - destruct (nothing_owed q) as [-> ->]; [lia|].
    destruct IH as [-> ->]; [lia|]. split; reflexivity.
Qed.

(** After [await Promise.all], the count and the collector hold what the
    promises owed. *)
Lemma balance_await_all sched ps s :
  matchCount (snd (await_all sched ps s)) = matchCount s + owed_startsAll ps
  /\ total w (footNotes (snd (await_all sched ps s)))
     = total w (footNotes s) + total w (owed_defsAll ps).
Proof.
  destruct (balance_settle (workAll ps) sched ps s) as [Hs Hd].
  fold (await_all sched ps s) in Hs, Hd.
  destruct (nothing_owedAll _ (await_all_settles sched ps s)) as [Hs0 Hd0].
  unfold starts_balance, defs_balance in *. rewrite Hs0 in Hs. rewrite Hd0 in Hd.
  unfold total in *. simpl in *. split; lia.
Qed.

End Accounts.

Lemma footnote_bodies_balance (defs : list RenderTreeFootNoteDef) :
  forall s,
    matchCount (snd (footnote_bodies defs s))
    + owed_startsAll (fst (footnote_bodies defs s))
    = matchCount s + total body_starts defs.
Proof.
  unfold owed_startsAll, total, body_starts.
  induction defs as [|d defs IH]; intros s; simpl.
  - lia.
  - run_monad. destruct (balance_renderAll (fun _ => 0) (fn_c d) s) as [Hs _].
    destruct (renderAll (fn_c d) s) as [cs s1]. specialize (IH s1).
    destruct (footnote_bodies defs s1) as [ps s2].
    unfold starts_balance, owed_startsAll in *. simpl in *. lia.
Qed.

Lemma renderFootnotes_matchCount (sched : Schedule) (s : Session) :
  matchCount (snd (renderFootnotes sched s)) = matchCount s + total body_starts (footNotes s).
Proof.
  unfold renderFootnotes. run_monad.
  destruct (footNotes s) as [|d defs] eqn:Hdefs.
  - unfold total. simpl. lia.
  - pose proof (footnote_bodies_balance (d :: defs)
                  (add_log (LogDebug "Rendering footnotes" (map footnote_log (d :: defs))) s))
      as Hb.
    destruct (footnote_bodies (d :: defs) _) as [bodies s1].
    destruct (balance_await_all (fun _ => 0) sched bodies s1) as [Hs _].
    destruct (await_all sched bodies s1) as [bodies' s2].
    simpl in Hb, Hs.
    destruct (footnote_items 0 (d :: defs) bodies'); simpl; lia.
Qed.

Lemma run_settles (tree : list RenderTreeElem) (sched sched_fn : Schedule) (s : Session) :
  exists blocks,
    values (fst (await_all sched (fst (renderAll tree (add_log (LogDebug "Rendering preview tree" tree) s)))
                   (snd (renderAll tree (add_log (LogDebug "Rendering preview tree" tree) s)))))
    = Some blocks.
Proof. apply values_of_settled. apply await_all_settles. Qed.

Lemma run_matchCount (tree : list RenderTreeElem) (sched sched_fn : Schedule) :
  matchCount (snd (run tree sched sched_fn new_session)) = encountered_starts tree
  /\ forall t, fst (run tree sched sched_fn new_session) = Fulfilled t ->
               tree_matchCount t = encountered_starts tree.
Proof.
  unfold run. run_monad.
  destruct (run_settles tree sched sched_fn new_session) as [blocks Hblocks].
  set (s0 := add_log (LogDebug "Rendering preview tree" tree) new_session) in *.
  destruct (balance_renderAll body_starts tree s0) as [Hs1 Hd1].
  destruct (renderAll tree s0) as [ps s1]. simpl in Hblocks, Hs1, Hd1.
  destruct (balance_await_all body_starts sched ps s1) as [Hs2 Hd2].
  destruct (await_all sched ps s1) as [ps' s2]. simpl in Hblocks, Hs2, Hd2.
  rewrite Hblocks.
  pose proof (renderFootnotes_matchCount sched_fn s2) as Hf.
  assert (Hcount : matchCount (snd (renderFootnotes sched_fn s2)) = encountered_starts tree).
  { unfold encountered_starts, starts_balance, defs_balance in *.
    simpl in *. unfold total in *. simpl in *. lia. }
  destruct (renderFootnotes sched_fn s2) as [[|footNotes|err] s3]; simpl in *.
  - split; [exact Hcount | discriminate].
  - split; [exact Hcount|]. intros t Ht. injection Ht as <-. exact Hcount.
  - split; [exact Hcount | discriminate].
Qed.

(** C4: whatever the order of completions, the match count of the
    session at the end of a pass, which is the count the result carries,
    is the number of match-start and match-current-start nodes the pass
    visits, in the tree and in the bodies of the footnote definitions it
    collects.  A match or match-current node adds nothing of its own: it
    renders its children from the session as it found it.  The siblings
    [match-start, match, match-current-start, match] over plain text give
    the count 2. *)
Theorem C4_match_count (tree : list RenderTreeElem) (sched sched_fn : Schedule) :
  matchCount (snd (ReactMarkdownRenderer_render tree sched sched_fn))
  = encountered_starts tree
  /\ (forall t, fst (ReactMarkdownRenderer_render tree sched sched_fn) = Fulfilled t ->
                tree_matchCount t = encountered_starts tree)
  /\ (forall c key s,
        render (Match c) key s =
        (let (cs, s') := renderAll c s in
         (AwaitAll cs (jsx (Tag "span") key [("className", PStr "search-text")]), s'))
        /\ render (MatchCurrent c) key s =
           (let (cs, s') := renderAll c s in
            (AwaitAll cs (jsx (Tag "span") key [("className", PStr "search-text-current")]),
             s')))
  /\ (forall c key,
        starts (Match c) key = startsAll c 0
        /\ starts (MatchCurrent c) key = startsAll c 0
        /\ starts (MatchStart c) key = S (startsAll c 0)
        /\ starts (MatchCurrentStart c) key = S (startsAll c 0))
  /\ (forall a b c d : string,
        exists t,
          fst (ReactMarkdownRenderer_render
                 (four_matches [Text a] [Text b] [Text c] [Text d]) sched sched_fn)
          = Fulfilled t
          /\ tree_matchCount t = 2).
Proof.
  split; [apply run_matchCount|].
  split; [apply run_matchCount|].
  split. { intros c key s. rewrite !render_eq. split; reflexivity. }
  split. { intros c key. rewrite !starts_eq. repeat split. }
  intros a b c d. eexists. split; reflexivity.
Qed.

(** *** The footnote section *)

Lemma settled_renderings (elems : list RenderTreeElem) (s : Session)
    (ps' : list Promise) (outs : list ReactNode) :
  Forall2 evolves (fst (renderAll elems s)) ps' ->
  values ps' = Some outs ->
  renderings_of elems outs.
Proof.
  intros Hev Houts. split.
  - rewrite (values_length _ _ Houts), <- (Forall2_length Hev).
    apply renderAll_from_length.
  - intros i e Hi.
    destruct (renderAll_from_nth elems 0 s i e Hi) as [s_i Hp].
    fold (renderAll elems s) in Hp. simpl in Hp.
    destruct (Forall2_nth_error _ _ _ Hev i _ Hp) as [p' [Hp' Hevp]].
    destruct (Forall2_nth_error _ _ _ (values_Forall2 _ _ Houts) i _ Hp')
      as [out [Hout Hval]].
    exists out. split; [exact Hout|]. exists s_i, p'. split; assumption.
Qed.

Lemma push_backref_placed (children : list ReactNode) (link : ReactNode)
    (children' : list ReactNode) :
  push_backref children link = Fulfilled children' ->
  backref_placed children link children'.
Proof.
  unfold push_backref, lastElementOf, backref_placed.
  destruct (rev children) as [|last front] eqn:Hrev.
  - assert (Hc : children = []).
    { rewrite <- (rev_involutive children), Hrev. reflexivity. }
    intros E. injection E as <-. right. right. split; [|reflexivity].
    intros front type key props target Hf. rewrite Hc in Hf.
    destruct front; discriminate.
  - assert (Hc : children = rev front ++ [last]).
    { rewrite <- (rev_involutive children), Hrev. reflexivity. }
    assert (Hlast : forall front' type key props target,
               children = front' ++ [RElement type key props (Some target)] ->
               last = RElement type key props (Some target)).
    { intros front' type key props target Hf. rewrite Hc in Hf.
      apply app_inj_tail in Hf. apply Hf. }
    destruct last as [| |items|items|type key props [target|]]; simpl;
      try (intros E; injection E as <-; right; right; split; [|reflexivity];
           intros front' type' key' props' target' Hf;
           specialize (Hlast _ _ _ _ _ Hf); discriminate).
    destruct target as [| |items|items|]; try discriminate.
    + intros E. injection E as <-. right. right. split; [|reflexivity].
      intros front' type' key' props' target' Hf.
      specialize (Hlast _ _ _ _ _ Hf). now injection Hlast as _ _ _ <-.
    + intros E. injection E as <-.
      left. exists (rev front), type, key, props, items.
      split; [exact Hc|]. rewrite Hc at 1. now rewrite removelast_last.
    + destruct development eqn:Hdev; [discriminate|].
      intros E. injection E as <-.
      right. left. exists (rev front), type, key, props, items.
      split; [reflexivity|].
      split; [exact Hc|]. rewrite Hc at 1. now rewrite removelast_last.
Qed.

Lemma footnote_item_body (idx : nat) (def : RenderTreeFootNoteDef)
    (children : list ReactNode) (item : ReactNode) :
  renderings_of (fn_c def) children ->
  footnote_item idx def children = Fulfilled item ->
  footnote_body idx def item.
Proof.
  unfold footnote_item. intros Hr.
  destruct (push_backref children (backref_link (fn_id def))) as [|children'|err] eqn:Hpush;
    try discriminate.
  intros E. injection E as <-.
  exists children, children'. split; [exact Hr|]. split; [|reflexivity].
  apply (push_backref_placed _ _ _ Hpush).
Qed.

Lemma footnote_bodies_shape (defs : list RenderTreeFootNoteDef) :
  forall s,
    Forall2 (fun def body => exists s_d, body = AwaitAll (fst (renderAll (fn_c def) s_d)) RArray)
            defs (fst (footnote_bodies defs s)).
Proof.
  induction defs as [|def defs IH]; intros s; simpl.
  - constructor.
  - run_monad. destruct (renderAll (fn_c def) s) as [cs s1] eqn:Hr.
    specialize (IH s1). destruct (footnote_bodies defs s1) as [ps s2]. simpl in *.
    constructor; [|exact IH]. exists s. now rewrite Hr.
Qed.

Lemma footnote_items_list (defs : list RenderTreeFootNoteDef) :
  forall idx bodies bodies' items,
    Forall2 (fun def body => exists s_d, body = AwaitAll (fst (renderAll (fn_c def) s_d)) RArray)
            defs bodies ->
    Forall2 evolves bodies bodies' ->
    footnote_items idx defs bodies' = Fulfilled items ->
    footnote_list idx defs items.
Proof.
  induction defs as [|def defs IH]; intros idx bodies bodies' items Hshape Hev Hitems.
  - simpl in Hitems. injection Hitems as <-. exact I.
  - inversion Hshape as [|? body ? bodies0 [s_d Hbody] Hshape']; subst.
    destruct (Forall2_evolves_cons_inv _ _ _ Hev) as [body' [rest [-> [Eb Hev']]]].
    destruct (evolves_AwaitAll _ _ _ Eb) as [cs' [-> Hcs]].
    cbn [footnote_items] in Hitems. rewrite value_eq in Hitems.
    destruct (values cs') as [children|] eqn:Hvals; simpl in Hitems; [|discriminate].
    destruct (footnote_item idx def children) as [|item|err] eqn:Hitem;
      destruct (footnote_items (S idx) defs rest) as [|items'|err'] eqn:Hrest;
      try discriminate.
    injection Hitems as <-. split.
    + eapply footnote_item_body; [|exact Hitem].
      eapply settled_renderings; eassumption.
    + eapply IH; eassumption.
Qed.

Lemma renderFootnotes_section (sched : Schedule) (s : Session) (node : ReactNode) :
  fst (renderFootnotes sched s) = Fulfilled node ->
  (footNotes s = [] /\ node = RNull)
  \/ (footNotes s <> [] /\
      exists items, node = footnote_section items /\ footnote_list 0 (footNotes s) items).
Proof.
  unfold renderFootnotes. run_monad.
  destruct (footNotes s) as [|def defs] eqn:Hdefs.
  - simpl. intros E. injection E as <-. left. split; reflexivity.
  - pose proof (footnote_bodies_shape (def :: defs)
                  (add_log (LogDebug "Rendering footnotes" (map footnote_log (def :: defs))) s))
      as Hshape.
    destruct (footnote_bodies (def :: defs) _) as [bodies s1].
    pose proof (settle_evolves (workAll bodies) sched bodies s1) as Hev.
    fold (await_all sched bodies s1) in Hev.
    destruct (await_all sched bodies s1) as [bodies' s2]. simpl in Hshape, Hev.
    destruct (footnote_items 0 (def :: defs) bodies') as [|items|err] eqn:Hitems;
      simpl; intros E; try discriminate.
    injection E as <-. right. split; [discriminate|].
    exists items. split; [reflexivity|].
    exact (footnote_items_list (def :: defs) 0 bodies bodies' items Hshape Hev Hitems).
Qed.

Lemma render_FnRef id key s :
  render (FnRef id) key s =
  (Resolved
     (RElement (Tag "sup") (idx_key key) []
        (Some (RElement (Tag "a") None
                 [("href", PStr ("#user-content-fn-" +++ id));
                  ("id", PStr ("user-content-fnref-" +++ id));
                  ("aria-describedby", PStr "footnote-label")]
                 (Some (RText id))))), s).
Proof. rewrite render_eq. reflexivity. Qed.

Lemma render_FnDef id c key s :
  render (FnDef id c) key s = (Resolved RNull, push_footNote {| fn_id := id; fn_c := c |} s).
Proof. rewrite render_eq. reflexivity. Qed.

Lemma push_backref_settled (children : list ReactNode) (link : ReactNode) :
  push_backref children link <> StillPending.
Proof.
  unfold push_backref.
  destruct (lastElementOf children) as [[| | | |type key props [[| | | |]|]]|];
    try discriminate.
  destruct development; discriminate.
Qed.

Lemma footnote_items_settled (defs : list RenderTreeFootNoteDef) :
  forall idx bodies bodies',
    Forall2 (fun def body => exists s_d, body = AwaitAll (fst (renderAll (fn_c def) s_d)) RArray)
            defs bodies ->
    Forall2 evolves bodies bodies' ->
    pendingAll bodies' = 0 ->
    footnote_items idx defs bodies' <> StillPending.
Proof.
  induction defs as [|def defs IH]; intros idx bodies bodies' Hshape Hev Hdone.
  - simpl. discriminate.
  - inversion Hshape as [|? body ? bodies0 [s_d Hbody] Hshape']; subst.
    destruct (Forall2_evolves_cons_inv _ _ _ Hev) as [body' [rest [-> [Eb Hev']]]].
    destruct (evolves_AwaitAll _ _ _ Eb) as [cs' [-> Hcs]].
    unfold pendingAll in Hdone. simpl in Hdone.
    assert (Hcs0 : pendingAll cs' = 0) by (unfold pendingAll; lia).
    assert (Hrest0 : pendingAll rest = 0) by (unfold pendingAll; lia).
    destruct (values_of_settled _ Hcs0) as [children Hvals].
    cbn [footnote_items]. rewrite value_eq, Hvals. simpl.
    specialize (IH (S idx) _ _ Hshape' Hev' Hrest0).
    pose proof (push_backref_settled children (backref_link (fn_id def))) as Hpush.
    unfold footnote_item.
    destruct (push_backref children (backref_link (fn_id def))); try contradiction;
      destruct (footnote_items (S idx) defs rest); try contradiction; discriminate.
Qed.

Lemma renderFootnotes_settles (sched : Schedule) (s : Session) :
  fst (renderFootnotes sched s) <> StillPending.
Proof.
  unfold renderFootnotes. run_monad.
  destruct (footNotes s) as [|def defs] eqn:Hdefs; [simpl; discriminate|].
  pose proof (footnote_bodies_shape (def :: defs)
                (add_log (LogDebug "Rendering footnotes" (map footnote_log (def :: defs))) s))
    as Hshape.
  destruct (footnote_bodies (def :: defs) _) as [bodies s1].
  pose proof (settle_evolves (workAll bodies) sched bodies s1) as Hev.
  pose proof (await_all_settles sched bodies s1) as Hdone.
  fold (await_all sched bodies s1) in Hev.
  destruct (await_all sched bodies s1) as [bodies' s2]. simpl in Hshape, Hev, Hdone.
  pose proof (footnote_items_settled (def :: defs) 0 bodies bodies' Hshape Hev Hdone) as Hitems.
  destruct (footnote_items 0 (def :: defs) bodies'); try contradiction; simpl; discriminate.
Qed.

(** Every pass comes to an end: the promise of [run] is fulfilled or rejected. *)
Lemma run_settled (tree : list RenderTreeElem) (sched sched_fn : Schedule) (s : Session) :
  fst (run tree sched sched_fn s) <> StillPending.
Proof.
  unfold run. run_monad.
  destruct (run_settles tree sched sched_fn s) as [blocks Hblocks].
  destruct (renderAll tree (add_log (LogDebug "Rendering preview tree" tree) s)) as [ps s1].
  simpl in Hblocks.
  destruct (await_all sched ps s1) as [ps' s2]. simpl in Hblocks. rewrite Hblocks.
  pose proof (renderFootnotes_settles sched_fn s2) as Hfn.
  destruct (renderFootnotes sched_fn s2) as [[|node|err] s3]; simpl in *;
    try contradiction; discriminate.
Qed.

(** The root of a fulfilled pass: the blocks of the main tree, position
    by position, then the footnote section, which holds one item for each
    definition the collector held when the main pass ended, in the
    collector's order, or nothing when it held none. *)
Lemma run_root (tree : list RenderTreeElem) (sched sched_fn : Schedule) (s : Session)
    (t : MarkdownReactTree) :
  fst (run tree sched sched_fn s) = Fulfilled t ->
  exists blocks footer collected,
    root t = RElement Fragment None [] (Some (RStaticArray [RArray blocks; footer]))
    /\ renderings_of tree blocks
    /\ ((collected = [] /\ footer = RNull)
        \/ (collected <> [] /\
            exists items, footer = footnote_section items /\ footnote_list 0 collected items)).
Proof.
  unfold run. run_monad.
  destruct (run_settles tree sched sched_fn s) as [blocks Hblocks].
  pose proof (settled_renderings tree (add_log (LogDebug "Rendering preview tree" tree) s))
    as Hrend.
  destruct (renderAll tree (add_log (LogDebug "Rendering preview tree" tree) s)) as [ps s1].
  simpl in Hblocks, Hrend.
  pose proof (settle_evolves (workAll ps) sched ps s1) as Hev.
  fold (await_all sched ps s1) in Hev.
  destruct (await_all sched ps s1) as [ps' s2]. simpl in Hblocks, Hev. rewrite Hblocks.
  pose proof (renderFootnotes_section sched_fn s2) as Hfn.
  destruct (renderFootnotes sched_fn s2) as [[|node|err] s3]; simpl in *; try discriminate.
  intros E. injection E as <-. simpl.
  exists blocks, node, (footNotes s2).
  split; [reflexivity|]. split; [exact (Hrend ps' blocks Hev Hblocks)|].
  exact (Hfn node eq_refl).
Qed.

(** A string renders to itself, in whatever session. *)
Lemma rendering_of_Text (s : string) (i : nat) (out : ReactNode) :
  rendering_of (Text s) i out -> out = RText s.
Proof.
  intros [s0 [p' [E Hv]]]. rewrite render_eq in E. simpl in E.
  apply evolves_Resolved in E. subst p'. simpl in Hv. now injection Hv as <-.
Qed.

(** ** Further properties of the asynchronous renderer *)

(** *** Invariants of the session

    A property of the session that each of the renderer's writes keeps
    is kept by every call, every completion and the footnote pass. *)
Section Invariant.

Variable Inv : Session -> Prop.
Hypothesis Inv_set_table : forall st s, Inv s -> Inv (set_table (Some st) s).
Hypothesis Inv_marker : forall s, Inv s -> Inv (set_lastModifiedRef (refs s) (new_ref s)).
Hypothesis Inv_push_footNote : forall d s, Inv s -> Inv (push_footNote d s).
Hypothesis Inv_incr_matchCount : forall s, Inv s -> Inv (incr_matchCount s).
Hypothesis Inv_add_log : forall e s, Inv s -> Inv (add_log e s).

Lemma invariant_renderAll_from (elems : list RenderTreeElem) :
  Forall (fun e => forall key s, Inv s -> Inv (snd (render e key s))) elems ->
  forall idx s, Inv s -> Inv (snd (renderAll_from elems idx s)).
Proof using Type.
  induction 1 as [|e es He _ IH]; intros idx s Hs; simpl.
  - exact Hs.
  - run_monad. specialize (He (Some idx) s Hs).
    destruct (render e (Some idx) s) as [p s1]. specialize (IH (S idx) s1 He).
    destruct (renderAll_from es (S idx) s1) as [ps s2]. exact IH.
Qed.

Ltac invariant_children :=
  match goal with
  | H : Forall _ ?c |- context [renderAll ?c ?s] =>
      let W := fresh "W" in
      pose proof (invariant_renderAll_from c H 0 s) as W; unfold renderAll;
      destruct (renderAll_from c 0 s); simpl in *;
      apply W; auto
  end.

Lemma invariant_render (e : RenderTreeElem) :
  forall key s, Inv s -> Inv (snd (render e key s)).
Proof using Inv_set_table Inv_marker Inv_push_footNote Inv_incr_matchCount Inv_add_log.
  induction e using elem_ind; intros key0 s0 Hs0; rewrite render_eq; simpl.
  all: run_monad; simpl.
  all: try match goal with
       | |- context [if ?b then _ else _] => destruct b
       end.
  all: try match goal with
       | |- context [table ?s] => destruct (table s)
       end.
  all: try solve [simpl; auto].
  all: invariant_children.
Qed.

Lemma invariant_renderAll (elems : list RenderTreeElem) (s : Session) :
  Inv s -> Inv (snd (renderAll elems s)).
Proof using Inv_set_table Inv_marker Inv_push_footNote Inv_incr_matchCount Inv_add_log.
  apply invariant_renderAll_from. apply Forall_forall. intros e _. apply invariant_render.
Qed.

Lemma invariant_fence_continue lang c key s :
  Inv s -> Inv (snd (fence_continue lang c key s)).
Proof using Inv_set_table Inv_marker Inv_push_footNote Inv_incr_matchCount Inv_add_log.
  intros Hs. unfold fence_continue.
  destruct (fence_render (Code lang c) key) as [[node modified]|].
  - destruct modified; simpl; run_monad; simpl; auto.
  - run_monad. pose proof (invariant_renderAll c s Hs) as W.
    destruct (renderAll c s). exact W.
Qed.

Lemma invariant_stepAll_aux (ps : list Promise) :
  Forall (fun p => forall n s, Inv s -> Inv (snd (step n p s))) ps ->
  forall n s, Inv s -> Inv (snd (stepAll n ps s)).
Proof using Type.
  induction 1 as [|q qs Hq _ IH]; intros n s Hs; simpl.
  - exact Hs.
  - destruct (n <? pending q); run_monad.
    + specialize (Hq n s Hs). destruct (step n q s). exact Hq.
    + specialize (IH (n - pending q) s Hs). destruct (stepAll (n - pending q) qs s). exact IH.
Qed.

Lemma invariant_step (p : Promise) : forall n s, Inv s -> Inv (snd (step n p s)).
Proof using Inv_set_table Inv_marker Inv_push_footNote Inv_incr_matchCount Inv_add_log.
  induction p as [n|cs k IHcs|lang c key|expr className key] using promise_ind';
    intros m s Hs; rewrite step_eq; simpl.
  - exact Hs.
  - run_monad. pose proof (invariant_stepAll_aux cs IHcs m s Hs) as W.
    destruct (stepAll m cs s). exact W.
  - now apply invariant_fence_continue.
  - exact Hs.
Qed.

Lemma invariant_settle (turns : nat) :
  forall sched ps s, Inv s -> Inv (snd (settle turns sched ps s)).
Proof using Inv_set_table Inv_marker Inv_push_footNote Inv_incr_matchCount Inv_add_log.
  induction turns as [|turns IH]; intros sched ps s Hs; simpl.
  - exact Hs.
  - destruct (pendingAll ps) as [|m]; [exact Hs|].
    run_monad.
    assert (W : Inv (snd (stepAll (sched 0 mod S m) ps s))).
    { apply invariant_stepAll_aux; [|exact Hs].
      apply Forall_forall. intros p _. apply invariant_step. }
    destruct (stepAll (sched 0 mod S m) ps s) as [ps' s'].
    apply IH. exact W.
Qed.

Lemma invariant_await_all sched ps s : Inv s -> Inv (snd (await_all sched ps s)).
Proof using Inv_set_table Inv_marker Inv_push_footNote Inv_incr_matchCount Inv_add_log.
  apply invariant_settle.
Qed.

Lemma invariant_footnote_bodies (defs : list RenderTreeFootNoteDef) :
  forall s, Inv s -> Inv (snd (footnote_bodies defs s)).
Proof using Inv_set_table Inv_marker Inv_push_footNote Inv_incr_matchCount Inv_add_log.
  induction defs as [|def defs IH]; intros s Hs; simpl.
  - exact Hs.
  - run_monad. pose proof (invariant_renderAll (fn_c def) s Hs) as W.
    destruct (renderAll (fn_c def) s) as [cs s1]. specialize (IH s1 W).
    destruct (footnote_bodies defs s1) as [ps s2]. exact IH.
Qed.

Lemma invariant_renderFootnotes (sched : Schedule) (s : Session) :
  Inv s -> Inv (snd (renderFootnotes sched s)).
Proof using Inv_set_table Inv_marker Inv_push_footNote Inv_incr_matchCount Inv_add_log.
  intros Hs. unfold renderFootnotes. run_monad.
  destruct (footNotes s) as [|def defs]; [exact Hs|].
  pose proof (invariant_footnote_bodies (def :: defs)
                (add_log (LogDebug "Rendering footnotes" (map footnote_log (def :: defs))) s)
                (Inv_add_log _ _ Hs))
    as W1.
  destruct (footnote_bodies (def :: defs) _) as [bodies s1].
  pose proof (invariant_await_all sched bodies s1 W1) as W2.
  destruct (await_all sched bodies s1) as [bodies' s2]. simpl in W1, W2.
  destruct (footnote_items 0 (def :: defs) bodies'); exact W2.
Qed.

Lemma invariant_run (tree : list RenderTreeElem) (sched sched_fn : Schedule) (s : Session) :
  Inv s -> Inv (snd (run tree sched sched_fn s)).
Proof using Inv_set_table Inv_marker Inv_push_footNote Inv_incr_matchCount Inv_add_log.
  intros Hs. unfold run. run_monad.
  pose proof (invariant_renderAll tree _ (Inv_add_log (LogDebug "Rendering preview tree" tree) _ Hs))
    as W1.
  destruct (renderAll tree _) as [ps s1].
  pose proof (invariant_await_all sched ps s1 W1) as W2.
  destruct (await_all sched ps s1) as [ps' s2]. simpl in W1, W2.
  destruct (values ps') as [blocks|]; [|exact W2].
  pose proof (invariant_renderFootnotes sched_fn s2 W2) as W3.
  destruct (renderFootnotes sched_fn s2) as [[|footer|err] s3]; exact W3.
Qed.

End Invariant.

(** *** The last-modified handle *)

(** X5: the handle of the result is the ref created last in the pass, and
    it is [null] exactly when the pass created no marker. *)
Theorem lastModified_is_newest_marker (tree : list RenderTreeElem)
    (sched sched_fn : Schedule) :
  let result := ReactMarkdownRenderer_render tree sched sched_fn in
  lastModifiedRef (snd result) = newest_ref (snd result)
  /\ (forall t, fst result = Fulfilled t -> tree_lastModified t = newest_ref (snd result))
  /\ (forall e key s, lastModifiedRef s = newest_ref s ->
        lastModifiedRef (snd (render e key s)) = newest_ref (snd (render e key s)))
  /\ (forall sched' ps s, lastModifiedRef s = newest_ref s ->
        lastModifiedRef (snd (await_all sched' ps s))
        = newest_ref (snd (await_all sched' ps s))).
Proof.
  set (Inv := fun s : Session => lastModifiedRef s = newest_ref s).
  assert (I1 : forall st s, Inv s -> Inv (set_table (Some st) s)) by (intros; assumption).
  assert (I2 : forall s, Inv s -> Inv (set_lastModifiedRef (refs s) (new_ref s)))
    by (intros; reflexivity).
  assert (I3 : forall d s, Inv s -> Inv (push_footNote d s)) by (intros; assumption).
  assert (I4 : forall s, Inv s -> Inv (incr_matchCount s)) by (intros; assumption).
  assert (I5 : forall e s, Inv s -> Inv (add_log e s)) by (intros; assumption).
  assert (Hrun : Inv (snd (run tree sched sched_fn new_session))).
  { apply (invariant_run Inv I1 I2 I3 I4 I5). reflexivity. }
  cbv zeta. unfold ReactMarkdownRenderer_render. repeat split.
  - exact Hrun.
  - intros t Ht. rewrite <- Hrun. revert Ht. clear.
    unfold run. run_monad.
    destruct (renderAll tree _) as [ps s1].
    destruct (await_all sched ps s1) as [ps' s2].
    destruct (values ps') as [blocks|]; [|discriminate].
    destruct (renderFootnotes sched_fn s2) as [[|footer|err] s3]; simpl; try discriminate.
    intros E. injection E as <-. reflexivity.
  - intros e key s. apply (invariant_render Inv I1 I2 I3 I4 I5).
  - intros sched' ps s. apply (invariant_await_all Inv I1 I2 I3 I4 I5).
Qed.

(** *** The session only grows *)

Lemma reach_refs (s s' : Session) : reach s s' -> refs s <= refs s'.
Proof. induction 1; simpl; lia. Qed.

Lemma reach_grows (s s' : Session) : reach s s' -> grows s s'.
Proof.
  intros Hr. split; [|split].
  - now apply reach_footNotes.
  - now apply reach_matchCount.
  - now apply reach_refs.
Qed.

Lemma run_reach (tree : list RenderTreeElem) (sched sched_fn : Schedule) (s : Session) :
  reach s (snd (run tree sched sched_fn s)).
Proof.
  unfold run. run_monad.
  pose proof (renderAll_reach tree (add_log (LogDebug "Rendering preview tree" tree) s)) as W1.
  destruct (renderAll tree _) as [ps s1].
  pose proof (await_all_reach sched ps s1) as W2.
  destruct (await_all sched ps s1) as [ps' s2]. simpl in W1, W2.
  assert (W : reach s s2).
  { eapply reach_trans; [|exact W2]. eapply reach_trans; [|exact W1].
    apply reach_add_log. apply reach_refl. }
  destruct (values ps') as [blocks|]; [|exact W].
  pose proof (renderFootnotes_reach sched_fn s2) as W3.
  destruct (renderFootnotes sched_fn s2) as [[|footer|err] s3]; simpl in *;
    eapply reach_trans; eassumption.
Qed.

(** X6: the collector is only ever pushed to, the match count only
    incremented and refs only created: a call of [render], the
    completion of any waits, the footnote pass and a whole pass leave
    the definitions collected before in place, in order, at the front of
    the collector, and the two counters no smaller. *)
Theorem session_only_grows :
  (forall e key s, grows s (snd (render e key s)))
  /\ (forall n p s, grows s (snd (step n p s)))
  /\ (forall sched ps s, grows s (snd (await_all sched ps s)))
  /\ (forall sched s, grows s (snd (renderFootnotes sched s)))
  /\ (forall tree sched sched_fn s, grows s (snd (run tree sched sched_fn s))).
Proof.
  split; [|split; [|split; [|split]]]; intros; apply reach_grows.
  - apply render_reach.
  - apply step_reach.
  - apply await_all_reach.
  - apply renderFootnotes_reach.
  - apply run_reach.
Qed.

(** *** A pass that collects no footnote definition *)

Lemma total_ones_nil (defs : list RenderTreeFootNoteDef) :
  total (fun _ => 1) defs = 0 -> defs = [].
Proof. destruct defs; [reflexivity|discriminate]. Qed.

(** X3: when the main pass visits no footnote definition, the pass is
    fulfilled whatever the order of completions: its root is the
    fragment of the rendered blocks followed by [null], with no footnote
    section, and its match count is that of the tree. *)
Theorem pass_without_footnotes (tree : list RenderTreeElem) (sched sched_fn : Schedule)
    (Hnone : collectsAll tree 0 = []) :
  exists blocks t,
    fst (ReactMarkdownRenderer_render tree sched sched_fn) = Fulfilled t
    /\ root t = RElement Fragment None [] (Some (RStaticArray [RArray blocks; RNull]))
    /\ renderings_of tree blocks
    /\ tree_matchCount t = startsAll tree 0
    /\ footNotes (snd (ReactMarkdownRenderer_render tree sched sched_fn)) = [].
Proof.
  unfold ReactMarkdownRenderer_render, run. run_monad.
  destruct (run_settles tree sched sched_fn new_session) as [blocks Hblocks].
  set (s0 := add_log (LogDebug "Rendering preview tree" tree) new_session) in *.
  pose proof (settled_renderings tree s0) as Hrend.
  destruct (balance_renderAll (fun _ => 1) tree s0) as [Hs1 Hd1].
  destruct (renderAll tree s0) as [ps s1]. simpl in Hblocks, Hrend, Hs1, Hd1.
  pose proof (settle_evolves (workAll ps) sched ps s1) as Hev.
  fold (await_all sched ps s1) in Hev.
  destruct (balance_await_all (fun _ => 1) sched ps s1) as [Hs2 Hd2].
  destruct (await_all sched ps s1) as [ps' s2]. simpl in Hblocks, Hev, Hs2, Hd2.
  rewrite Hblocks.
  assert (Hfn : footNotes s2 = []).
  { apply total_ones_nil. rewrite Hnone in Hd1.
    unfold defs_balance, total in *. simpl in *. lia. }
  unfold renderFootnotes. run_monad. rewrite Hfn. simpl.
  eexists blocks, _. split; [reflexivity|]. simpl.
  split; [reflexivity|]. split; [exact (Hrend ps' blocks Hev Hblocks)|].
  split; [|exact Hfn].
  unfold starts_balance in *. simpl in *. lia.
Qed.

(** *** Trees with nothing to wait for *)

Lemma await_all_nothing (sched : Schedule) (ps : list Promise) (s : Session) :
  workAll ps = 0 -> await_all sched ps s = (ps, s).
Proof. intros Hw. unfold await_all. rewrite Hw. reflexivity. Qed.

Lemma work_renderAll (elems : list RenderTreeElem) (s : Session) :
  workAll (fst (renderAll elems s)) <= list_sum (map codes elems).
Proof.
  apply work_renderAll_from. apply Forall_forall. intros e _. apply work_render.
Qed.

Lemma list_sum_zero_Forall (l : list nat) : list_sum l = 0 -> Forall (fun n => n = 0) l.
Proof.
  induction l as [|n l IH]; simpl; intros E; constructor; [lia|apply IH; lia].
Qed.

(** The definitions a subtree hands to the collector hold no more
    fences and math nodes than the subtree. *)
Lemma collects_codes_aux (elems : list RenderTreeElem) :
  Forall (fun e => forall key, total body_codes (collects e key) <= codes e) elems ->
  forall idx, total body_codes (collectsAll elems idx) <= list_sum (map codes elems).
Proof.
  induction 1 as [|e es He _ IH]; intros idx; simpl.
  - unfold total. simpl. lia.
  - rewrite total_app. specialize (He (Some idx)). specialize (IH (S idx)). lia.
Qed.

Lemma collects_codes (e : RenderTreeElem) :
  forall key, total body_codes (collects e key) <= codes e.
Proof.
  induction e using elem_ind; intros key0; rewrite collects_eq; simpl.
  all: try match goal with
       | |- context [fence_render ?e ?k] => destruct (fence_render e k)
       end.
  all: try solve [unfold total, body_codes; simpl; lia].
  all: match goal with
       | H : Forall _ ?c |- _ => pose proof (collects_codes_aux c H 0)
       end; lia.
Qed.

Lemma collectsAll_codes (elems : list RenderTreeElem) (idx : nat) :
  total body_codes (collectsAll elems idx) <= list_sum (map codes elems).
Proof.
  apply collects_codes_aux. apply Forall_forall. intros e _. apply collects_codes.
Qed.

Lemma work_footnote_bodies (defs : list RenderTreeFootNoteDef) :
  forall s, workAll (fst (footnote_bodies defs s)) <= total body_codes defs.
Proof.
  induction defs as [|d defs IH]; intros s; simpl.
  - unfold workAll, total. simpl. lia.
  - run_monad. pose proof (work_renderAll (fn_c d) s) as W.
    destruct (renderAll (fn_c d) s) as [cs s1]. specialize (IH s1).
    destruct (footnote_bodies defs s1) as [ps s2].
    unfold workAll, total, body_codes in *. simpl in *. lia.
Qed.

Lemma renderFootnotes_nothing (sched sched' : Schedule) (s : Session) :
  total body_codes (footNotes s) = 0 ->
  renderFootnotes sched s = renderFootnotes sched' s.
Proof.
  intros Hw. unfold renderFootnotes. run_monad.
  destruct (footNotes s) as [|d defs]; [reflexivity|].
  pose proof (work_footnote_bodies (d :: defs)
                (add_log (LogDebug "Rendering footnotes" (map footnote_log (d :: defs))) s))
    as W.
  destruct (footnote_bodies (d :: defs) _) as [bodies s1]. simpl in W.
  rewrite !await_all_nothing by lia. reflexivity.
Qed.

(** X4: a tree that holds no fence and no math node has nothing to wait
    for: its pass gives the same result and leaves the same session in
    whatever order completions are taken. *)
Theorem no_waits_one_result (tree : list RenderTreeElem)
    (sched sched_fn sched' sched_fn' : Schedule)
    (Hnone : list_sum (map codes tree) = 0) :
  ReactMarkdownRenderer_render tree sched sched_fn
  = ReactMarkdownRenderer_render tree sched' sched_fn'.
Proof.
  unfold ReactMarkdownRenderer_render, run. run_monad.
  set (s0 := add_log (LogDebug "Rendering preview tree" tree) new_session).
  pose proof (work_renderAll tree s0) as W.
  destruct (balance_renderAll body_codes tree s0) as [_ Hd].
  pose proof (collectsAll_codes tree 0) as Hc.
  destruct (renderAll tree s0) as [ps s1]. simpl in W, Hd.
  rewrite !await_all_nothing by lia.
  destruct (values ps) as [blocks|]; [|reflexivity].
  rewrite (renderFootnotes_nothing sched_fn sched_fn' s1); [reflexivity|].
  unfold defs_balance, total in *. simpl in *. lia.
Qed.

(** *** Keys *)

(** X2: the element rendered for the child at position [i] of an array
    carries the key [i], whatever the session and the completions, for
    every kind that renders to an element of its own. *)
Theorem rendered_element_key (e : RenderTreeElem) (i : nat) (out : ReactNode)
    (Hkind : keyed_kind e = true) (Hout : rendering_of e i out) :
  exists type props children, out = RElement type (Some (KIdx i)) props children.
Proof.
  destruct Hout as [s0 [p' [Hev Hv]]]. rewrite render_eq in Hev.
  destruct e; try discriminate Hkind; simpl in Hev; run_monad.
  all: try match type of Hev with
       | context [if ?b then _ else _] => destruct b
       end.
  all: try match type of Hev with
       | context [table ?s] => destruct (table s)
       end.
  all: repeat match type of Hev with
       | context [renderAll ?c ?s] => destruct (renderAll c s)
       end.
  all: simpl in Hev.
  all: try (apply evolves_Resolved in Hev; subst p'; simpl in Hv;
            injection Hv as <-; unfold jsx_empty; simpl; eauto; fail).
  all: apply evolves_AwaitAll in Hev; destruct Hev as [cs' [-> _]];
       apply value_AwaitAll_inv in Hv; destruct Hv as [vs [_ ->]];
       unfold jsx, createElement; simpl; eauto.
Qed.

(** *** [lastElementOf] *)

(** X7: [lastElementOf] answers the last node of the array when that node
    is an element and [null] in every other case: for an empty array,
    and when the last node is a string, [null] or an array, whatever
    comes before it. *)
Theorem lastElementOf_spec (nodes : list ReactNode) :
  (forall e, lastElementOf nodes = Some e <->
             exists front, nodes = front ++ [e] /\ isReactElement e = true)
  /\ (lastElementOf nodes = None <->
      nodes = [] \/ exists front n, nodes = front ++ [n] /\ isReactElement n = false).
Proof.
  unfold lastElementOf.
  destruct nodes as [|x rest] using rev_ind; [|clear IHrest].
  - simpl. split.
    + intros e. split; [discriminate|].
      intros [front [E _]]. now destruct front.
    + split; auto.
  - rewrite rev_unit. split.
    + intros e. split.
      * destruct (isReactElement x) eqn:Hx; [|discriminate].
        intros E. injection E as <-. now exists rest.
      * intros [front [E He]]. apply app_inj_tail in E. destruct E as [_ <-].
        now rewrite He.
    + split.
      * destruct (isReactElement x) eqn:Hx; [discriminate|].
        intros _. right. now exists rest, x.
      * intros [E|[front [n [E Hn]]]].
        -- now destruct rest.
        -- apply app_inj_tail in E. destruct E as [_ <-]. now rewrite Hn.
Qed.

(** *** The shape of the output *)

(** X1: rendering follows the tree.  For every kind that wraps its
    children in an element of its own, whatever the session in which the
    call is made and the order in which the waits complete, the
    rendering at position [i] is the element of that kind, with key [i],
    over the renderings of the children, position by position; a heading
    is the element that [React.createElement] makes of the renderings of
    its children. *)
Theorem rendering_follows_the_tree (e : RenderTreeElem) (i : nat) (out : ReactNode)
    (Hout : rendering_of e i out) :
  (forall tag props c,
     wrapper e = Some (tag, props, c) ->
     exists outs, out = jsx (Tag tag) (Some i) props outs /\ renderings_of c outs)
  /\ (forall level id c,
        e = H level id c ->
        exists outs,
          out = createElement (Tag ("h" +++ string_of_nat level)) (Some i)
                  (optional "id" (option_map PStr (truthy id))) outs
          /\ renderings_of c outs).
Proof.
  destruct Hout as [s0 [p' [Hev Hv]]]. rewrite render_eq in Hev.
  assert (Hwrap : forall c s1 k,
            evolves (AwaitAll (fst (renderAll c s1)) k) p' ->
            exists outs, out = k outs /\ renderings_of c outs).
  { intros c s1 k Hev1. apply evolves_AwaitAll in Hev1. destruct Hev1 as [cs' [-> Hcs]].
    apply value_AwaitAll_inv in Hv. destruct Hv as [vs [Hvs ->]].
    exists vs. split; [reflexivity|]. exact (settled_renderings c s1 cs' vs Hcs Hvs). }
  split.
  - intros tag props c Hw.
    destruct e; try discriminate Hw; simpl in Hev, Hw; run_monad.
    all: try match type of Hw with
         | context [if ?b then _ else _] => destruct b; try discriminate Hw
         end.
    all: injection Hw as <- <- <-.
    all: try match type of Hev with
         | context [table ?s] => destruct (table s)
         end.
    all: match type of Hev with
         | context [renderAll ?c ?s] =>
             pose proof (Hwrap c s) as W; destruct (renderAll c s); simpl in Hev, W;
             exact (W _ Hev)
         end.
  - intros level id c ->. simpl in Hev. run_monad.
    pose proof (Hwrap c s0) as W. destruct (renderAll c s0). simpl in Hev, W.
    exact (W _ Hev).
Qed.


(** *** A pass over a tree that holds an element of an unknown kind *)

Lemma log_apart_pass (pre pre' : list LogEntry) (s t : Session) :
  log_apart pre pre' s t ->
  (forall sched ps,
     fst (await_all sched ps s) = fst (await_all sched ps t)
     /\ log_apart pre pre' (snd (await_all sched ps s)) (snd (await_all sched ps t)))
  /\ (forall sched,
        fst (renderFootnotes sched s) = fst (renderFootnotes sched t)
        /\ log_apart pre pre' (snd (renderFootnotes sched s)) (snd (renderFootnotes sched t)))
  /\ (forall tree sched sched_fn,
        fst (run tree sched sched_fn s) = fst (run tree sched sched_fn t)
        /\ log_apart pre pre' (snd (run tree sched sched_fn s))
             (snd (run tree sched sched_fn t))).
Proof.
  intros Hst. split; [|split]; intros.
  - apply (blind_await_all (log_apart pre pre')
             (log_apart_same _ _) (log_apart_set_table _ _) (log_apart_marker _ _)
             (log_apart_push_footNote _ _) (log_apart_incr_matchCount _ _)
             (log_apart_add_log _ _)). exact Hst.
  - apply (blind_renderFootnotes (log_apart pre pre')
             (log_apart_same _ _) (log_apart_set_table _ _) (log_apart_marker _ _)
             (log_apart_push_footNote _ _) (log_apart_incr_matchCount _ _)
             (log_apart_add_log _ _)). exact Hst.
  - apply (blind_run (log_apart pre pre')
             (log_apart_same _ _) (log_apart_set_table _ _) (log_apart_marker _ _)
             (log_apart_push_footNote _ _) (log_apart_incr_matchCount _ _)
             (log_apart_add_log _ _)). exact Hst.
Qed.

Lemma run_after_main (tree : list RenderTreeElem) (sched sched_fn : Schedule) (s : Session) :
  reach (snd (renderAll tree (add_log (LogDebug "Rendering preview tree" tree) s)))
        (snd (run tree sched sched_fn s)).
Proof.
  unfold run. run_monad.
  destruct (renderAll tree _) as [ps s1].
  pose proof (await_all_reach sched ps s1) as W2.
  destruct (await_all sched ps s1) as [ps' s2]. simpl in W2 |- *.
  destruct (values ps') as [blocks|]; [|exact W2].
  pose proof (renderFootnotes_reach sched_fn s2) as W3.
  destruct (renderFootnotes sched_fn s2) as [[|footer|err] s3]; simpl in *;
    eapply reach_trans; eassumption.
Qed.

Lemma unknown_in_pass t c (before after : list RenderTreeElem)
    (sched sched_fn : Schedule) (s : Session) :
  (exists pre post,
     log (snd (run (before ++ Unknown t c :: after) sched sched_fn s))
     = pre ++ LogError "Unknown render tree element:" (Unknown t c) :: post)
  /\ fst (run (before ++ Unknown t c :: after) sched sched_fn s) <> StillPending
  /\ forall tr,
       fst (run (before ++ Unknown t c :: after) sched sched_fn s) = Fulfilled tr ->
       exists blocks footer,
         root tr = RElement Fragment None [] (Some (RStaticArray [RArray blocks; footer]))
         /\ List.length blocks = List.length (before ++ Unknown t c :: after)
         /\ nth_error blocks (List.length before) = Some RNull.
Proof.
  split; [|split].
  - pose proof (run_after_main (before ++ Unknown t c :: after) sched sched_fn s) as Hr.
    apply reach_log in Hr. destruct Hr as [post Hpost].
    unfold renderAll in Hpost. rewrite renderAll_from_app in Hpost.
    destruct (renderAll_from before 0 _) as [ps1 s1].
    cbn [renderAll_from] in Hpost. run_monad.
    rewrite render_Unknown in Hpost.
    pose proof (renderAll_from_reach after
                  (proj2 (Forall_forall _ _) (fun e _ => render_reach e))
                  (S (0 + List.length before))
                  (add_log (LogError "Unknown render tree element:" (Unknown t c)) s1)) as Ha.
    apply reach_log in Ha. destruct Ha as [post' Hpost'].
    destruct (renderAll_from after _ _) as [ps2 s2]. simpl in Hpost, Hpost'.
    exists (log s1), (post' ++ post). rewrite Hpost, Hpost'.
    rewrite <- !app_assoc. reflexivity.
  - apply run_settled.
  - intros tr Htr. destruct (run_root _ _ _ _ _ Htr) as [blocks [footer [collected [Hroot [Hblocks _]]]]].
    exists blocks, footer. split; [exact Hroot|]. destruct Hblocks as [Hlen Hnth].
    split; [exact Hlen|].
    destruct (Hnth (List.length before) (Unknown t c)) as [out [Hout Hrend]].
    { rewrite nth_error_app2 by lia. now rewrite Nat.sub_diag. }
    rewrite Hout. f_equal. exact (rendering_of_Unknown _ _ _ _ Hrend).
Qed.

(** *** The fence collaborator's answers *)

Lemma evolves_AwaitFence lang c key (q : Promise) :
  evolves (AwaitFence lang c key) q ->
  q = AwaitFence lang c key
  \/ exists s1, evolves (fst (fence_continue lang c key s1)) q.
Proof.
  intros E. remember (AwaitFence lang c key) as p eqn:Hp.
  induction E as [|p q n s _ IH].
  - left. reflexivity.
  - destruct (IH Hp) as [Hq|[s1 E1]].
    + right. exists s. rewrite Hq, Hp, step_eq. apply evolves_refl.
    + right. exists s1. apply evolves_step. exact E1.
Qed.

Lemma wrapped_rendering (c : list RenderTreeElem) (s1 : Session)
    (k : list ReactNode -> ReactNode) (p' : Promise) (out : ReactNode) :
  evolves (AwaitAll (fst (renderAll c s1)) k) p' ->
  value p' = Some out ->
  exists outs, out = k outs /\ renderings_of c outs.
Proof.
  intros Hev Hv. apply evolves_AwaitAll in Hev. destruct Hev as [cs' [-> Hcs]].
  apply value_AwaitAll_inv in Hv. destruct Hv as [vs [Hvs ->]].
  exists vs. split; [reflexivity|]. exact (settled_renderings c s1 cs' vs Hcs Hvs).
Qed.

(** A fence settles to what the code after the wait returns. *)
Lemma fence_rendering lang c (i : nat) (out : ReactNode) :
  rendering_of (Code lang c) i out ->
  exists s1 p', evolves (fst (fence_continue lang c (Some i) s1)) p' /\ value p' = Some out.
Proof.
  intros [s0 [p' [Hev Hv]]]. rewrite render_eq in Hev. simpl in Hev.
  destruct (evolves_AwaitFence _ _ _ _ Hev) as [->|[s1 E1]]; [discriminate|].
  exists s1, p'. split; assumption.
Qed.

(** The wait on a fence that the collaborator takes. *)
Lemma await_fence_answered (sched : Schedule) lang c key s node (m : bool) :
  fence_render (Code lang c) key = Some (node, m) ->
  await_all sched [AwaitFence lang c key] s
  = ([fst (fence_continue lang c key s)], snd (fence_continue lang c key s)).
Proof.
  intros Hf. unfold await_all, workAll. cbn [map work].
  change (list_sum [S (list_sum (map codes c))]) with (S (list_sum (map codes c) + 0)).
  cbn [settle]. unfold pendingAll. cbn [map pending]. change (list_sum [1]) with 1.
  cbv beta iota. rewrite Nat.mod_1_r. cbn [stepAll pending Nat.ltb Nat.leb]. rewrite step_eq.
  unfold fence_continue. rewrite Hf.
  destruct m; run_monad; simpl; destruct (list_sum (map codes c) + 0); reflexivity.
Qed.

(** The wait on a fence that the collaborator declines: the children
    are rendered in the session the answer finds, and what they start is
    awaited in its turn. *)
Lemma await_fence_declined (sched : Schedule) lang c key s :
  fence_render (Code lang c) key = None ->
  exists outs,
    values (fst (await_all sched [AwaitFence lang c key] s))
    = Some [RElement (Tag "code") (option_map KIdx key) [] (Some (RArray outs))]
    /\ renderings_of c outs.
Proof.
  intros Hf.
  pose proof (settle_evolves (workAll [AwaitFence lang c key]) sched
                [AwaitFence lang c key] s) as Hev.
  pose proof (await_all_settles sched [AwaitFence lang c key] s) as Hdone.
  fold (await_all sched [AwaitFence lang c key] s) in Hev.
  destruct (await_all sched [AwaitFence lang c key] s) as [ps' s']. simpl in Hev, Hdone |- *.
  destruct (Forall2_evolves_cons_inv _ _ _ Hev) as [p' [rest [-> [Ep Hrest]]]].
  apply Forall2_evolves_nil_inv in Hrest. subst rest.
  destruct (values_of_settled _ Hdone) as [vs Hvs].
  cbn [values] in Hvs |- *.
  destruct (value p') as [out|] eqn:Hv; [|discriminate].
  destruct (evolves_AwaitFence _ _ _ _ Ep) as [->|[s1 E1]]; [discriminate|].
  unfold fence_continue in E1. rewrite Hf in E1. run_monad.
  pose proof (wrapped_rendering c s1 (jsx (Tag "code") key []) p' out) as W.
  destruct (renderAll c s1) as [cs s2]. simpl in E1, W.
  destruct (W E1 Hv) as [outs [-> Hr]].
  exists outs. split; [reflexivity | exact Hr].
Qed.

(** C5 (as amended): a code-fence node writes nothing before the
    collaborator answers.  When the answer is [null], the fence renders
    to a [code] element over the renderings of its children, position by
    position; the fallback itself leaves the session as rendering the
    children leaves it, so the last-modified handle is afterwards what it
    was exactly when no marker was created while the children rendered,
    which is the case when no child reaches a last-modified marker node
    and none holds a fence or a formula.  When the answer is a node with
    [modified] set, the fence renders to a fragment of a fresh marker
    followed by the collaborator's node, and the handle is the ref of
    that marker; no other field of the session is written.  When the
    answer is a node with [modified] unset, the fence renders to the node
    and the session is left as it was. *)
Theorem C5_fence_modification_marking (lang : option string) (c : list RenderTreeElem)
    (key : option nat) (s : Session) (sched : Schedule) :
  let call := render (Code lang c) key s in
  let after := await_all sched [fst call] (snd call) in
  (snd call = s /\ value (fst call) = None)
  /\ (fence_render (Code lang c) key = None ->
      (exists outs,
         values (fst after)
         = Some [RElement (Tag "code") (option_map KIdx key) [] (Some (RArray outs))]
         /\ renderings_of c outs)
      /\ (forall n, snd (step n (fst call) s) = snd (renderAll c s))
      /\ (lastModifiedRef s = newest_ref s ->
          (lastModifiedRef (snd after) = lastModifiedRef s <-> refs (snd after) = refs s))
      /\ (existsb reaches_modified c = false ->
          (forall n, lastModifiedRef (snd (step n (fst call) s)) = lastModifiedRef s)
          /\ (list_sum (map codes c) = 0 ->
              lastModifiedRef (snd after) = lastModifiedRef s)))
  /\ (forall node, fence_render (Code lang c) key = Some (node, true) ->
        values (fst after)
        = Some [RElement Fragment (option_map KIdx key) []
                  (Some (RStaticArray
                     [RElement (Tag "span") None
                        [("className", PStr "last-modified-marker"); ("ref", PRef (refs s))]
                        None;
                      node]))]
        /\ lastModifiedRef (snd after) = Some (refs s)
        /\ refs (snd after) = S (refs s)
        /\ table (snd after) = table s
        /\ footNotes (snd after) = footNotes s
        /\ matchCount (snd after) = matchCount s
        /\ log (snd after) = log s)
  /\ (forall node, fence_render (Code lang c) key = Some (node, false) ->
        values (fst after) = Some [node] /\ snd after = s)
  /\ (forall i out, key = Some i -> rendering_of (Code lang c) i out ->
        (fence_render (Code lang c) key = None ->
         exists outs,
           out = RElement (Tag "code") (Some (KIdx i)) [] (Some (RArray outs))
           /\ renderings_of c outs)
        /\ (forall node, fence_render (Code lang c) key = Some (node, true) ->
            exists ref,
              out = RElement Fragment (Some (KIdx i)) []
                      (Some (RStaticArray
                         [RElement (Tag "span") None
                            [("className", PStr "last-modified-marker"); ("ref", PRef ref)]
                            None;
                          node])))
        /\ (forall node, fence_render (Code lang c) key = Some (node, false) -> out = node)).
Proof.
  cbv zeta. rewrite render_eq. cbn [render_body ret fst snd].
  split; [split; reflexivity|].
  split; [|split; [|split]].
  - (* the collaborator declines *)
    intros Hf. split; [exact (await_fence_declined sched lang c key s Hf)|].
    assert (Hstep : forall n, snd (step n (AwaitFence lang c key) s) = snd (renderAll c s)).
    { intros n. rewrite step_eq. unfold fence_continue. rewrite Hf. run_monad.
      destruct (renderAll c s). reflexivity. }
    split; [exact Hstep|]. split.
    + intros Hinv.
      set (Inv := fun s : Session => lastModifiedRef s = newest_ref s).
      assert (Hafter : Inv (snd (await_all sched [AwaitFence lang c key] s))).
      { apply (invariant_await_all Inv); unfold Inv; try (intros; assumption); try exact Hinv.
        intros; reflexivity. }
      unfold Inv in Hafter. rewrite Hafter, Hinv. unfold newest_ref.
      destruct (refs (snd (await_all sched [AwaitFence lang c key] s))), (refs s);
        split; intros E; try discriminate; try reflexivity.
      * injection E as ->. reflexivity.
      * injection E as ->. reflexivity.
    + intros Hno. split.
      * intros n. rewrite Hstep. apply unmarked_renderAll. exact Hno.
      * intros H0. unfold await_all, workAll. cbn [map work]. rewrite H0.
        change (list_sum [1]) with 1.
        cbn [settle]. unfold pendingAll. cbn [map pending]. change (list_sum [1]) with 1.
        cbv beta iota. rewrite Nat.mod_1_r. cbn [stepAll pending Nat.ltb Nat.leb]. rewrite step_eq.
        unfold fence_continue. rewrite Hf. run_monad.
        pose proof (unmarked_renderAll c s Hno) as Hun.
        destruct (renderAll c s) as [cs s1]. simpl in Hun |- *. exact Hun.
  - (* the collaborator's node, modified *)
    intros node Hf. rewrite (await_fence_answered sched lang c key s node true Hf).
    unfold fence_continue. rewrite Hf. run_monad. simpl. repeat split.
  - (* the collaborator's node, not modified *)
    intros node Hf. rewrite (await_fence_answered sched lang c key s node false Hf).
    unfold fence_continue. rewrite Hf. run_monad. simpl. split; reflexivity.
  - (* wherever in a tree the fence stands *)
    intros i out -> Hout.
    destruct (fence_rendering lang c i out Hout) as [s1 [p' [Hev Hv]]].
    unfold fence_continue in Hev. split; [|split].
    + intros Hf. rewrite Hf in Hev. run_monad.
      pose proof (wrapped_rendering c s1 (jsx (Tag "code") (Some i) []) p' out) as W.
      destruct (renderAll c s1) as [cs s2]. simpl in Hev, W.
      destruct (W Hev Hv) as [outs [-> Hr]]. exists outs. split; [reflexivity | exact Hr].
    + intros node Hf. rewrite Hf in Hev. run_monad. simpl in Hev.
      apply evolves_Resolved in Hev. subst p'. simpl in Hv. injection Hv as <-.
      exists (refs s1). reflexivity.
    + intros node Hf. rewrite Hf in Hev. run_monad. simpl in Hev.
      apply evolves_Resolved in Hev. subst p'. simpl in Hv. injection Hv as <-. reflexivity.
Qed.

End RenderTreeToReact.

(** ** The legacy renderer *)

Section LegacyProperties.

Variable innerHTML : list Legacy.Node -> string.
Variable parseHTML : string -> list Legacy.Node.

Local Abbreviation legacy_render := (Legacy.render innerHTML parseHTML).
Local Abbreviation legacy_renderChildren := (Legacy.renderChildren innerHTML parseHTML).

Ltac run_legacy :=
  unfold Legacy.advance in *; unfold bind, ret, modify, gets in *; cbv beta in *.

Lemma legacy_render_eq (e : RenderTreeElem) :
  legacy_render e = Legacy.render_body innerHTML parseHTML legacy_renderChildren e.
Proof. destruct e; reflexivity. Qed.

Lemma legacy_renderChildren_app (l1 l2 : list RenderTreeElem) :
  forall r,
    legacy_renderChildren (l1 ++ l2) r =
    (let (n1, r1) := legacy_renderChildren l1 r in
     let (n2, r2) := legacy_renderChildren l2 r1 in
     (n1 ++ n2, r2)).
Proof.
  induction l1 as [|e es IH]; intros r; simpl.
  - destruct (legacy_renderChildren l2 r). reflexivity.
  - run_legacy. destruct (legacy_render e r) as [n r1].
    rewrite IH. destruct (legacy_renderChildren es r1) as [n1 r2].
    destruct (legacy_renderChildren l2 r2). now rewrite app_assoc.
Qed.

Ltac legacy_same_log :=
  unfold legacy_same_but_log in *; simpl in *; intuition congruence.

(** The legacy renderer never reads its log either. *)
Section LegacyBlind.

Variable R : Legacy.ParseTreeRenderer -> Legacy.ParseTreeRenderer -> Prop.
Hypothesis R_same : forall r r', R r r' -> legacy_same_but_log r r'.
Hypothesis R_set_table :
  forall st r r', R r r' -> R (Legacy.set_table (Some st) r) (Legacy.set_table (Some st) r').
Hypothesis R_push_footNote :
  forall d r r', R r r' -> R (Legacy.push_footNote d r) (Legacy.push_footNote d r').
Hypothesis R_add_log : forall e r r', R r r' -> R (Legacy.add_log e r) (Legacy.add_log e r').

Lemma legacy_blind_renderChildren (elems : list RenderTreeElem) :
  Forall (fun e => forall r r', R r r' ->
            fst (legacy_render e r) = fst (legacy_render e r')
            /\ R (snd (legacy_render e r)) (snd (legacy_render e r'))) elems ->
  forall r r', R r r' ->
    fst (legacy_renderChildren elems r) = fst (legacy_renderChildren elems r')
    /\ R (snd (legacy_renderChildren elems r)) (snd (legacy_renderChildren elems r')).
Proof using Type.
  induction 1 as [|e es He _ IH]; intros r r' Hrr; simpl.
  - split; [reflexivity | exact Hrr].
  - run_legacy. destruct (He r r' Hrr) as [Hn Hr].
    destruct (legacy_render e r) as [n r1].
    destruct (legacy_render e r') as [n' r1']. simpl in Hn, Hr. subst n'.
    destruct (IH r1 r1' Hr) as [Hns Hr2].
    destruct (legacy_renderChildren es r1) as [ns r2].
    destruct (legacy_renderChildren es r1') as [ns' r2']. simpl in *.
    split; [congruence | exact Hr2].
Qed.

Lemma legacy_blind_render (e : RenderTreeElem) :
  forall r r', R r r' ->
    fst (legacy_render e r) = fst (legacy_render e r')
    /\ R (snd (legacy_render e r)) (snd (legacy_render e r')).
Proof using R_same R_set_table R_push_footNote R_add_log.
  induction e using elem_ind; intros r0 r0' Hrr; rewrite !legacy_render_eq; simpl.
  all: pose proof (R_same _ _ Hrr) as Hsame.
  all: run_legacy; simpl.
  all: try solve [split; [reflexivity | auto]].
  all: try (replace (Legacy.table r0') with (Legacy.table r0) by legacy_same_log;
            destruct (Legacy.table r0)).
  all: match goal with
       | IHc : Forall _ ?c |- context [legacy_renderChildren ?c ?t] =>
           match goal with
           | |- context [fst (let (_, _) := legacy_renderChildren c ?t in _)
                         = fst (let (_, _) := legacy_renderChildren c ?u in _)] =>
               let W := fresh "W" in
               assert (W : R t u) by auto;
               apply (legacy_blind_renderChildren c IHc) in W;
               destruct (legacy_renderChildren c t), (legacy_renderChildren c u);
               simpl in *; destruct W as [-> W]; split; [reflexivity | exact W]
           end
       end.
Qed.

Lemma legacy_blind_children (elems : list RenderTreeElem) (r r' : Legacy.ParseTreeRenderer) :
  R r r' ->
  fst (legacy_renderChildren elems r) = fst (legacy_renderChildren elems r')
  /\ R (snd (legacy_renderChildren elems r)) (snd (legacy_renderChildren elems r')).
Proof using R_same R_set_table R_push_footNote R_add_log.
  apply legacy_blind_renderChildren. apply Forall_forall.
  intros e _. apply legacy_blind_render.
Qed.

Lemma legacy_blind_end_loop (turns : nat) :
  forall i items r r', R r r' ->
    fst (Legacy.end_loop innerHTML parseHTML turns i items r)
    = fst (Legacy.end_loop innerHTML parseHTML turns i items r')
    /\ R (snd (Legacy.end_loop innerHTML parseHTML turns i items r))
         (snd (Legacy.end_loop innerHTML parseHTML turns i items r')).
Proof using R_same R_set_table R_push_footNote R_add_log.
  induction turns as [|turns IH]; intros i items r r' Hrr; simpl.
  - split; [reflexivity | exact Hrr].
  - pose proof (R_same _ _ Hrr) as Hsame. run_legacy.
    replace (Legacy.footNotes r') with (Legacy.footNotes r) by legacy_same_log.
    destruct (nth_error (Legacy.footNotes r) i) as [elem|];
      [|split; [reflexivity | exact Hrr]].
    destruct (legacy_blind_children (fn_c elem) r r' Hrr) as [Hn Hr].
    destruct (legacy_renderChildren (fn_c elem) r) as [children r1].
    destruct (legacy_renderChildren (fn_c elem) r') as [children0 r1'].
    simpl in Hn, Hr. subst children0.
    destruct (Legacy.append_backref children (Legacy.backref_link (fn_id elem)));
      try (split; [reflexivity | exact Hr]).
    apply IH. exact Hr.
Qed.

Lemma legacy_blind_end (r r' : Legacy.ParseTreeRenderer) :
  R r r' ->
  fst (Legacy.end_ innerHTML parseHTML r) = fst (Legacy.end_ innerHTML parseHTML r')
  /\ R (snd (Legacy.end_ innerHTML parseHTML r)) (snd (Legacy.end_ innerHTML parseHTML r')).
Proof using R_same R_set_table R_push_footNote R_add_log.
  intros Hrr. pose proof (R_same _ _ Hrr) as Hsame. unfold Legacy.end_. run_legacy.
  replace (Legacy.footNotes r') with (Legacy.footNotes r) by legacy_same_log.
  destruct (Legacy.footNotes r) as [|def defs]; [split; [reflexivity | exact Hrr]|].
  destruct (legacy_blind_end_loop (S (Legacy.loop_bound (def :: defs))) 0 [] r r' Hrr)
    as [Hi Hr].
  destruct (Legacy.end_loop innerHTML parseHTML (S (Legacy.loop_bound (def :: defs))) 0 [] r)
    as [items r1].
  destruct (Legacy.end_loop innerHTML parseHTML (S (Legacy.loop_bound (def :: defs))) 0 [] r')
    as [items0 r1'].
  simpl in Hi, Hr. subst items0.
  destruct items; split; try reflexivity; exact Hr.
Qed.

End LegacyBlind.

Section LegacyLogApart.

Variables pre pre' : list LogEntry.

Lemma legacy_log_apart_same (r r' : Legacy.ParseTreeRenderer) :
  legacy_log_apart pre pre' r r' -> legacy_same_but_log r r'.
Proof. intros [H _]. exact H. Qed.

Lemma legacy_log_apart_set_table st (r r' : Legacy.ParseTreeRenderer) :
  legacy_log_apart pre pre' r r' ->
  legacy_log_apart pre pre' (Legacy.set_table (Some st) r) (Legacy.set_table (Some st) r').
Proof. intros [H [rest Hl]]. split; [legacy_same_log | exists rest; exact Hl]. Qed.

Lemma legacy_log_apart_push_footNote d (r r' : Legacy.ParseTreeRenderer) :
  legacy_log_apart pre pre' r r' ->
  legacy_log_apart pre pre' (Legacy.push_footNote d r) (Legacy.push_footNote d r').
Proof. intros [H [rest Hl]]. split; [legacy_same_log | exists rest; exact Hl]. Qed.

Lemma legacy_log_apart_add_log e (r r' : Legacy.ParseTreeRenderer) :
  legacy_log_apart pre pre' r r' ->
  legacy_log_apart pre pre' (Legacy.add_log e r) (Legacy.add_log e r').
Proof.
  intros [H [rest [Hs Ht]]]. split; [legacy_same_log|]. exists (rest ++ [e]). simpl.
  rewrite Hs, Ht, !app_assoc. split; reflexivity.
Qed.

End LegacyLogApart.

Lemma legacy_render_Unknown t c r :
  legacy_render (Unknown t c) r =
  ([], Legacy.add_log (LogError "Unknown parse tree element:" (Unknown t c)) r).
Proof. rewrite legacy_render_eq. reflexivity. Qed.

Lemma legacy_unknown_among_siblings t c before after r :
  fst (legacy_renderChildren (before ++ Unknown t c :: after) r)
  = fst (legacy_renderChildren before r)
    ++ fst (legacy_renderChildren after (snd (legacy_renderChildren before r)))
  /\ legacy_log_apart
       (Legacy.log (snd (legacy_renderChildren before r))
        ++ [LogError "Unknown parse tree element:" (Unknown t c)])
       (Legacy.log (snd (legacy_renderChildren before r)))
       (snd (legacy_renderChildren (before ++ Unknown t c :: after) r))
       (snd (legacy_renderChildren after (snd (legacy_renderChildren before r)))).
Proof.
  rewrite legacy_renderChildren_app.
  destruct (legacy_renderChildren before r) as [n1 r1]. simpl fst. simpl snd.
  cbn [Legacy.renderChildren]. run_legacy.
  set (line := LogError "Unknown parse tree element:" (Unknown t c)).
  assert (H0 : legacy_log_apart (Legacy.log r1 ++ [line]) (Legacy.log r1)
                 (Legacy.add_log line r1) r1).
  { split; [legacy_same_log|]. exists []. simpl. now rewrite !app_nil_r. }
  pose proof (legacy_blind_children
                (legacy_log_apart (Legacy.log r1 ++ [line]) (Legacy.log r1))
                (legacy_log_apart_same _ _) (legacy_log_apart_set_table _ _)
                (legacy_log_apart_push_footNote _ _) (legacy_log_apart_add_log _ _)
                after (Legacy.add_log line r1) r1 H0) as [Hn Hr].
  fold line.
  destruct (legacy_renderChildren after (Legacy.add_log line r1)) as [n2 r2].
  destruct (legacy_renderChildren after r1) as [n2' r2'].
  simpl in *. subst. split; [reflexivity | exact Hr].
Qed.

(** What the log of the legacy renderer holds stays in it. *)
Lemma legacy_log_renderChildren (elems : list RenderTreeElem) :
  Forall (fun e => forall r, exists post,
            Legacy.log (snd (legacy_render e r)) = Legacy.log r ++ post) elems ->
  forall r, exists post,
    Legacy.log (snd (legacy_renderChildren elems r)) = Legacy.log r ++ post.
Proof.
  induction 1 as [|e es He _ IH]; intros r; simpl.
  - exists []. now rewrite app_nil_r.
  - run_legacy. destruct (He r) as [post1 H1].
    destruct (legacy_render e r) as [n r1]. destruct (IH r1) as [post2 H2].
    destruct (legacy_renderChildren es r1) as [ns r2]. simpl in *.
    exists (post1 ++ post2). rewrite H2, H1. now rewrite app_assoc.
Qed.

Lemma legacy_log_render (e : RenderTreeElem) :
  forall r, exists post, Legacy.log (snd (legacy_render e r)) = Legacy.log r ++ post.
Proof.
  induction e using elem_ind; intros r0; rewrite legacy_render_eq; simpl.
  all: run_legacy; simpl.
  all: try (destruct (Legacy.table r0)).
  all: try match goal with
       | IHc : Forall _ ?c |- context [legacy_renderChildren ?c ?t] =>
           let W := fresh "W" in
           destruct (legacy_log_renderChildren c IHc t) as [post W];
           destruct (legacy_renderChildren c t); simpl in *;
           exists post; exact W
       end.
  all: try solve [exists []; now rewrite app_nil_r].
  all: eexists; reflexivity.
Qed.

Lemma legacy_log_children (elems : list RenderTreeElem) (r : Legacy.ParseTreeRenderer) :
  exists post, Legacy.log (snd (legacy_renderChildren elems r)) = Legacy.log r ++ post.
Proof.
  apply legacy_log_renderChildren. apply Forall_forall. intros e _. apply legacy_log_render.
Qed.

Lemma legacy_log_end_loop (turns : nat) :
  forall i items r, exists post,
    Legacy.log (snd (Legacy.end_loop innerHTML parseHTML turns i items r))
    = Legacy.log r ++ post.
Proof.
  induction turns as [|turns IH]; intros i items r; simpl.
  - exists []. now rewrite app_nil_r.
  - run_legacy.
    destruct (nth_error (Legacy.footNotes r) i) as [elem|];
      [|exists []; now rewrite app_nil_r].
    destruct (legacy_log_children (fn_c elem) r) as [post1 H1].
    destruct (legacy_renderChildren (fn_c elem) r) as [children r1]. simpl in H1.
    destruct (Legacy.append_backref children (Legacy.backref_link (fn_id elem)))
      as [|children'|err]; try (exists post1; exact H1).
    match goal with
    | |- context [Legacy.end_loop _ _ turns ?j ?its r1] =>
        destruct (IH j its r1) as [post2 H2]
    end.
    exists (post1 ++ post2). rewrite app_assoc, <- H1. exact H2.
Qed.

Lemma legacy_log_end (r : Legacy.ParseTreeRenderer) :
  exists post, Legacy.log (snd (Legacy.end_ innerHTML parseHTML r)) = Legacy.log r ++ post.
Proof.
  unfold Legacy.end_. run_legacy.
  destruct (Legacy.footNotes r) as [|def defs]; [exists []; now rewrite app_nil_r|].
  destruct (legacy_log_end_loop (S (Legacy.loop_bound (def :: defs))) 0 [] r) as [post H].
  destruct (Legacy.end_loop innerHTML parseHTML (S (Legacy.loop_bound (def :: defs))) 0 [] r)
    as [items r1].
  simpl in H. exists post. destruct items; exact H.
Qed.

Lemma legacy_unknown_in_pass t c (before after : list RenderTreeElem) :
  (exists pre post,
     Legacy.log (snd (Legacy.PreviewContent_render innerHTML parseHTML
                        (before ++ Unknown t c :: after)))
     = pre ++ LogError "Unknown parse tree element:" (Unknown t c) :: post)
  /\ exists section,
       fst (Legacy.end_ innerHTML parseHTML
              (snd (legacy_renderChildren (before ++ Unknown t c :: after)
                      Legacy.new_renderer))) = section
       /\ fst (Legacy.PreviewContent_render innerHTML parseHTML
                 (before ++ Unknown t c :: after))
          = match section with
            | Fulfilled section =>
                Fulfilled
                  ((fst (legacy_renderChildren before Legacy.new_renderer)
                    ++ fst (legacy_renderChildren after
                              (snd (legacy_renderChildren before Legacy.new_renderer))))
                   ++ section)
            | Rejected err => Rejected err
            | StillPending => StillPending
            end.
Proof.
  unfold Legacy.PreviewContent_render.
  destruct (legacy_unknown_among_siblings t c before after Legacy.new_renderer) as [Hn _].
  pose proof (legacy_log_end
                (snd (legacy_renderChildren (before ++ Unknown t c :: after)
                        Legacy.new_renderer))) as [post Hpost].
  assert (Hlog : exists pre post',
             Legacy.log (snd (legacy_renderChildren (before ++ Unknown t c :: after)
                                Legacy.new_renderer))
             = pre ++ LogError "Unknown parse tree element:" (Unknown t c) :: post').
  { rewrite legacy_renderChildren_app.
    destruct (legacy_renderChildren before Legacy.new_renderer) as [n1 r1].
    cbn [Legacy.renderChildren]. run_legacy. rewrite legacy_render_Unknown.
    destruct (legacy_log_children after
                (Legacy.add_log (LogError "Unknown parse tree element:" (Unknown t c)) r1))
      as [post' Hpost'].
    destruct (legacy_renderChildren after
                (Legacy.add_log (LogError "Unknown parse tree element:" (Unknown t c)) r1))
      as [n2 r2].
    simpl in Hpost' |- *.
    exists (Legacy.log r1), post'. rewrite Hpost', <- app_assoc. reflexivity. }
  destruct Hlog as [pre [post' Hlog]].
  destruct (legacy_renderChildren (before ++ Unknown t c :: after) Legacy.new_renderer)
    as [blocks r]. simpl in Hn, Hpost, Hlog. cbn [fst snd].
  destruct (Legacy.end_ innerHTML parseHTML r) as [section r']. simpl in Hpost |- *.
  split.
  - exists pre, (post' ++ post). rewrite Hpost, Hlog, <- app_assoc. reflexivity.
  - exists section. split; [reflexivity|]. rewrite Hn. reflexivity.
Qed.

Lemma legacy_render_Tbody c r :
  legacy_render (Tbody c) r =
  (let (children, r') := legacy_renderChildren c r in
   ([Legacy.Element "thead" [] children], r')).
Proof. rewrite legacy_render_eq. reflexivity. Qed.


(** *** The legacy footnote section *)

Lemma loop_bound_app (l1 l2 : list RenderTreeFootNoteDef) :
  Legacy.loop_bound (l1 ++ l2) = Legacy.loop_bound l1 + Legacy.loop_bound l2.
Proof. unfold Legacy.loop_bound. now rewrite map_app, list_sum_app. Qed.

Lemma legacy_collects_renderChildren (elems : list RenderTreeElem) :
  Forall (fun e => forall r, exists new,
            Legacy.footNotes (snd (legacy_render e r)) = Legacy.footNotes r ++ new
            /\ Legacy.loop_bound new <= Legacy.fndefs e) elems ->
  forall r, exists new,
    Legacy.footNotes (snd (legacy_renderChildren elems r)) = Legacy.footNotes r ++ new
    /\ Legacy.loop_bound new <= list_sum (map Legacy.fndefs elems).
Proof.
  induction 1 as [|e es He _ IH]; intros r; simpl.
  - exists []. split; [now rewrite app_nil_r | reflexivity].
  - run_legacy. destruct (He r) as [new1 [H1 B1]].
    destruct (legacy_render e r) as [n r1]. destruct (IH r1) as [new2 [H2 B2]].
    destruct (legacy_renderChildren es r1) as [ns r2]. simpl in *.
    exists (new1 ++ new2). split.
    + rewrite H2, H1. now rewrite app_assoc.
    + rewrite loop_bound_app. lia.
Qed.

Lemma legacy_collects_render (e : RenderTreeElem) :
  forall r, exists new,
    Legacy.footNotes (snd (legacy_render e r)) = Legacy.footNotes r ++ new
    /\ Legacy.loop_bound new <= Legacy.fndefs e.
Proof.
  induction e using elem_ind; intros r0; rewrite legacy_render_eq; simpl.
  all: run_legacy; simpl.
  all: try (destruct (Legacy.table r0)).
  all: try match goal with
       | IHc : Forall _ ?c |- context [legacy_renderChildren ?c ?t] =>
           let W := fresh "W" in
           destruct (legacy_collects_renderChildren c IHc t) as [new [W B]];
           destruct (legacy_renderChildren c t); simpl in *;
           exists new; split; [exact W | lia]
       end.
  all: try solve [exists []; split; [now rewrite app_nil_r | unfold Legacy.loop_bound; simpl; lia]].
  all: eexists; split; [reflexivity|]; unfold Legacy.loop_bound; simpl; lia.
Qed.

Lemma legacy_collects (elems : list RenderTreeElem) (r : Legacy.ParseTreeRenderer) :
  exists new,
    Legacy.footNotes (snd (legacy_renderChildren elems r)) = Legacy.footNotes r ++ new
    /\ Legacy.loop_bound new <= list_sum (map Legacy.fndefs elems).
Proof.
  apply legacy_collects_renderChildren. apply Forall_forall.
  intros e _. apply legacy_collects_render.
Qed.

Lemma firstn_S_nth_error {X : Type} (l extra : list X) (i : nat) (x : X) :
  nth_error l i = Some x -> firstn (S i) (l ++ extra) = firstn i l ++ [x].
Proof.
  revert i. induction l as [|y l IH]; intros [|i] Hi; simpl in *; try discriminate.
  - now injection Hi as <-.
  - f_equal. apply IH. exact Hi.
Qed.

Lemma skipn_S_nth_error {X : Type} (l : list X) (i : nat) (x : X) :
  nth_error l i = Some x -> skipn i l = x :: skipn (S i) l.
Proof.
  revert i. induction l as [|y l IH]; intros [|i] Hi; simpl in *; try discriminate.
  - now injection Hi as <-.
  - apply IH. exact Hi.
Qed.

Lemma legacy_append_backref_placed (children : list Legacy.Node) (a : Legacy.Node)
    (children' : list Legacy.Node) :
  Legacy.append_backref children a = Fulfilled children' ->
  legacy_backref_placed children a children'.
Proof.
  unfold Legacy.append_backref, legacy_backref_placed.
  destruct (rev children) as [|last front] eqn:Hrev.
  - intros E. injection E as <-. left. split; [|reflexivity].
    rewrite <- (rev_involutive children), Hrev. reflexivity.
  - assert (Hc : children = rev front ++ [last]).
    { rewrite <- (rev_involutive children), Hrev. reflexivity. }
    destruct last as [data|tagName props childNodes]; [discriminate|].
    intros E. injection E as <-. right.
    exists (rev front), tagName, props, childNodes.
    split; [exact Hc|]. rewrite Hc at 1. now rewrite removelast_last.
Qed.

Lemma end_loop_items (turns : nat) :
  forall i items r result,
    fst (Legacy.end_loop innerHTML parseHTML turns i items r) = Fulfilled result ->
    Forall2 (legacy_item innerHTML parseHTML) (firstn i (Legacy.footNotes r)) items ->
    Forall2 (legacy_item innerHTML parseHTML)
      (Legacy.footNotes (snd (Legacy.end_loop innerHTML parseHTML turns i items r))) result.
Proof.
  induction turns as [|turns IH]; intros i items r result Hres Hitems; simpl in *.
  - discriminate.
  - run_legacy.
    destruct (nth_error (Legacy.footNotes r) i) as [elem|] eqn:Hnth.
    + destruct (legacy_collects (fn_c elem) r) as [new [Hnew _]].
      destruct (legacy_renderChildren (fn_c elem) r) as [children r1] eqn:Hrc.
      simpl in Hnew.
      destruct (Legacy.append_backref children (Legacy.backref_link (fn_id elem)))
        as [|children'|err] eqn:Happ; simpl in Hres |- *; try discriminate.
      apply IH; [exact Hres|].
      rewrite Hnew, (firstn_S_nth_error _ _ _ _ Hnth).
      apply Forall2_app; [exact Hitems|].
      constructor; [|constructor]. exists r, children'. rewrite Hrc.
      split; [|reflexivity].
      apply legacy_append_backref_placed. exact Happ.
    + simpl in *. injection Hres as <-.
      apply nth_error_None in Hnth. now rewrite firstn_all2 in Hitems.
Qed.

Lemma end_loop_finishes (turns : nat) :
  forall i items r,
    Legacy.loop_bound (skipn i (Legacy.footNotes r)) < turns ->
    fst (Legacy.end_loop innerHTML parseHTML turns i items r) <> StillPending.
Proof.
  induction turns as [|turns IH]; intros i items r Hb; simpl.
  - lia.
  - run_legacy.
    destruct (nth_error (Legacy.footNotes r) i) as [elem|] eqn:Hnth; [|discriminate].
    destruct (legacy_collects (fn_c elem) r) as [new [Hnew Bnew]].
    destruct (legacy_renderChildren (fn_c elem) r) as [children r1]. simpl in Hnew.
    destruct (Legacy.append_backref children (Legacy.backref_link (fn_id elem)))
      as [|children'|err] eqn:Happ; simpl.
    + unfold Legacy.append_backref in Happ.
      destruct (rev children) as [|[|] ?]; discriminate.
    + apply IH. rewrite Hnew.
      rewrite (skipn_S_nth_error _ _ _ Hnth) in Hb.
      rewrite skipn_app, loop_bound_app.
      assert (Hlen : i < List.length (Legacy.footNotes r))
        by (apply nth_error_Some; congruence).
      replace (S i - List.length (Legacy.footNotes r)) with 0 by lia.
      unfold Legacy.loop_bound in *. simpl in *. lia.
    + discriminate.
Qed.

Lemma legacy_end_section (r : Legacy.ParseTreeRenderer) :
  fst (Legacy.end_ innerHTML parseHTML r) <> StillPending
  /\ forall nodes,
       fst (Legacy.end_ innerHTML parseHTML r) = Fulfilled nodes ->
       (Legacy.footNotes r = [] /\ nodes = [])
       \/ (Legacy.footNotes r <> [] /\
           exists items,
             nodes = [legacy_section items]
             /\ Forall2 (legacy_item innerHTML parseHTML)
                  (Legacy.footNotes (snd (Legacy.end_ innerHTML parseHTML r))) items).
Proof.
  unfold Legacy.end_. run_legacy.
  destruct (Legacy.footNotes r) as [|def defs] eqn:Hdefs.
  - simpl. split; [discriminate|]. intros nodes E. injection E as <-. left. split; reflexivity.
  - pose proof (end_loop_finishes (S (Legacy.loop_bound (def :: defs))) 0 [] r) as Hfin.
    pose proof (end_loop_items (S (Legacy.loop_bound (def :: defs))) 0 [] r) as Hitems.
    destruct (Legacy.end_loop innerHTML parseHTML (S (Legacy.loop_bound (def :: defs))) 0 [] r)
      as [[|items|err] r'] eqn:Hloop; simpl in *.
    + exfalso. apply Hfin; [|reflexivity]. rewrite Hdefs. simpl. lia.
    + split; [discriminate|]. intros nodes E. injection E as <-.
      right. split; [discriminate|]. exists items. split; [reflexivity|].
      apply Hitems; [reflexivity | constructor].
    + split; [discriminate|]. intros nodes E. discriminate.
Qed.

Lemma legacy_render_FnRef id r :
  legacy_render (FnRef id) r =
  ([Legacy.Element "sup" []
      [Legacy.Element "a"
         [("href", PStr ("#user-content-fn-" +++ id));
          ("id", PStr ("user-content-fnref-" +++ id));
          ("aria-describedby", PStr "footnote-label")] []]], r).
Proof. rewrite legacy_render_eq. reflexivity. Qed.

End LegacyProperties.

(** C3 (as amended): the asynchronous lookup rejects when the cursor is
    out of the bounds of the alignment sequence and otherwise passes on
    the alignment declared for the column, so it yields a style only for
    a cursor within bounds.  The legacy lookup rejects, with [null],
    exactly when the cursor is at most the length of the sequence: at
    every cursor within bounds and also at the cursor one past the end;
    at a greater cursor it reads past the end of the array.  So the
    legacy lookup never yields a declared alignment. *)
Theorem C3_alignment_bounds_checks (als : list RenderTreeTableAlign) (i : nat)
    (defs : list RenderTreeFootNoteDef) (lg : list LogEntry) :
  let st := {| aligns := als; index := i |} in
  let r := {| Legacy.table := Some st; Legacy.footNotes := defs; Legacy.log := lg |} in
  (List.length als <= i -> tableAlignStyle st = None)
  /\ (i < List.length als ->
      tableAlignStyle st
      = option_map (fun a => [("textAlign", align_name a)]) (nth i als None))
  /\ (forall css, tableAlignStyle st = Some css -> i < List.length als)
  /\ (Legacy.tableAlign r = Legacy.Found None <-> i <= List.length als)
  /\ (List.length als < i -> Legacy.tableAlign r = Legacy.Undefined)
  /\ (forall a, Legacy.tableAlign r <> Legacy.Found (Some a)).
Proof.
  intros st r. unfold tableAlignStyle, Legacy.tableAlign. simpl.
  destruct (Nat.leb_spec (List.length als) i) as [Hout|Hin].
  - (* the cursor is out of bounds *)
    split; [reflexivity|]. split; [lia|]. split; [discriminate|].
    destruct (Nat.leb_spec i (List.length als)) as [Hle|Hgt].
    + split; [tauto|]. split; [lia | discriminate].
    + assert (E : nth_error als i = None) by (apply nth_error_None; lia).
      rewrite E. split; [split; [discriminate | lia]|].
      split; [reflexivity | discriminate].
  - (* the cursor is within bounds *)
    split; [lia|]. split.
    { intros _. destruct (nth i als None); reflexivity. }
    split; [intros; exact Hin|].
    destruct (Nat.leb_spec i (List.length als)) as [Hle|Hgt]; [|lia].
    split; [split; [lia | reflexivity]|]. split; [lia | discriminate].
Qed.

(** C3, as first stated, fails for the legacy lookup: with an empty
    alignment sequence and cursor 0, the cursor is out of bounds and the
    lookup rejects all the same. *)
Lemma C3_counterexample :
  ~ (forall (als : list RenderTreeTableAlign) (i : nat),
       Legacy.tableAlign
         {| Legacy.table := Some {| aligns := als; index := i |};
            Legacy.footNotes := []; Legacy.log := [] |} = Legacy.Found None
       <-> i < List.length als).
Proof.
  intros Hclaim. destruct (Hclaim [] 0) as [Hrejects _].
  specialize (Hrejects eq_refl). simpl in Hrejects. lia.
Qed.

(** C7: the asynchronous renderer turns a table-body node into a
    [tbody] element over its rendered children; the legacy renderer
    turns it into a [thead] element. *)
Theorem C7_table_body_kind
    (innerHTML : list Legacy.Node -> string) (parseHTML : string -> list Legacy.Node)
    (c : list RenderTreeElem) :
  (forall key s,
     render (Tbody c) key s =
     (let (cs, s') := renderAll c s in
      (AwaitAll cs (jsx (Tag "tbody") key []), s')))
  /\ (forall r,
        Legacy.render innerHTML parseHTML (Tbody c) r =
        (let (children, r') := Legacy.renderChildren innerHTML parseHTML c r in
         ([Legacy.Element "thead" [] children], r'))).
Proof.
  split.
  - intros key s. rewrite render_eq. reflexivity.
  - intros r. apply legacy_render_Tbody.
Qed.



(** C6: the definition [2] inside the definition [1] is collected while
    the footnote section is being rendered and gets no item in it: the
    collector ends with both definitions, the list of the section with
    the item of [1] alone.  The legacy renderer gives an item to each. *)
Theorem C6_nested_definition_dropped
    (development : bool)
    (fence_render : RenderTreeElem -> option nat -> option (ReactNode * bool))
    (mathjax_render : string -> string -> option nat -> ReactNode)
    (innerHTML : list Legacy.Node -> string) (parseHTML : string -> list Legacy.Node)
    (sched sched_fn : Schedule) :
  let tree := [FnDef "1" [FnDef "2" [P [Text "x"]]]] in
  map fn_id (footNotes (snd (ReactMarkdownRenderer_render development fence_render
                               mathjax_render tree sched sched_fn)))
  = ["1"; "2"]
  /\ (exists t,
        fst (ReactMarkdownRenderer_render development fence_render mathjax_render tree
               sched sched_fn)
        = Fulfilled t
        /\ root t
           = RElement Fragment None []
               (Some (RStaticArray
                  [RArray [RNull];
                   footnote_section
                     [jsx (Tag "li") (Some 0) [("id", PStr "user-content-fn-1")]
                        [RNull; backref_link "1"]]])))
  /\ fst (Legacy.PreviewContent_render innerHTML parseHTML tree)
     = Fulfilled
         [legacy_section
            [Legacy.Element "li" [("id", PStr "user-content-fn-1")]
               [Legacy.backref_link "1"];
             Legacy.Element "li" [("id", PStr "user-content-fn-2")]
               [Legacy.Element "p" [] [Legacy.TextNode "x"; Legacy.backref_link "2"]]]].
Proof.
  intros tree. split; [reflexivity|]. split; [eexists; split; reflexivity | reflexivity].
Qed.

(** ** Further properties of the legacy renderer *)

Section LegacyFurther.

Variable innerHTML : list Legacy.Node -> string.
Variable parseHTML : string -> list Legacy.Node.

Local Abbreviation legacy_render := (Legacy.render innerHTML parseHTML).
Local Abbreviation legacy_renderChildren := (Legacy.renderChildren innerHTML parseHTML).

Ltac run_legacy :=
  unfold Legacy.advance in *; unfold bind, ret, modify, gets in *; cbv beta in *.

Lemma loop_bound_zero (defs : list RenderTreeFootNoteDef) :
  Legacy.loop_bound defs = 0 -> defs = [].
Proof. destruct defs; [reflexivity|discriminate]. Qed.

(** X8: a tree in which no footnote definition occurs always renders: the
    root receives the rendered blocks and [end] appends nothing. *)
Theorem legacy_pass_without_footnotes (tree : list RenderTreeElem)
    (Hnone : list_sum (map Legacy.fndefs tree) = 0) :
  Legacy.PreviewContent_render innerHTML parseHTML tree
  = (Fulfilled (fst (legacy_renderChildren tree Legacy.new_renderer)),
     snd (legacy_renderChildren tree Legacy.new_renderer))
  /\ Legacy.footNotes (snd (legacy_renderChildren tree Legacy.new_renderer)) = [].
Proof.
  unfold Legacy.PreviewContent_render.
  destruct (legacy_collects innerHTML parseHTML tree Legacy.new_renderer) as [new [Hnew Hb]].
  destruct (legacy_renderChildren tree Legacy.new_renderer) as [blocks r].
  simpl in Hnew |- *.
  assert (Hr : Legacy.footNotes r = []).
  { rewrite Hnew. apply loop_bound_zero. lia. }
  unfold Legacy.end_. run_legacy. rewrite Hr. simpl.
  now rewrite app_nil_r.
Qed.

(** *** The table state *)

Ltac legacy_same_table :=
  unfold legacy_same_but_table in *; simpl in *; intuition congruence.

Lemma table_blind_renderChildren (elems : list RenderTreeElem) :
  Forall (fun e => forall r r', legacy_same_but_table r r' ->
            fst (legacy_render e r) = fst (legacy_render e r')
            /\ legacy_same_but_table (snd (legacy_render e r)) (snd (legacy_render e r')))
         elems ->
  forall r r', legacy_same_but_table r r' ->
    fst (legacy_renderChildren elems r) = fst (legacy_renderChildren elems r')
    /\ legacy_same_but_table (snd (legacy_renderChildren elems r))
                             (snd (legacy_renderChildren elems r')).
Proof.
  induction 1 as [|e es He _ IH]; intros r r' Hrr; simpl.
  - split; [reflexivity | exact Hrr].
  - run_legacy. destruct (He r r' Hrr) as [Hn Hr].
    destruct (legacy_render e r) as [n r1].
    destruct (legacy_render e r') as [n' r1']. simpl in Hn, Hr. subst n'.
    destruct (IH r1 r1' Hr) as [Hns Hr2].
    destruct (legacy_renderChildren es r1) as [ns r2].
    destruct (legacy_renderChildren es r1') as [ns' r2']. simpl in *.
    split; [congruence | exact Hr2].
Qed.

Lemma table_blind_render (e : RenderTreeElem) :
  forall r r', legacy_same_but_table r r' ->
    fst (legacy_render e r) = fst (legacy_render e r')
    /\ legacy_same_but_table (snd (legacy_render e r)) (snd (legacy_render e r')).
Proof.
  induction e using elem_ind; intros r0 r0' Hrr; rewrite !legacy_render_eq; simpl.
  all: run_legacy; simpl.
  all: try solve [split; [reflexivity | legacy_same_table]].
  all: try (destruct (Legacy.table r0); destruct (Legacy.table r0')).
  all: match goal with
       | IHc : Forall _ ?c |- context [legacy_renderChildren ?c ?t] =>
           match goal with
           | |- context [fst (let (_, _) := legacy_renderChildren c ?t in _)
                         = fst (let (_, _) := legacy_renderChildren c ?u in _)] =>
               let W := fresh "W" in
               assert (W : legacy_same_but_table t u) by legacy_same_table;
               apply (table_blind_renderChildren c IHc) in W;
               destruct (legacy_renderChildren c t), (legacy_renderChildren c u);
               simpl in *; destruct W as [-> W]; split; [reflexivity | exact W]
           end
       end.
Qed.

Lemma table_blind_children (elems : list RenderTreeElem) (r r' : Legacy.ParseTreeRenderer) :
  legacy_same_but_table r r' ->
  fst (legacy_renderChildren elems r) = fst (legacy_renderChildren elems r')
  /\ legacy_same_but_table (snd (legacy_renderChildren elems r))
                           (snd (legacy_renderChildren elems r')).
Proof.
  apply table_blind_renderChildren. apply Forall_forall.
  intros e _. apply table_blind_render.
Qed.

Lemma table_blind_end_loop (turns : nat) :
  forall i items r r', legacy_same_but_table r r' ->
    fst (Legacy.end_loop innerHTML parseHTML turns i items r)
    = fst (Legacy.end_loop innerHTML parseHTML turns i items r')
    /\ legacy_same_but_table (snd (Legacy.end_loop innerHTML parseHTML turns i items r))
                             (snd (Legacy.end_loop innerHTML parseHTML turns i items r')).
Proof.
  induction turns as [|turns IH]; intros i items r r' Hrr; simpl.
  - split; [reflexivity | exact Hrr].
  - run_legacy. replace (Legacy.footNotes r') with (Legacy.footNotes r) by legacy_same_table.
    destruct (nth_error (Legacy.footNotes r) i) as [elem|]; [|split; [reflexivity|exact Hrr]].
    destruct (table_blind_children (fn_c elem) r r' Hrr) as [Hn Hr].
    destruct (legacy_renderChildren (fn_c elem) r) as [children r1].
    destruct (legacy_renderChildren (fn_c elem) r') as [children' r1'].
    simpl in Hn, Hr. subst children'.
    destruct (Legacy.append_backref children (Legacy.backref_link (fn_id elem)));
      simpl; auto.
Qed.

(** X10: the legacy renderer writes its table state and never reads
    it: from two renderers that differ in the table state alone, [render]
    appends the same nodes, [end] appends the same footnote section or
    throws the same error, and both leave renderers that again differ in
    the table state alone. *)
Theorem legacy_table_state_is_never_read (r r' : Legacy.ParseTreeRenderer)
    (Hsame : legacy_same_but_table r r') :
  (forall e,
     fst (legacy_render e r) = fst (legacy_render e r')
     /\ legacy_same_but_table (snd (legacy_render e r)) (snd (legacy_render e r')))
  /\ fst (Legacy.end_ innerHTML parseHTML r) = fst (Legacy.end_ innerHTML parseHTML r')
  /\ legacy_same_but_table (snd (Legacy.end_ innerHTML parseHTML r))
                           (snd (Legacy.end_ innerHTML parseHTML r')).
Proof.
  split; [intros e; now apply table_blind_render|].
  unfold Legacy.end_. run_legacy.
  replace (Legacy.footNotes r') with (Legacy.footNotes r) by legacy_same_table.
  destruct (Legacy.footNotes r) as [|d defs]; [split; [reflexivity|exact Hsame]|].
  destruct (table_blind_end_loop (S (Legacy.loop_bound (d :: defs))) 0 [] r r' Hsame)
    as [Hl Hr].
  destruct (Legacy.end_loop innerHTML parseHTML (S (Legacy.loop_bound (d :: defs))) 0 [] r)
    as [res r1].
  destruct (Legacy.end_loop innerHTML parseHTML (S (Legacy.loop_bound (d :: defs))) 0 [] r')
    as [res' r1'].
  simpl in Hl, Hr. subst res'. destruct res; simpl; auto.
Qed.

(** *** The properties written *)

Local Abbreviation within := (forallb (props_within legacy_written)).

(** The markup that parses to nodes with none but the properties written. *)
Local Abbreviation parsed_within := (fun raw => within (parseHTML raw) = true).

Local Abbreviation collected_within :=
  (fun r => Forall (fun d => Forall parsed_within (List.concat (map htmls (fn_c d))))
                   (Legacy.footNotes r)).

Lemma within_app (l1 l2 : list Legacy.Node) :
  within (l1 ++ l2) = within l1 && within l2.
Proof. apply forallb_app. Qed.

Lemma within_rev (l : list Legacy.Node) : within l = true -> within (rev l) = true.
Proof.
  rewrite !forallb_forall. intros Hl n Hn. apply Hl. now apply In_rev.
Qed.

Lemma within_renderChildren (elems : list RenderTreeElem) :
  Forall (fun e => forall r, Forall parsed_within (htmls e) -> collected_within r ->
            within (fst (legacy_render e r)) = true
            /\ collected_within (snd (legacy_render e r))) elems ->
  forall r, Forall parsed_within (List.concat (map htmls elems)) -> collected_within r ->
    within (fst (legacy_renderChildren elems r)) = true
    /\ collected_within (snd (legacy_renderChildren elems r)).
Proof.
  induction 1 as [|e es He _ IH]; intros r Hok Hcol; simpl in *.
  - split; [reflexivity | exact Hcol].
  - apply Forall_app in Hok. destruct Hok as [Hoke Hokes].
    run_legacy. destruct (He r Hoke Hcol) as [Hn Hcol1].
    destruct (legacy_render e r) as [n r1]. simpl in Hn, Hcol1.
    destruct (IH r1 Hokes Hcol1) as [Hns Hcol2].
    destruct (legacy_renderChildren es r1) as [ns r2].
    simpl in *. split; [|exact Hcol2]. rewrite within_app, Hn, Hns. reflexivity.
Qed.

Lemma within_render (e : RenderTreeElem) :
  forall r, Forall parsed_within (htmls e) -> collected_within r ->
    within (fst (legacy_render e r)) = true
    /\ collected_within (snd (legacy_render e r)).
Proof.
  induction e using elem_ind; intros r0 Hok Hcol; rewrite legacy_render_eq; simpl in *.
  all: run_legacy; simpl.
  all: try solve [split; [reflexivity | exact Hcol]].
  all: try solve [split; [apply within_rev; now inversion Hok | exact Hcol]].
  all: try solve [split; [reflexivity|]; apply Forall_app; split;
                  [exact Hcol | constructor; [exact Hok | constructor]]].
  all: try match goal with
       | |- context [Legacy.table ?r] => destruct (Legacy.table r)
       end.
  all: match goal with
       | H : Forall _ ?c |- context [Legacy.renderChildren _ _ ?c ?r] =>
           pose proof (within_renderChildren c H r Hok Hcol) as [W Wc];
           destruct (Legacy.renderChildren innerHTML parseHTML c r) as [children r1];
           simpl in W, Wc |- *
       end.
  all: split; [|exact Wc].
  all: try match goal with
       | |- context [option_map _ ?o] => destruct o
       end.
  all: simpl; try rewrite W; reflexivity.
Qed.

Lemma within_children (elems : list RenderTreeElem) (r : Legacy.ParseTreeRenderer) :
  Forall parsed_within (List.concat (map htmls elems)) -> collected_within r ->
  within (fst (legacy_renderChildren elems r)) = true
  /\ collected_within (snd (legacy_renderChildren elems r)).
Proof.
  apply within_renderChildren. apply Forall_forall. intros e _. apply within_render.
Qed.

Lemma within_append_backref (children children' : list Legacy.Node) (id : string) :
  within children = true ->
  Legacy.append_backref children (Legacy.backref_link id) = Fulfilled children' ->
  within children' = true.
Proof.
  unfold Legacy.append_backref. intros Hc.
  destruct children as [|x front] using rev_ind; [|clear IHfront].
  - simpl. intros E. injection E as <-. reflexivity.
  - rewrite rev_unit, removelast_last. rewrite within_app in Hc.
    apply andb_prop in Hc. destruct Hc as [Hfront Hx].
    destruct x as [data|tagName props childNodes]; [discriminate|].
    intros E. injection E as <-. rewrite within_app, Hfront. simpl in Hx |- *.
    rewrite andb_true_r in Hx. apply andb_prop in Hx. destruct Hx as [Hp Hk].
    rewrite Hp. rewrite forallb_app, Hk. reflexivity.
Qed.

Lemma within_end_loop (turns : nat) :
  forall i items r result,
    within items = true -> collected_within r ->
    fst (Legacy.end_loop innerHTML parseHTML turns i items r) = Fulfilled result ->
    within result = true.
Proof.
  induction turns as [|turns IH]; intros i items r result Hitems Hcol Hres; simpl in *.
  - discriminate.
  - run_legacy.
    destruct (nth_error (Legacy.footNotes r) i) as [elem|] eqn:Hnth.
    + assert (Hok : Forall parsed_within (List.concat (map htmls (fn_c elem)))).
      { apply nth_error_In in Hnth. rewrite Forall_forall in Hcol. exact (Hcol _ Hnth). }
      destruct (within_children (fn_c elem) r Hok Hcol) as [Hc Hcol1].
      destruct (legacy_renderChildren (fn_c elem) r) as [children r1]. simpl in Hc, Hcol1.
      destruct (Legacy.append_backref children (Legacy.backref_link (fn_id elem)))
        as [|children'|err] eqn:Happ; simpl in *; try discriminate.
      eapply IH; [|exact Hcol1|exact Hres].
      rewrite within_app, Hitems. simpl.
      now rewrite (within_append_backref _ _ _ Hc Happ).
    + simpl in Hres. injection Hres as <-. exact Hitems.
Qed.

(** X9: on the elements it creates, in the blocks and in the footnote
    section, the legacy renderer sets none but the properties of
    [legacy_written]: in particular no [style] and no [align], so no
    table cell it renders is aligned.  Any other property in its output
    comes out of the markup of an [html] node of the tree: when that
    markup parses to nodes with none but these properties, and so for
    every tree without [html] nodes whatever the parser, the whole
    output holds none but these. *)
Theorem legacy_writes_no_style (tree : list RenderTreeElem)
    (Hparsed : forall raw, In raw (List.concat (map htmls tree)) ->
                           within (parseHTML raw) = true) :
  within (fst (legacy_renderChildren tree Legacy.new_renderer)) = true
  /\ (forall nodes,
        fst (Legacy.PreviewContent_render innerHTML parseHTML tree) = Fulfilled nodes ->
        within nodes = true)
  /\ existsb (String.eqb "style") legacy_written = false
  /\ existsb (String.eqb "align") legacy_written = false.
Proof.
  assert (Hok : Forall parsed_within (List.concat (map htmls tree))).
  { apply Forall_forall. exact Hparsed. }
  assert (Hnew : collected_within Legacy.new_renderer) by constructor.
  destruct (within_children tree Legacy.new_renderer Hok Hnew) as [Hb Hcol].
  split; [exact Hb|]. split; [|split; reflexivity].
  intros nodes. unfold Legacy.PreviewContent_render.
  destruct (legacy_renderChildren tree Legacy.new_renderer) as [blocks r]. simpl in Hb, Hcol.
  unfold Legacy.end_. run_legacy.
  destruct (Legacy.footNotes r) as [|d defs] eqn:Hdefs.
  - simpl. intros E. injection E as <-. now rewrite app_nil_r.
  - pose proof (within_end_loop (S (Legacy.loop_bound (d :: defs))) 0 [] r) as Hl.
    destruct (Legacy.end_loop innerHTML parseHTML (S (Legacy.loop_bound (d :: defs))) 0 [] r)
      as [[|items|err] r']; simpl in *; try discriminate.
    intros E. injection E as <-. rewrite within_app, Hb. simpl.
    rewrite (Hl items eq_refl); [reflexivity | | reflexivity].
    rewrite Hdefs. exact Hcol.
Qed.

End LegacyFurther.


(** ** Instances, witnesses and counterexamples *)

(** C1, as first stated, fails: with a nested table in the first cell of
    the row, the third header cell of a table declared [left, none,
    right] comes out with no style. *)
Lemma C1_counterexample :
  ~ (forall c0 c1 c2 : list RenderTreeElem,
       exists outs,
         values (fst (await_all no_fence plain_math (fun _ => 0)
                        [fst (render
                                (Table left_none_right [row3 true c0 c1 c2]) None new_session)]
                        (snd (render
                                (Table left_none_right [row3 true c0 c1 c2]) None new_session))))
         = Some [RElement (Tag "table") None [] (Some (RArray outs))]
         /\ Forall row3_output outs).
Proof.
  intros Hclaim.
  destruct (Hclaim [Table [] [Tr [Th []]]] [] []) as [outs [Hv Hrows]].
  vm_compute in Hv. injection Hv as <-.
  inversion Hrows as [|out outs' Hrow _]; subst.
  destruct Hrow as [header [key [o0 [o1 [o2 Hout]]]]].
  discriminate Hout.
Qed.

(** The rows of a head section, of a body section and of the table
    itself come out with the three alignments. *)
Lemma C1_witness :
  exists outs,
    values (fst (await_all no_fence plain_math (fun _ => 0)
                   [fst (render
                           (Table left_none_right
                              (map table_child_of
                                 [SectionOf true [(true, ([Text "a"], [Text "b"], [Text "c"]))];
                                  SectionOf false [(false, ([Text "1"], [], [Em [Text "3"]]))];
                                  RowOf (false, ([Text "x"], [Text "y"], [Text "z"]))]))
                           None new_session)]
                   (snd (render
                           (Table left_none_right
                              (map table_child_of
                                 [SectionOf true [(true, ([Text "a"], [Text "b"], [Text "c"]))];
                                  SectionOf false [(false, ([Text "1"], [], [Em [Text "3"]]))];
                                  RowOf (false, ([Text "x"], [Text "y"], [Text "z"]))]))
                           None new_session))))
    = Some [RElement (Tag "table") None [] (Some (RArray outs))]
    /\ Forall2 table_child_output
         [SectionOf true [(true, ([Text "a"], [Text "b"], [Text "c"]))];
          SectionOf false [(false, ([Text "1"], [], [Em [Text "3"]]))];
          RowOf (false, ([Text "x"], [Text "y"], [Text "z"]))]
         outs.
Proof.
  exact (proj2 (proj2 (proj2 (proj2 (proj2 (C1_table_alignment_applied no_fence plain_math)))))
           [SectionOf true [(true, ([Text "a"], [Text "b"], [Text "c"]))];
            SectionOf false [(false, ([Text "1"], [], [Em [Text "3"]]))];
            RowOf (false, ([Text "x"], [Text "y"], [Text "z"]))]
           None new_session (fun _ => 0) eq_refl).
Defined.

(** A header cell that follows a finished table takes that table's alignment. *)
Lemma C10_witness :
  renderAll ([Table [Some right] []] ++ [cell true [Text "late"]]) new_session =
  ([AwaitAll [] (jsx (Tag "table") (Some 0) []);
    AwaitAll [Resolved (RText "late")] (jsx (Tag "th") (Some 1) (text_align right))],
   set_table (Some {| aligns := [Some right]; index := 1 |}) new_session).
Proof.
  exact (proj1 (proj2 (proj2 (proj2 (proj2 (proj2
           (C10_table_state_never_cleared false no_fence plain_math))))))
           [Table [Some right] []] true [Text "late"] new_session
           {| aligns := [Some right]; index := 0 |} eq_refl).
Defined.

(** C10, as first stated, fails: a header cell that precedes the only
    table of the tree renders while the state is unset, in a pass that
    enters a table. *)
Lemma C10_counterexample :
  ~ (forall (before after : list RenderTreeElem) (header : bool) (c : list RenderTreeElem),
       table (snd (renderAll before new_session)) = None ->
       table (snd (ReactMarkdownRenderer_render false no_fence plain_math
                     (before ++ cell header c :: after) (fun _ => 0) (fun _ => 0)))
       = None).
Proof.
  intros Hclaim.
  specialize (Hclaim [] [Table [Some left] []] true [Text "early"] eq_refl).
  vm_compute in Hclaim. discriminate Hclaim.
Qed.



(** The legacy [end] throws on the definition [1] over the text [note]:
    the link is appended to the text node. *)
Example legacy_backref_on_text_throws
    (innerHTML : list Legacy.Node -> string) (parseHTML : string -> list Legacy.Node) :
  fst (Legacy.PreviewContent_render innerHTML parseHTML [FnDef "1" [Text "note"]])
  = Rejected "HierarchyRequestError".
Proof. reflexivity. Qed.

(** The legacy back-reference link has no [#] in its target. *)
Example legacy_backref_target (id : string) :
  Legacy.backref_link id =
  Legacy.Element "a"
    [("href", PStr ("user-content-fnref-" +++ id));
     ("className", PStr "data-footnote-backref");
     ("aria-label", PStr "Back to content")]
    [Legacy.TextNode "↩"].
Proof. reflexivity. Qed.

(** The asynchronous footnote pass is rejected when the last child of a
    definition is an element with one child that is no array, as a
    heading over one text is. *)
Example backref_on_single_child_rejected (development : bool)
    (sched sched_fn : Schedule) :
  fst (ReactMarkdownRenderer_render development no_fence plain_math
         [FnDef "1" [H 1 None [Text "title"]]] sched sched_fn)
  = Rejected "TypeError: push is not a function".
Proof. reflexivity. Qed.

(** It is rejected with the development build of React when the last
    child of a definition is an element over an array that React built,
    as a heading over two texts is; with the production build the link
    goes into that array. *)
Example backref_on_frozen_children (sched sched_fn : Schedule) :
  fst (ReactMarkdownRenderer_render true no_fence plain_math
         [FnDef "1" [H 1 None [Text "a"; Text "b"]]] sched sched_fn)
  = Rejected "TypeError: object is not extensible"
  /\ exists t,
       fst (ReactMarkdownRenderer_render false no_fence plain_math
              [FnDef "1" [H 1 None [Text "a"; Text "b"]]] sched sched_fn)
       = Fulfilled t
       /\ descend [1; 1; 0; 0] (root t)
          = Some (RElement (Tag "h1") (Some (KIdx 0)) []
                    (Some (RStaticArray
                       [RText "a"; RText "b";
                        RElement (Tag "a") (Some (KName "backref"))
                          [("href", PStr "#user-content-fnref-1");
                           ("aria-label", PStr "Back to content");
                           ("style",
                            PStyle [("fontFamily", "monospace"); ("fontSize", "1.25em");
                                    ("margin", "0 0.25em")])]
                          (Some (RText "↩"))]))).
Proof. split; [reflexivity | eexists; split; reflexivity]. Qed.

(** Two fences whose waits complete in either order come out in the
    order of the input. *)
Example two_fences_either_order :
  let fence := fun (e : RenderTreeElem) (_ : option nat) =>
                 Some (RText (rawText e), false) in
  let tree := [Code None [Text "first"]; Text "between"; Code None [Text "second"]] in
  values (fst (await_all fence plain_math (fun _ => 0)
                 (fst (renderAll tree new_session))
                 (snd (renderAll tree new_session))))
  = Some [RText "first"; RText "between"; RText "second"]
  /\ values (fst (await_all fence plain_math (fun _ => 1)
                    (fst (renderAll tree new_session))
                    (snd (renderAll tree new_session))))
     = Some [RText "first"; RText "between"; RText "second"].
Proof. split; reflexivity. Qed.

Lemma C3_witness :
  tableAlignStyle {| aligns := [Some left; None]; index := 0 |}
  = option_map (fun a => [("textAlign", align_name a)]) (nth 0 [Some left; None] None).
Proof.
  apply (proj1 (proj2 (C3_alignment_bounds_checks [Some left; None] 0 [] []))).
  simpl. lia.
Defined.

Lemma C4_witness :
  exists t,
    fst (ReactMarkdownRenderer_render false no_fence plain_math
           [MatchStart [Text "a"]; Match [Text "b"]] (fun _ => 0) (fun _ => 0))
    = Fulfilled t
    /\ tree_matchCount t = 1.
Proof.
  eexists. split; [reflexivity|].
  apply (proj1 (proj2 (C4_match_count false no_fence plain_math
                         [MatchStart [Text "a"]; Match [Text "b"]]
                         (fun _ => 0) (fun _ => 0)))).
  reflexivity.
Defined.

(** A fence whose diagram was redrawn comes out behind a fresh marker,
    to which the handle points. *)
Lemma C5_witness :
  values (fst (await_all redrawn_fence plain_math (fun _ => 0)
                 [fst (render (Code None [Text "graph"]) (Some 0) new_session)]
                 (snd (render (Code None [Text "graph"]) (Some 0) new_session))))
  = Some [RElement Fragment (Some (KIdx 0)) []
            (Some (RStaticArray
               [RElement (Tag "span") None
                  [("className", PStr "last-modified-marker"); ("ref", PRef 0)] None;
                RText "diagram"]))]
  /\ lastModifiedRef
       (snd (await_all redrawn_fence plain_math (fun _ => 0)
               [fst (render (Code None [Text "graph"]) (Some 0) new_session)]
               (snd (render (Code None [Text "graph"]) (Some 0) new_session))))
     = Some 0.
Proof.
  destruct (proj1 (proj2 (proj2
              (C5_fence_modification_marking redrawn_fence plain_math None [Text "graph"]
                 (Some 0) new_session (fun _ => 0))))
              (RText "diagram") eq_refl) as [Hv [Hh _]].
  split; [exact Hv | exact Hh].
Defined.

(** C5, as first stated, fails: on [null] the children are rendered, and
    a last-modified marker among them moves the handle. *)
Lemma C5_counterexample :
  ~ (forall (c : list RenderTreeElem) (key : option nat) (s : Session) (sched : Schedule),
       no_fence (Code None c) key = None ->
       lastModifiedRef
         (snd (await_all no_fence plain_math sched
                 [fst (render (Code None c) key s)] (snd (render (Code None c) key s))))
       = lastModifiedRef s).
Proof.
  intros Hclaim.
  specialize (Hclaim [Modified] None new_session (fun _ => 0) eq_refl).
  vm_compute in Hclaim. discriminate Hclaim.
Qed.


(** * The application state *)

Unset Implicit Arguments.

Section ReducerProperties.

Import Reducer.

Ltac run_reducer :=
  unfold reducer, log_debug in *; unfold bind, ret, modify, gets in *; cbv beta in *.

Lemma reducer_console (state : State) (action : Action) (console : Console) :
  snd (reducer state action console) = console ++ [Debug "Dispatched new action" action].
Proof.
  run_reducer. destruct action; simpl; try reflexivity; destruct (searching state); reflexivity.
Qed.

Lemma reducer_kept (state state' : State) (action : Action) (console : Console) :
  closed_without_index state ->
  fst (reducer state action console) = Returned state' ->
  closed_without_index state'.
Proof.
  unfold closed_without_index. intros Hs. run_reducer.
  destruct action; simpl; try destruct (searching state) eqn:Hsearching; simpl;
    intros E; try discriminate; injection E as <-; simpl;
    try rewrite Hsearching; auto; discriminate.
Qed.

Lemma reduce_kept (actions : list Action) :
  forall state state' console,
    closed_without_index state ->
    fst (reduce actions state console) = Returned state' ->
    closed_without_index state'.
Proof.
  induction actions as [|action actions IH]; intros state state' console Hs; simpl.
  - intros E. injection E as <-. exact Hs.
  - unfold bind. pose proof (fun state' => reducer_kept state state' action console Hs) as Hk.
    destruct (reducer state action console) as [[next|err] console1]; simpl in *.
    + apply IH. now apply Hk.
    + discriminate.
Qed.

(** X11: no index is kept while no search is open: the initial state is so,
    every action leaves a state that is so in one that is so, and hence
    the state is so after every series of actions dispatched from the
    initial state. *)
Theorem reducer_keeps_closed_without_index :
  closed_without_index INITIAL_STATE
  /\ (forall state state' action console,
        closed_without_index state ->
        fst (reducer state action console) = Returned state' ->
        closed_without_index state')
  /\ (forall actions state' console,
        fst (reduce actions INITIAL_STATE console) = Returned state' ->
        closed_without_index state').
Proof.
  split; [|split].
  - intros _. reflexivity.
  - exact reducer_kept.
  - intros actions state' console. apply reduce_kept. intros _. reflexivity.
Qed.

Lemma reduce_app (l1 l2 : list Action) :
  forall state console,
    reduce (l1 ++ l2) state console =
    (let (r, console1) := reduce l1 state console in
     match r with
     | Returned state1 => reduce l2 state1 console1
     | Thrown err => (Thrown err, console1)
     end).
Proof.
  induction l1 as [|a l1 IH]; intros state console; simpl.
  - reflexivity.
  - unfold bind. destruct (reducer state a console) as [[next|err] console1].
    + apply IH.
    + reflexivity.
Qed.

(** X12: the reducer throws on the actions of an unknown kind and on no
    other; it logs the action first in either case.  So a series of
    actions is reduced to the end exactly when all of them are of a known
    kind, and otherwise ends at the first that is not, the state so far
    lost. *)
Theorem reducer_throws_on_unknown_kinds_only :
  (forall state action console,
     (known action = true -> exists state', fst (reducer state action console) = Returned state')
     /\ (known action = false ->
         fst (reducer state action console) = Thrown "Unknown action: [object Object]")
     /\ snd (reducer state action console)
        = console ++ [Debug "Dispatched new action" action])
  /\ (forall actions state console,
        forallb known actions = true <->
        exists state', fst (reduce actions state console) = Returned state')
  /\ (forall before other after state console,
        forallb known before = true -> known other = false ->
        fst (reduce (before ++ other :: after) state console)
        = Thrown "Unknown action: [object Object]"
        /\ snd (reduce (before ++ other :: after) state console)
           = console ++ map (Debug "Dispatched new action") (before ++ [other])).
Proof.
  assert (H1 : forall state action console,
     (known action = true -> exists state', fst (reducer state action console) = Returned state')
     /\ (known action = false ->
         fst (reducer state action console) = Thrown "Unknown action: [object Object]")
     /\ snd (reducer state action console)
        = console ++ [Debug "Dispatched new action" action]).
  { intros state action console. split; [|split].
    - run_reducer. destruct action; simpl; try discriminate; intros _;
        try destruct (searching state); simpl; eauto.
    - run_reducer. destruct action; simpl; try discriminate. reflexivity.
    - apply reducer_console. }
  assert (H2 : forall actions state console,
        forallb known actions = true ->
        exists state', fst (reduce actions state console) = Returned state'
                       /\ snd (reduce actions state console)
                          = console ++ map (Debug "Dispatched new action") actions).
  { induction actions as [|a actions IH]; intros state console Hk; simpl in *.
    - exists state. now rewrite app_nil_r.
    - apply andb_prop in Hk. destruct Hk as [Ha Hk]. unfold bind.
      destruct (H1 state a console) as [Hret [_ Hlog]]. destruct (Hret Ha) as [next Hnext].
      destruct (reducer state a console) as [r console1]. simpl in Hnext, Hlog. subst r console1.
      destruct (IH next (console ++ [Debug "Dispatched new action" a]) Hk) as [state' [E L]].
      exists state'. split; [exact E|]. rewrite L. now rewrite <- app_assoc. }
  split; [exact H1|]. split.
  - intros actions state console. split.
    + intros Hk. destruct (H2 actions state console Hk) as [state' [E _]]. eauto.
    + revert state console.
      induction actions as [|a actions IH]; intros state console [state' E]; simpl in *.
      * reflexivity.
      * unfold bind in E. destruct (H1 state a console) as [_ [Hthrow _]].
        destruct (known a).
        -- simpl. destruct (reducer state a console) as [[next|err] console1]; simpl in *.
           ++ apply (IH next console1). eauto.
           ++ discriminate.
        -- rewrite (surjective_pairing (reducer state a console)) in E.
           rewrite (Hthrow eq_refl) in E. discriminate.
  - intros before other after state console Hb Ho.
    rewrite reduce_app.
    destruct (H2 before state console Hb) as [state1 [E L]].
    destruct (reduce before state console) as [r console1]. simpl in E, L. subst r console1.
    simpl. unfold bind.
    destruct (H1 state1 other (console ++ map (Debug "Dispatched new action") before))
      as [_ [Hthrow Hlog]].
    destruct (reducer state1 other _) as [r console2]. simpl in *.
    rewrite (Hthrow Ho). subst console2. simpl. split; [reflexivity|].
    now rewrite map_app, app_assoc.
Qed.

(** X13: opening a search that is open changes nothing, so the index of the
    search going on is kept and opening twice is opening once; a search
    index is dropped while no search is open; closing leaves no search
    and no index, whatever came before; and opening then closing, from a
    state without a search, gives the state back. *)
Theorem search_opens_and_closes (state : State) (console : Console) :
  (searching state = true -> fst (reducer state openSearch console) = Returned state)
  /\ fst (reduce [openSearch; openSearch] state console)
     = fst (reduce [openSearch] state console)
  /\ (forall index, searching state = false ->
        fst (reducer state (searchIndex_ index) console) = Returned state)
  /\ (forall actions state',
        fst (reduce (actions ++ [closeSearch]) state console) = Returned state' ->
        searching state' = false /\ searchIndex state' = None)
  /\ (searching state = false -> searchIndex state = None ->
      fst (reduce [openSearch; closeSearch] state console) = Returned state).
Proof.
  split; [|split; [|split; [|split]]].
  - intros Hs. run_reducer. simpl. now rewrite Hs.
  - simpl. run_reducer. simpl. destruct (searching state) eqn:Hs; simpl.
    + now rewrite Hs.
    + reflexivity.
  - intros index Hs. run_reducer. simpl. now rewrite Hs.
  - intros actions state'. rewrite reduce_app.
    destruct (reduce actions state console) as [[state1|err] console1]; [|discriminate].
    simpl. run_reducer. simpl. intros E. injection E as <-. split; reflexivity.
  - intros Hs Hi. simpl. run_reducer. simpl. rewrite Hs. simpl.
    destruct state; simpl in *. subst. reflexivity.
Qed.

(** X14: two actions whose cases touch different fields of the state give
    the same state in either order; of two settings of the same field
    the later one stands; and the theme set from the window theme is
    dark for ['Dark'] and light for any other. *)
Theorem actions_on_different_fields_commute (state : State) (console : Console) :
  (forall a b, apart a b = true ->
     fst (reduce [a; b] state console) = fst (reduce [b; a] state console))
  /\ (forall m m',
        fst (reduce [setSearchMatcher m; setSearchMatcher m'] state console)
        = fst (reduce [setSearchMatcher m'] state console))
  /\ (forall p p',
        fst (reduce [setPreviewing p; setPreviewing p'] state console)
        = fst (reduce [setPreviewing p'] state console))
  /\ (forall t t',
        fst (reduce [setTheme t; setTheme t'] state console)
        = fst (reduce [setTheme t'] state console))
  /\ fst (reduce [openOutline; closeOutline] state console)
     = fst (reduce [closeOutline] state console)
  /\ (forall t state',
        fst (reducer state (setTheme t) console) = Returned state' ->
        theme state' = if String.eqb t "Dark" then dark else light).
Proof.
  split; [|repeat split].
  - intros a b Hab. simpl. run_reducer.
    destruct state as [sg si m pv ol th].
    destruct a, b; simpl in *; try discriminate Hab; try reflexivity;
      destruct sg; reflexivity.
  - intros t state'. run_reducer. simpl. intros E. injection E as <-. reflexivity.
Qed.

End ReducerProperties.


(** * Key shortcuts *)

(** ** [scrollTo] and the section jumps *)

Section ScrollProperties.

Import Keymaps.

Variable Window : Type.
Variable scrollY : Window -> Z.
Variable window_scrollTo : Z -> Z -> Window -> Window.

Local Abbreviation scrollTo_for := (Keymaps.scrollTo_for scrollY window_scrollTo).
Local Abbreviation scrollTo := (Keymaps.scrollTo scrollY window_scrollTo).

Ltac run_scroll := unfold bind, ret, modify, gets in *; cbv beta in *.

Lemma scrollTo_for_skips (before rest : list HTMLElement)
    (pred : HTMLElement -> Z -> bool) (windowTop : Z) (w : Window) :
  Forall (fun elem => pred elem windowTop = false) before ->
  scrollTo_for (before ++ rest) pred windowTop w = scrollTo_for rest pred windowTop w.
Proof.
  induction 1 as [|elem before He _ IH]; simpl.
  - reflexivity.
  - rewrite He. exact IH.
Qed.

Lemma scrollTo_for_finds_none (candidates : list HTMLElement)
    (pred : HTMLElement -> Z -> bool) (windowTop : Z) (w : Window) :
  Forall (fun elem => pred elem windowTop = false) candidates ->
  scrollTo_for candidates pred windowTop w = (false, w).
Proof.
  intros Hnone. rewrite <- (app_nil_r candidates).
  now rewrite scrollTo_for_skips.
Qed.

Lemma scrollTo_for_scrolled (candidates : list HTMLElement)
    (pred : HTMLElement -> Z -> bool) (windowTop : Z) :
  forall w w',
    scrollTo_for candidates pred windowTop w = (true, w') ->
    scrollY w' <> windowTop
    /\ exists elem w0, In elem candidates /\ w' = window_scrollTo 0 (offsetTop elem) w0.
Proof.
  induction candidates as [|elem rest IH]; intros w w'; simpl.
  - discriminate.
  - destruct (pred elem windowTop).
    + run_scroll. simpl.
      destruct (Z.eqb windowTop (scrollY (window_scrollTo 0 (offsetTop elem) w))) eqn:Hmoved;
        simpl.
      * intros E. destruct (IH _ _ E) as [Hy [e [w0 [Hin Hw]]]].
        split; [exact Hy|]. exists e, w0. auto.
      * intros E. injection E as <-. apply Z.eqb_neq in Hmoved. split; [congruence|].
        exists elem, w. auto.
    + intros E. destruct (IH _ _ E) as [Hy [e [w0 [Hin Hw]]]].
      split; [exact Hy|]. exists e, w0. auto.
Qed.

Lemma scrollTo_first_mover (pred : HTMLElement -> Z -> bool) (w : Window)
    (before : list HTMLElement) (elem : HTMLElement) (after : list HTMLElement) :
  Forall (fun e => pred e (scrollY w) = false) before ->
  pred elem (scrollY w) = true ->
  scrollY (window_scrollTo 0 (offsetTop elem) w) <> scrollY w ->
  snd (scrollTo (before ++ elem :: after) pred w) = window_scrollTo 0 (offsetTop elem) w.
Proof.
  intros Hbefore Helem Hmoves.
  assert (Hfor : scrollTo_for (before ++ elem :: after) pred (scrollY w) w
                 = (true, window_scrollTo 0 (offsetTop elem) w)).
  { rewrite scrollTo_for_skips by exact Hbefore. simpl. rewrite Helem. run_scroll. simpl.
    destruct (Z.eqb (scrollY w) (scrollY (window_scrollTo 0 (offsetTop elem) w))) eqn:E.
    - apply Z.eqb_eq in E. congruence.
    - reflexivity. }
  unfold Keymaps.scrollTo.
  destruct (before ++ elem :: after) as [|first rest] eqn:Hl.
  - now destruct before.
  - run_scroll. rewrite Hfor. reflexivity.
Qed.

Lemma scrollTo_fallback (pred : HTMLElement -> Z -> bool) (w : Window)
    (first : HTMLElement) (rest : list HTMLElement) :
  Forall (fun e => pred e (scrollY w) = false) (first :: rest) ->
  snd (scrollTo (first :: rest) pred w) = window_scrollTo 0 (offsetTop first) w.
Proof.
  intros Hnone. unfold Keymaps.scrollTo. run_scroll.
  rewrite scrollTo_for_finds_none by exact Hnone. reflexivity.
Qed.

(** X15: with no candidate [scrollTo] leaves the window alone.  With
    candidates it always ends on a scroll to one of them: to the first
    one that satisfies the predicate against the position the window had
    at the start, when scrolling there moves the window; and to the
    first candidate of all when none satisfies the predicate. *)
Theorem scrollTo_ends_on_a_candidate (pred : HTMLElement -> Z -> bool) (w : Window) :
  scrollTo [] pred w = (tt, w)
  /\ (forall candidates, candidates <> [] ->
        exists elem w0,
          In elem candidates
          /\ snd (scrollTo candidates pred w) = window_scrollTo 0 (offsetTop elem) w0)
  /\ (forall before elem after,
        Forall (fun e => pred e (scrollY w) = false) before ->
        pred elem (scrollY w) = true ->
        scrollY (window_scrollTo 0 (offsetTop elem) w) <> scrollY w ->
        snd (scrollTo (before ++ elem :: after) pred w)
        = window_scrollTo 0 (offsetTop elem) w)
  /\ (forall first rest,
        Forall (fun e => pred e (scrollY w) = false) (first :: rest) ->
        snd (scrollTo (first :: rest) pred w) = window_scrollTo 0 (offsetTop first) w).
Proof.
  split; [reflexivity|]. split; [|split].
  - intros [|first rest] Hne; [contradiction|]. unfold Keymaps.scrollTo. run_scroll.
    pose proof (scrollTo_for_scrolled (first :: rest) pred (scrollY w) w) as Hs.
    destruct (scrollTo_for (first :: rest) pred (scrollY w) w) as [[|] w'].
    + destruct (Hs w' eq_refl) as [_ [elem [w0 [Hin Hw]]]]. exists elem, w0. auto.
    + exists first, w'. split; [now left | reflexivity].
  - intros before elem after. apply scrollTo_first_mover.
  - intros first rest. apply scrollTo_fallback.
Qed.

(** X16: the jump to the next section goes to the first heading below the
    top of the window when that moves the window, and back to the first
    heading of the document when no heading is below; the jump to the
    previous section goes to the last heading above the top of the
    window when that moves the window, and on to the last heading of the
    document when no heading is above.  Without headings neither
    scrolls. *)
Theorem section_jumps_wrap_around (w : Window) :
  ScrollNextSection scrollY window_scrollTo [] w = (tt, w)
  /\ ScrollPrevSection scrollY window_scrollTo [] w = (tt, w)
  /\ (forall before h after,
        Forall (fun e => (offsetTop e <= scrollY w)%Z) before ->
        (scrollY w < offsetTop h)%Z ->
        scrollY (window_scrollTo 0 (offsetTop h) w) <> scrollY w ->
        snd (ScrollNextSection scrollY window_scrollTo (before ++ h :: after) w)
        = window_scrollTo 0 (offsetTop h) w)
  /\ (forall first rest,
        Forall (fun e => (offsetTop e <= scrollY w)%Z) (first :: rest) ->
        snd (ScrollNextSection scrollY window_scrollTo (first :: rest) w)
        = window_scrollTo 0 (offsetTop first) w)
  /\ (forall before h after,
        Forall (fun e => (scrollY w <= offsetTop e)%Z) after ->
        (offsetTop h < scrollY w)%Z ->
        scrollY (window_scrollTo 0 (offsetTop h) w) <> scrollY w ->
        snd (ScrollPrevSection scrollY window_scrollTo (before ++ h :: after) w)
        = window_scrollTo 0 (offsetTop h) w)
  /\ (forall front last,
        Forall (fun e => (scrollY w <= offsetTop e)%Z) (front ++ [last]) ->
        snd (ScrollPrevSection scrollY window_scrollTo (front ++ [last]) w)
        = window_scrollTo 0 (offsetTop last) w).
Proof.
  pose proof (scrollTo_first_mover (fun elem windowTop => Z.ltb windowTop (offsetTop elem)) w)
    as Hnext.
  pose proof (scrollTo_fallback (fun elem windowTop => Z.ltb windowTop (offsetTop elem)) w)
    as Hnext_none.
  pose proof (scrollTo_first_mover (fun elem windowTop => Z.ltb (offsetTop elem) windowTop) w)
    as Hprev.
  pose proof (scrollTo_fallback (fun elem windowTop => Z.ltb (offsetTop elem) windowTop) w)
    as Hprev_none.
  split; [reflexivity|]. split; [reflexivity|].
  split; [|split; [|split]].
  - intros before h after Hbefore Hh Hmoves. apply Hnext; [| |exact Hmoves].
    + eapply Forall_impl; [|exact Hbefore]. intros e He. simpl in *. now apply Z.ltb_ge.
    + now apply Z.ltb_lt.
  - intros first rest Hnone. apply Hnext_none.
    eapply Forall_impl; [|exact Hnone]. intros e He. simpl in *. now apply Z.ltb_ge.
  - intros before h after Hafter Hh Hmoves. unfold ScrollPrevSection.
    rewrite rev_app_distr. simpl. rewrite <- app_assoc. simpl.
    apply Hprev; [| |exact Hmoves].
    + apply Forall_rev. eapply Forall_impl; [|exact Hafter].
      intros e He. simpl in *. now apply Z.ltb_ge.
    + now apply Z.ltb_lt.
  - intros front last Hnone. unfold ScrollPrevSection.
    rewrite rev_app_distr. simpl. apply Hprev_none.
    apply Forall_rev in Hnone. rewrite rev_app_distr in Hnone. simpl in Hnone.
    eapply Forall_impl; [|exact Hnone]. intros e He. simpl in *. now apply Z.ltb_ge.
Qed.

End ScrollProperties.


(** ** [KeyMapping.register] *)

Section KeyMappingProperties.

Import Keymaps.

Variable GlobalDispatcher : Type.
Variable localeCompare : string -> string -> Z.

Local Abbreviation Env := (Keymaps.Env GlobalDispatcher).

Ltac run_keys :=
  unfold Mousetrap_bind, log_error, set_sortedShortcuts in *;
  unfold bind, ret, modify, gets in *; cbv beta in *.

(** *** The map *)

Lemma Map_get_None {V : Type} (key : string) (m : Map V) :
  Map_get key m = None -> ~ In key (map fst m).
Proof.
  unfold Map_get. induction m as [|[k v] m IH]; simpl; intros Hg Hin.
  - exact Hin.
  - destruct (String.eqb k key) eqn:E; [discriminate|].
    destruct Hin as [->|Hin]; [now rewrite String.eqb_refl in E|]. now apply IH.
Qed.

Lemma Map_get_Some {V : Type} (key : string) (m : Map V) (v : V) :
  Map_get key m = Some v -> In (key, v) m.
Proof.
  unfold Map_get. induction m as [|[k v'] m IH]; simpl; intros Hg.
  - discriminate.
  - destruct (String.eqb k key) eqn:E.
    + apply String.eqb_eq in E. subst k. simpl in Hg. injection Hg as ->. now left.
    + right. now apply IH.
Qed.

Lemma Map_set_new {V : Type} (key : string) (v : V) (m : Map V) :
  ~ In key (map fst m) -> Map_set key v m = m ++ [(key, v)].
Proof.
  induction m as [|[k v'] m IH]; simpl; intros Hin.
  - reflexivity.
  - destruct (String.eqb k key) eqn:E.
    + apply String.eqb_eq in E. subst k. exfalso. apply Hin. now left.
    + rewrite IH; [reflexivity|]. intros H. apply Hin. now right.
Qed.

Lemma Map_set_keys {V : Type} (key : string) (v : V) (m : Map V) :
  In key (map fst m) -> map fst (Map_set key v m) = map fst m.
Proof.
  induction m as [|[k v'] m IH]; simpl; intros Hin.
  - contradiction.
  - destruct (String.eqb k key) eqn:E; simpl.
    + reflexivity.
    + f_equal. apply IH. destruct Hin as [->|Hin]; [|exact Hin].
      now rewrite String.eqb_refl in E.
Qed.

Lemma Map_set_In {V : Type} (key : string) (v : V) (m : Map V) :
  NoDup (map fst m) -> In key (map fst m) ->
  forall k' v', In (k', v') (Map_set key v m) ->
                (k' = key /\ v' = v) \/ (k' <> key /\ In (k', v') m).
Proof.
  induction m as [|[k v0] m IH]; simpl; intros Hnd Hin k' v' Hset.
  - contradiction.
  - inversion Hnd as [|? ? Hk Hnd']; subst.
    destruct (String.eqb k key) eqn:E.
    + apply String.eqb_eq in E. subst k. destruct Hset as [Heq|Hset].
      * injection Heq as <- <-. now left.
      * right. split; [|now right]. intros ->. apply Hk.
        exact (in_map fst m (key, v') Hset).
    + apply String.eqb_neq in E. destruct Hset as [Heq|Hset].
      * injection Heq as <- <-. right. split; [exact E | now left].
      * destruct Hin as [->|Hin]; [contradiction|].
        destruct (IH Hnd' Hin k' v' Hset) as [Hl|[Hne Hr]]; [now left|].
        right. split; [exact Hne | now right].
Qed.

(** *** The loop *)

Lemma keybinds_of_app (a : KeyAction) (l1 l2 : KeyMaps) :
  keybinds_of a (l1 ++ l2) = keybinds_of a l1 ++ keybinds_of a l2.
Proof. unfold keybinds_of. now rewrite filter_app, map_app. Qed.

Lemma keybinds_of_one (a : KeyAction) (k : string) (a' : KeyAction) :
  keybinds_of a [(k, a')] = if String.eqb a' a then [k] else [].
Proof. unfold keybinds_of. simpl. now destruct (String.eqb a' a). Qed.

Lemma grouped_nil : grouped [] [].
Proof.
  split; [constructor|]. split.
  - intros a b [].
  - intros k a [].
Qed.

Lemma grouped_skip (seen : KeyMaps) (bounds : Map BoundShortcut) (k : string) (a : KeyAction) :
  own a = None -> grouped seen bounds -> grouped (seen ++ [(k, a)]) bounds.
Proof.
  intros Hown [Hnd [Hval Hkey]]. split; [exact Hnd|]. split.
  - intros a' b Hin. destruct (Hval a' b Hin) as [Ha [Ho [Hb Hne]]].
    repeat split; auto. rewrite keybinds_of_app, keybinds_of_one.
    destruct (String.eqb a a') eqn:E; [|now rewrite app_nil_r].
    apply String.eqb_eq in E. subst a'. congruence.
  - intros k' a' Hin Ho. apply in_app_or in Hin. destruct Hin as [Hin|[Heq|[]]].
    + now apply (Hkey k').
    + injection Heq as <- <-. contradiction.
Qed.

Lemma grouped_first (seen : KeyMaps) (bounds : Map BoundShortcut) (k : string)
    (a : KeyAction) (sc : KeyShortcut) :
  own a = Some sc -> Map_get a bounds = None -> grouped seen bounds ->
  grouped (seen ++ [(k, a)])
    (Map_set a {| action := a; binds := [k]; shortcut := sc |} bounds).
Proof.
  intros Hown Hget [Hnd [Hval Hkey]]. apply Map_get_None in Hget.
  rewrite (Map_set_new _ _ _ Hget).
  assert (Hfresh : keybinds_of a seen = []).
  { unfold keybinds_of.
    destruct (filter (fun entry : string * string => String.eqb (snd entry) a) seen)
      as [|[k' a'] l] eqn:Hf; [reflexivity|].
    assert (Hin : In (k', a') (filter (fun entry => String.eqb (snd entry) a) seen))
      by (rewrite Hf; now left).
    apply filter_In in Hin. destruct Hin as [Hin E]. simpl in E.
    apply String.eqb_eq in E. subst a'. exfalso. apply Hget. apply (Hkey k' a Hin).
    congruence. }
  split; [|split].
  - rewrite map_app. simpl. apply NoDup_app; [exact Hnd|repeat constructor; intros []|].
    intros x Hx [<-|[]]. contradiction.
  - intros a' b Hin. apply in_app_or in Hin. destruct Hin as [Hin|[Heq|[]]].
    + destruct (Hval a' b Hin) as [Ha [Ho [Hb Hne]]]. repeat split; auto.
      rewrite keybinds_of_app, keybinds_of_one.
      destruct (String.eqb a a') eqn:E; [|now rewrite app_nil_r].
      apply String.eqb_eq in E. exfalso. apply Hget.
      pose proof (in_map fst bounds _ Hin) as Hm. simpl in Hm. congruence.
    + injection Heq as <- <-. simpl. repeat split; auto.
      * rewrite keybinds_of_app, keybinds_of_one, Hfresh, String.eqb_refl. reflexivity.
      * discriminate.
  - intros k' a' Hin Ho. rewrite map_app. apply in_or_app.
    apply in_app_or in Hin. destruct Hin as [Hin|[Heq|[]]].
    + left. now apply (Hkey k').
    + injection Heq as <- <-. right. now left.
Qed.

Lemma grouped_again (seen : KeyMaps) (bounds : Map BoundShortcut) (k : string)
    (a : KeyAction) (b : BoundShortcut) :
  Map_get a bounds = Some b -> grouped seen bounds ->
  grouped (seen ++ [(k, a)])
    (Map_set a {| action := action b; binds := binds b ++ [k]; shortcut := shortcut b |}
       bounds).
Proof.
  intros Hget [Hnd [Hval Hkey]]. apply Map_get_Some in Hget.
  assert (Hin_a : In a (map fst bounds)).
  { exact (in_map fst bounds (a, b) Hget). }
  destruct (Hval a b Hget) as [Ha [Ho [Hb Hne]]].
  split; [|split].
  - now rewrite Map_set_keys.
  - intros a' b' Hin.
    destruct (Map_set_In _ _ _ Hnd Hin_a a' b' Hin) as [[-> ->]|[Hneq Hold]]; simpl.
    + repeat split; auto.
      * rewrite keybinds_of_app, keybinds_of_one, String.eqb_refl. now rewrite Hb.
      * intros E. now apply app_eq_nil in E.
    + destruct (Hval a' b' Hold) as [Ha' [Ho' [Hb' Hne']]]. repeat split; auto.
      rewrite keybinds_of_app, keybinds_of_one.
      destruct (String.eqb a a') eqn:E; [|now rewrite app_nil_r].
      apply String.eqb_eq in E. congruence.
  - intros k' a' Hin Ho'. rewrite Map_set_keys by exact Hin_a.
    apply in_app_or in Hin. destruct Hin as [Hin|[Heq|[]]].
    + now apply (Hkey k').
    + injection Heq as <- <-. exact Hin_a.
Qed.

Lemma register_for_cons (k : string) (a : KeyAction) (rest : KeyMaps)
    (dispatcher : GlobalDispatcher) (bounds : Map BoundShortcut) :
  register_for ((k, a) :: rest) dispatcher bounds =
  if negb (in_KeyShortcuts a) then
    bind (log_error "Unknown key action in keymaps:" k a)
         (fun _ => register_for rest dispatcher bounds)
  else
    match own a with
    | None => ret (Thrown "TypeError")
    | Some shortcut =>
        bind (Mousetrap_bind {| keybind := k; bound_action := a;
                                bound_dispatcher := dispatcher |})
             (fun _ =>
                match Map_get a bounds with
                | None =>
                    register_for rest dispatcher
                      (Map_set a {| action := a; binds := [k]; shortcut := shortcut |} bounds)
                | Some b =>
                    register_for rest dispatcher
                      (Map_set a
                         {| action := action b; binds := binds b ++ [k];
                            shortcut := Keymaps.shortcut b |} bounds)
                end)
    end.
Proof. reflexivity. Qed.

(** An action is a property of the literal, or inherited, or no
    property at all. *)
Lemma classify (a : KeyAction) :
  (exists sc, own a = Some sc /\ is_own a = true /\ in_KeyShortcuts a = true
              /\ inherited a = false)
  \/ (own a = None /\ is_own a = false /\ in_KeyShortcuts a = true /\ inherited a = true)
  \/ (own a = None /\ is_own a = false /\ in_KeyShortcuts a = false /\ inherited a = false).
Proof.
  unfold is_own, in_KeyShortcuts, inherited.
  destruct (own a) as [sc|]; [left; exists sc; repeat split|].
  destruct (existsb (String.eqb a) Object_prototype);
    [right; left | right; right]; repeat split.
Qed.

Lemma bindings_of_cons (k : string) (a : KeyAction) (rest : KeyMaps)
    (dispatcher : GlobalDispatcher) :
  bindings_of ((k, a) :: rest) dispatcher =
  (if is_own a
   then [{| keybind := k; bound_action := a; bound_dispatcher := dispatcher |}]
   else []) ++ bindings_of rest dispatcher.
Proof. unfold bindings_of. simpl. now destruct (is_own a). Qed.

Lemma errors_of_cons (k : string) (a : KeyAction) (rest : KeyMaps) :
  errors_of ((k, a) :: rest) =
  (if in_KeyShortcuts a then [] else [Error "Unknown key action in keymaps:" k a])
  ++ errors_of rest.
Proof. unfold errors_of. simpl. now destruct (in_KeyShortcuts a). Qed.

Lemma register_for_grouped (rest : KeyMaps) (dispatcher : GlobalDispatcher) :
  forall seen bounds (env : Env) bounds',
    grouped seen bounds ->
    fst (register_for rest dispatcher bounds env) = Returned bounds' ->
    grouped (seen ++ rest) bounds'.
Proof.
  induction rest as [|[k a] rest IH]; intros seen bounds env bounds' Hg.
  - simpl. intros E. injection E as <-. now rewrite app_nil_r.
  - replace (seen ++ (k, a) :: rest) with ((seen ++ [(k, a)]) ++ rest)
      by (now rewrite <- app_assoc).
    rewrite register_for_cons.
    destruct (classify a) as [[sc [Ho [_ [Hin _]]]]|[[Ho [_ [Hin _]]]|[Ho [_ [Hin _]]]]];
      rewrite Hin, ?Ho; cbn [negb]; run_keys.
    + destruct (Map_get a bounds) as [b|] eqn:Hget.
      * apply IH. now apply grouped_again.
      * apply IH. now apply grouped_first.
    + simpl. intros E. discriminate E.
    + apply IH. now apply grouped_skip.
Qed.

(** What the loop does outside the map. *)
Lemma register_for_effects (rest : KeyMaps) (dispatcher : GlobalDispatcher) :
  forall bounds (env : Env),
    forallb (fun entry => negb (inherited (snd entry))) rest = true ->
    exists bounds',
      register_for rest dispatcher bounds env
      = (Returned bounds',
         {| sortedShortcuts := sortedShortcuts env;
            mousetrap := mousetrap env ++ bindings_of rest dispatcher;
            console := console env ++ errors_of rest |}).
Proof.
  induction rest as [|[k a] rest IH]; intros bounds env Hok.
  - exists bounds. unfold bindings_of, errors_of. simpl. rewrite !app_nil_r. now destruct env.
  - cbn [forallb snd] in Hok. apply andb_prop in Hok. destruct Hok as [Ha Hok].
    rewrite register_for_cons, bindings_of_cons, errors_of_cons.
    destruct (classify a) as [[sc [Ho [Hi [Hin Hinh]]]]|[[Ho [Hi [Hin Hinh]]]|[Ho [Hi [Hin Hinh]]]]];
      rewrite Hin, Hi, ?Ho; cbn [negb]; run_keys.
    + destruct (Map_get a bounds) as [b|];
        match goal with
        | |- context [register_for rest dispatcher ?bs ?e] =>
            destruct (IH bs e Hok) as [bounds' ->]
        end; exists bounds'; simpl; now rewrite <- !app_assoc.
    + rewrite Hinh in Ha. discriminate Ha.
    + match goal with
      | |- context [register_for rest dispatcher ?bs ?e] =>
          destruct (IH bs e Hok) as [bounds' ->]
      end. exists bounds'. simpl. now rewrite <- !app_assoc.
Qed.

Lemma register_for_throws (before : KeyMaps) (k : string) (a : KeyAction) (after : KeyMaps)
    (dispatcher : GlobalDispatcher) :
  forall bounds (env : Env),
    forallb (fun entry => negb (inherited (snd entry))) before = true ->
    inherited a = true ->
    register_for (before ++ (k, a) :: after) dispatcher bounds env
    = (Thrown "TypeError",
       {| sortedShortcuts := sortedShortcuts env;
          mousetrap := mousetrap env ++ bindings_of before dispatcher;
          console := console env ++ errors_of before |}).
Proof.
  induction before as [|[k0 a0] before IH]; intros bounds env Hok Ha.
  - cbn [app]. rewrite register_for_cons.
    destruct (classify a) as [[sc [Ho [Hi [Hin Hinh]]]]|[[Ho [Hi [Hin Hinh]]]|[Ho [Hi [Hin Hinh]]]]];
      try congruence.
    rewrite Hin, Ho. unfold bindings_of, errors_of. simpl. rewrite !app_nil_r.
    now destruct env.
  - cbn [forallb snd] in Hok. apply andb_prop in Hok. destruct Hok as [Ha0 Hok].
    cbn [app]. rewrite register_for_cons, bindings_of_cons, errors_of_cons.
    destruct (classify a0)
      as [[sc [Ho [Hi [Hin Hinh]]]]|[[Ho [Hi [Hin Hinh]]]|[Ho [Hi [Hin Hinh]]]]];
      rewrite Hin, Hi, ?Ho; cbn [negb]; run_keys.
    + destruct (Map_get a0 bounds) as [b|]; rewrite IH by assumption; simpl;
        now rewrite <- !app_assoc.
    + rewrite Hinh in Ha0. discriminate Ha0.
    + rewrite IH by assumption. simpl. now rewrite <- !app_assoc.
Qed.

(** *** The sort *)

Lemma insert_Permutation (x : BoundShortcut) (l : list BoundShortcut) :
  Permutation (insert localeCompare x l) (x :: l).
Proof.
  induction l as [|y l IH]; simpl.
  - apply Permutation_refl.
  - destruct (Z.leb (localeCompare (action x) (action y)) 0).
    + apply Permutation_refl.
    + eapply Permutation_trans; [apply perm_skip; exact IH | apply perm_swap].
Qed.

Lemma sort_Permutation (l : list BoundShortcut) : Permutation (sort localeCompare l) l.
Proof.
  induction l as [|x l IH]; simpl.
  - apply Permutation_refl.
  - eapply Permutation_trans; [apply insert_Permutation | now apply perm_skip].
Qed.

Lemma insert_Sorted (x : BoundShortcut) (l : list BoundShortcut) :
  (forall a b, (0 < localeCompare a b)%Z -> (localeCompare b a <= 0)%Z) ->
  Sorted (by_action localeCompare) l ->
  Sorted (by_action localeCompare) (insert localeCompare x l).
Proof.
  intros Htotal. induction 1 as [|y l Hl IH Hhd]; simpl.
  - repeat constructor.
  - destruct (Z.leb (localeCompare (action x) (action y)) 0) eqn:E.
    + apply Z.leb_le in E. constructor; [now constructor|]. now constructor.
    + apply Z.leb_gt in E. constructor; [exact IH|].
      destruct l as [|z l]; simpl.
      * constructor. now apply Htotal.
      * destruct (Z.leb (localeCompare (action x) (action z)) 0).
        -- constructor. now apply Htotal.
        -- constructor. now inversion Hhd.
Qed.

Lemma sort_Sorted (l : list BoundShortcut) :
  (forall a b, (0 < localeCompare a b)%Z -> (localeCompare b a <= 0)%Z) ->
  Sorted (by_action localeCompare) (sort localeCompare l).
Proof.
  intros Htotal. induction l as [|x l IH]; simpl.
  - constructor.
  - now apply insert_Sorted.
Qed.

Lemma grouped_actions (seen : KeyMaps) (bounds : Map BoundShortcut) :
  grouped seen bounds -> map action (Map_values bounds) = map fst bounds.
Proof.
  intros [_ [Hval _]]. unfold Map_values. rewrite map_map.
  apply map_ext_in. intros [a b] Hin. simpl. now destruct (Hval a b Hin).
Qed.

Lemma register_returned (maps : KeyMaps) (dispatcher : GlobalDispatcher) (env : Env) :
  fst (register localeCompare maps dispatcher env) = Returned tt ->
  exists bounds,
    grouped maps bounds
    /\ shortcuts (snd (register localeCompare maps dispatcher env))
       = sort localeCompare (Map_values bounds).
Proof.
  unfold register. run_keys.
  pose proof (register_for_grouped maps dispatcher [] [] env) as Hg.
  destruct (register_for maps dispatcher [] env) as [[bounds|err] env1]; simpl in *.
  - intros _. exists bounds. split; [|reflexivity]. apply Hg; [apply grouped_nil|reflexivity].
  - discriminate.
Qed.

(** X17: when [register] returns, the shortcuts it leaves hold each action
    of [KeyShortcuts] that the keymap names once, with the shortcut of
    that action and all the key bindings the keymap gives it, in the
    keymap's order; every key binding of such an action is in the list
    of its action. *)
Theorem register_groups_key_bindings (maps : KeyMaps) (dispatcher : GlobalDispatcher)
    (env : Env)
    (Hreturned : fst (register localeCompare maps dispatcher env) = Returned tt) :
  let bound := shortcuts (snd (register localeCompare maps dispatcher env)) in
  NoDup (map action bound)
  /\ (forall b, In b bound ->
        own (action b) = Some (shortcut b)
        /\ binds b = keybinds_of (action b) maps
        /\ binds b <> [])
  /\ (forall (k : string) (a : KeyAction), In (k, a) maps -> own a <> None ->
        exists b, In b bound /\ action b = a /\ In k (binds b)).
Proof.
  destruct (register_returned maps dispatcher env Hreturned) as [bounds [Hg ->]].
  pose proof (sort_Permutation (Map_values bounds)) as Hperm.
  pose proof (grouped_actions maps bounds Hg) as Hactions.
  destruct Hg as [Hnd [Hval Hkey]].
  cbv zeta. split; [|split].
  - apply (Permutation_NoDup (l := map action (Map_values bounds))).
    + apply Permutation_map. now apply Permutation_sym.
    + now rewrite Hactions.
  - intros b Hb. apply (Permutation_in _ Hperm) in Hb.
    unfold Map_values in Hb. apply in_map_iff in Hb. destruct Hb as [[a b'] [Heq Hin]].
    simpl in Heq. subst b'. destruct (Hval a b Hin) as [Ha [Ho [Hb Hne]]].
    rewrite Ha. auto.
  - intros k a Hin Ho. pose proof (Hkey k a Hin Ho) as Hk.
    apply in_map_iff in Hk. destruct Hk as [[a' b] [Heq Hb]]. simpl in Heq. subst a'.
    destruct (Hval a b Hb) as [Ha [_ [Hbinds _]]].
    exists b. split; [|split].
    + apply (Permutation_in _ (Permutation_sym Hperm)).
      unfold Map_values. apply in_map_iff. exists (a, b). auto.
    + exact Ha.
    + rewrite Hbinds. unfold keybinds_of. apply in_map_iff. exists (k, a). split; [reflexivity|].
      apply filter_In. split; [exact Hin|]. simpl. apply String.eqb_refl.
Qed.

Lemma register_binds_and_reports_aux (maps : KeyMaps) (dispatcher : GlobalDispatcher)
    (env : Env) :
  forallb (fun entry => negb (inherited (snd entry))) maps = true ->
  exists bounds,
    register localeCompare maps dispatcher env
    = (Returned tt,
       {| sortedShortcuts := sort localeCompare (Map_values bounds);
          mousetrap := mousetrap env ++ bindings_of maps dispatcher;
          console := console env ++ errors_of maps |}).
Proof.
  intros Hnames.
  destruct (register_for_effects maps dispatcher [] env Hnames) as [bounds Hfor].
  exists bounds. unfold register. run_keys. rewrite Hfor. reflexivity.
Qed.

(** X18: for a keymap that names no property of [Object.prototype],
    [register] returns, having bound with Mousetrap each key binding of
    an action of [KeyShortcuts], once and in the keymap's order, and
    having logged one error for each key binding of any other action, for
    which nothing is bound; the shortcuts it had are replaced. *)
Theorem register_binds_and_reports (maps : KeyMaps) (dispatcher : GlobalDispatcher)
    (env : Env)
    (Hnames : forallb (fun entry => negb (inherited (snd entry))) maps = true) :
  exists bounds,
    grouped maps bounds
    /\ register localeCompare maps dispatcher env
       = (Returned tt,
          {| sortedShortcuts := sort localeCompare (Map_values bounds);
             mousetrap := mousetrap env ++ bindings_of maps dispatcher;
             console := console env ++ errors_of maps |}).
Proof.
  destruct (register_for_effects maps dispatcher [] env Hnames) as [bounds Hfor].
  exists bounds. split.
  - apply (register_for_grouped maps dispatcher [] [] env); [apply grouped_nil|].
    now rewrite Hfor.
  - unfold register. run_keys. rewrite Hfor. reflexivity.
Qed.

Lemma first_failure {X : Type} (p : X -> bool) (l : list X) :
  forallb p l = false ->
  exists before x after, l = before ++ x :: after /\ forallb p before = true /\ p x = false.
Proof.
  induction l as [|y l IH]; simpl; intros Hl.
  - discriminate.
  - destruct (p y) eqn:Hy.
    + destruct (IH Hl) as [before [x [after [-> [Hb Hx]]]]].
      exists (y :: before), x, after. simpl. rewrite Hy. auto.
    + exists [], y, l. auto.
Qed.

Lemma inherited_iff (a : KeyAction) : inherited a = true <-> In a Object_prototype.
Proof.
  unfold inherited. split.
  - destruct (own a); [discriminate|]. intros H. apply existsb_exists in H.
    destruct H as [x [Hx E]]. apply String.eqb_eq in E. now subst.
  - intros Hin.
    assert (Hown : own a = None).
    { assert (Hall : forallb (fun n => negb (is_own n)) Object_prototype = true)
        by reflexivity.
      rewrite forallb_forall in Hall. specialize (Hall a Hin).
      unfold is_own in Hall. now destruct (own a). }
    rewrite Hown. apply existsb_exists. exists a. split; [exact Hin|apply String.eqb_refl].
Qed.

(** X19: an action named like a property of [Object.prototype] passes the
    [in] test without being a shortcut, and [register] throws on it: the
    key bindings before it stay bound with Mousetrap, those after it are
    not looked at, and the shortcuts of the object are left as they were.
    [register] throws in this case and in no other. *)
Theorem register_throws_on_inherited_names (dispatcher : GlobalDispatcher) (env : Env) :
  (forall (before : KeyMaps) (k : string) (a : KeyAction) (after : KeyMaps),
     forallb (fun entry => negb (inherited (snd entry))) before = true ->
     In a Object_prototype ->
     register localeCompare (before ++ (k, a) :: after) dispatcher env
     = (Thrown "TypeError",
        {| sortedShortcuts := sortedShortcuts env;
           mousetrap := mousetrap env ++ bindings_of before dispatcher;
           console := console env ++ errors_of before |}))
  /\ (forall maps : KeyMaps,
        (exists (k : string) (a : KeyAction), In (k, a) maps /\ In a Object_prototype) <->
        fst (register localeCompare maps dispatcher env) = Thrown "TypeError")
  /\ (forall maps : KeyMaps,
        (forall (k : string) (a : KeyAction), In (k, a) maps -> ~ In a Object_prototype) <->
        fst (register localeCompare maps dispatcher env) = Returned tt).
Proof.
  assert (Hthrow : forall (before : KeyMaps) (k : string) (a : KeyAction) (after : KeyMaps),
     forallb (fun entry => negb (inherited (snd entry))) before = true ->
     In a Object_prototype ->
     register localeCompare (before ++ (k, a) :: after) dispatcher env
     = (Thrown "TypeError",
        {| sortedShortcuts := sortedShortcuts env;
           mousetrap := mousetrap env ++ bindings_of before dispatcher;
           console := console env ++ errors_of before |})).
  { intros before k a after Hb Ha. apply inherited_iff in Ha.
    unfold register. run_keys.
    now rewrite (register_for_throws before k a after dispatcher [] env Hb Ha). }
  assert (Hdec : forall maps : KeyMaps,
     (forallb (fun entry => negb (inherited (snd entry))) maps = true
      /\ fst (register localeCompare maps dispatcher env) = Returned tt
      /\ forall (k : string) (a : KeyAction), In (k, a) maps -> ~ In a Object_prototype)
     \/ (fst (register localeCompare maps dispatcher env) = Thrown "TypeError"
         /\ exists (k : string) (a : KeyAction), In (k, a) maps /\ In a Object_prototype)).
  { intros maps.
    destruct (forallb (fun entry => negb (inherited (snd entry))) maps) eqn:Hall.
    - left. split; [reflexivity|]. split.
      + destruct (register_binds_and_reports_aux maps dispatcher env Hall) as [bounds E].
        now rewrite E.
      + intros k a Hin Ha. rewrite forallb_forall in Hall. specialize (Hall (k, a) Hin).
        simpl in Hall. apply inherited_iff in Ha. rewrite Ha in Hall. discriminate.
    - right. apply first_failure in Hall.
      destruct Hall as [before [[k a] [after [-> [Hb Hx]]]]]. simpl in Hx.
      apply negb_false_iff in Hx. apply inherited_iff in Hx. split.
      + now rewrite (Hthrow before k a after Hb Hx).
      + exists k, a. split; [|exact Hx]. apply in_or_app. right. now left. }
  split; [exact Hthrow|]. split; intros maps.
  - split.
    + intros [k [a [Hin Ha]]]. destruct (Hdec maps) as [[_ [_ Hno]]|[E _]]; [|exact E].
      exfalso. exact (Hno k a Hin Ha).
    + intros E. destruct (Hdec maps) as [[_ [E' _]]|[_ Hex]]; [congruence|exact Hex].
  - split.
    + intros Hno. destruct (Hdec maps) as [[_ [E _]]|[_ [k [a [Hin Ha]]]]]; [exact E|].
      exfalso. exact (Hno k a Hin Ha).
    + intros E. destruct (Hdec maps) as [[_ [_ Hno]]|[E' _]]; [exact Hno|congruence].
Qed.

(** X20: when the comparator orders the action names (of two names it never
    puts each after the other, and it is transitive), the shortcuts that
    [register] leaves are in that order: each is put no later than every
    one that follows it. *)
Theorem register_sorts_by_action (maps : KeyMaps) (dispatcher : GlobalDispatcher) (env : Env)
    (Htotal : forall a b, (0 < localeCompare a b)%Z -> (localeCompare b a <= 0)%Z)
    (Htrans : forall a b c, (localeCompare a b <= 0)%Z -> (localeCompare b c <= 0)%Z ->
                            (localeCompare a c <= 0)%Z)
    (Hreturned : fst (register localeCompare maps dispatcher env) = Returned tt) :
  StronglySorted (by_action localeCompare)
    (shortcuts (snd (register localeCompare maps dispatcher env))).
Proof.
  destruct (register_returned maps dispatcher env Hreturned) as [bounds [_ ->]].
  apply Sorted_StronglySorted.
  - intros x y z Hxy Hyz. unfold by_action in *. eapply Htrans; eassumption.
  - now apply sort_Sorted.
Qed.

End KeyMappingProperties.


(** * The dispatcher *)

(** X22: the shortcuts of [keymaps.ts] do what the [switch] of the
    dispatcher does: every key action that [handleKeyAction] handles is a
    shortcut of [KeyShortcuts] that does the same, the two section jumps
    under the names [ScrollNextSection] and [ScrollPrevSection]; every
    shortcut but [History] is a case of the [switch]; and for any other
    action [handleKeyAction] logs an error and does nothing. *)
Theorem shortcuts_do_what_the_switch_does :
  (forall action what,
     Dispatcher.handleKeyAction action = Dispatcher.Does what ->
     exists shortcut,
       Keymaps.own (Dispatcher.shortcut_name action) = Some shortcut
       /\ Keymaps.dispatch shortcut = what)
  /\ (forall name shortcut,
        In (name, shortcut) Keymaps.KeyShortcuts ->
        name = "History"
        \/ exists action,
             Dispatcher.shortcut_name action = name
             /\ Dispatcher.handleKeyAction action = Dispatcher.Does (Keymaps.dispatch shortcut))
  /\ (forall action,
        (forall what, ~ In (action, what) Dispatcher.key_action_cases) ->
        Dispatcher.handleKeyAction action
        = Dispatcher.LogsError "Unknown key action:" action)
  /\ NoDup (map fst Keymaps.KeyShortcuts)
  /\ NoDup (map fst Dispatcher.key_action_cases).
Proof.
  split; [|split; [|split; [|split]]].
  - intros action what. unfold Dispatcher.handleKeyAction.
    destruct (find _ Dispatcher.key_action_cases) as [[name what']|] eqn:Hf; [|discriminate].
    intros E. injection E as <-. apply find_some in Hf. destruct Hf as [Hin Hname].
    simpl in Hname. apply String.eqb_eq in Hname. subst name.
    unfold Dispatcher.key_action_cases in Hin. simpl in Hin.
    repeat (destruct Hin as [Hin|Hin];
            [injection Hin as <- <-; eexists; split; reflexivity|]).
    contradiction.
  - intros name shortcut Hin. unfold Keymaps.KeyShortcuts in Hin. simpl in Hin.
    repeat (destruct Hin as [Hin|Hin];
            [injection Hin as <- <-;
             first [left; reflexivity
                   | right; exists "NextSection"; split; reflexivity
                   | right; exists "PrevSection"; split; reflexivity
                   | match goal with
                     | |- _ \/ (exists _, _ = ?n /\ _) =>
                         right; exists n; split; reflexivity
                     end]|]).
    contradiction.
  - intros action Hnone. unfold Dispatcher.handleKeyAction.
    destruct (find _ Dispatcher.key_action_cases) as [[name what]|] eqn:Hf; [|reflexivity].
    apply find_some in Hf. destruct Hf as [Hin Hname]. simpl in Hname.
    apply String.eqb_eq in Hname. subst name. exfalso. exact (Hnone what Hin).
  - repeat constructor; simpl; intuition discriminate.
  - repeat constructor; simpl; intuition discriminate.
Qed.


(** * Instances *)

Lemma lastModified_is_newest_marker_witness :
  lastModifiedRef (snd (render Modified None new_session))
  = newest_ref (snd (render Modified None new_session)).
Proof.
  apply (proj1 (proj2 (proj2 (lastModified_is_newest_marker false no_fence plain_math []
                                (fun _ => 0) (fun _ => 0))))).
  reflexivity.
Defined.

Lemma pass_without_footnotes_witness :
  exists blocks t,
    fst (ReactMarkdownRenderer_render false no_fence plain_math [P [Text "a"]]
           (fun _ => 0) (fun _ => 0)) = Fulfilled t
    /\ root t = RElement Fragment None [] (Some (RStaticArray [RArray blocks; RNull]))
    /\ renderings_of no_fence plain_math [P [Text "a"]] blocks
    /\ tree_matchCount t = startsAll no_fence [P [Text "a"]] 0
    /\ footNotes (snd (ReactMarkdownRenderer_render false no_fence plain_math [P [Text "a"]]
                         (fun _ => 0) (fun _ => 0))) = [].
Proof.
  apply (pass_without_footnotes false no_fence plain_math [P [Text "a"]] (fun _ => 0) (fun _ => 0)).
  reflexivity.
Defined.

Lemma no_waits_one_result_witness :
  ReactMarkdownRenderer_render false no_fence plain_math
    [P [Text "a"]; FnDef "1" [P [Text "n"]]] (fun _ => 0) (fun _ => 0)
  = ReactMarkdownRenderer_render false no_fence plain_math
      [P [Text "a"]; FnDef "1" [P [Text "n"]]] (fun _ => 1) (fun _ => 1).
Proof.
  apply (no_waits_one_result false no_fence plain_math
           [P [Text "a"]; FnDef "1" [P [Text "n"]]]).
  reflexivity.
Defined.

Lemma rendered_element_key_witness :
  exists type props children,
    jsx_empty (Tag "br") (Some 2) [] = RElement type (Some (KIdx 2)) props children.
Proof.
  apply (rendered_element_key no_fence plain_math Br 2).
  - reflexivity.
  - exists new_session, (Resolved (jsx_empty (Tag "br") (Some 2) [])).
    split; [apply evolves_refl | reflexivity].
Defined.

Lemma legacy_pass_without_footnotes_witness :
  Legacy.PreviewContent_render no_markup text_markup [P [Text "a"]]
  = (Fulfilled (fst (Legacy.renderChildren no_markup text_markup [P [Text "a"]]
                       Legacy.new_renderer)),
     snd (Legacy.renderChildren no_markup text_markup [P [Text "a"]] Legacy.new_renderer))
  /\ Legacy.footNotes (snd (Legacy.renderChildren no_markup text_markup [P [Text "a"]]
                              Legacy.new_renderer)) = [].
Proof.
  apply (legacy_pass_without_footnotes no_markup text_markup [P [Text "a"]]).
  reflexivity.
Defined.

(** With a parser that puts a style on what it builds, the output for a
    tree that holds no [html] node has none. *)
Lemma legacy_writes_no_style_witness :
  forallb (props_within legacy_written)
    (fst (Legacy.renderChildren no_markup
            (fun raw => [Legacy.Element "span" [("style", PStr raw)] []])
            [Table [Some left] [Tr [Td [Text "cell"]]]; FnDef "1" [P [Text "note"]]]
            Legacy.new_renderer)) = true.
Proof.
  apply (proj1 (legacy_writes_no_style no_markup
                  (fun raw => [Legacy.Element "span" [("style", PStr raw)] []])
                  [Table [Some left] [Tr [Td [Text "cell"]]]; FnDef "1" [P [Text "note"]]]
                  (fun raw (Hraw : In raw []) => match Hraw with end))).
Defined.

Lemma reducer_keeps_closed_without_index_witness :
  Reducer.closed_without_index
    {| Reducer.searching := false; Reducer.searchIndex := None;
       Reducer.matcher := "SmartCase"; Reducer.previewing := true;
       Reducer.outline := false; Reducer.theme := Reducer.light |}.
Proof.
  apply (proj2 (proj2 reducer_keeps_closed_without_index)
           [Reducer.openSearch; Reducer.searchIndex_ (Some 3%Z); Reducer.closeSearch] _ []).
  reflexivity.
Defined.

Lemma reducer_throws_on_unknown_kinds_only_witness :
  fst (Reducer.reduce [Reducer.openSearch; Reducer.kind_other "history"; Reducer.closeSearch]
         Reducer.INITIAL_STATE [])
  = Thrown "Unknown action: [object Object]".
Proof.
  apply (proj2 (proj2 reducer_throws_on_unknown_kinds_only)
           [Reducer.openSearch] (Reducer.kind_other "history") [Reducer.closeSearch]
           Reducer.INITIAL_STATE []); reflexivity.
Defined.

Lemma search_opens_and_closes_witness :
  fst (Reducer.reduce [Reducer.openSearch; Reducer.closeSearch] Reducer.INITIAL_STATE [])
  = Returned Reducer.INITIAL_STATE.
Proof.
  apply (proj2 (proj2 (proj2 (proj2 (search_opens_and_closes Reducer.INITIAL_STATE [])))));
    reflexivity.
Defined.

Lemma actions_on_different_fields_commute_witness :
  fst (Reducer.reduce [Reducer.openSearch; Reducer.setTheme "Dark"] Reducer.INITIAL_STATE [])
  = fst (Reducer.reduce [Reducer.setTheme "Dark"; Reducer.openSearch]
           Reducer.INITIAL_STATE []).
Proof.
  apply (proj1 (actions_on_different_fields_commute Reducer.INITIAL_STATE [])).
  reflexivity.
Defined.

Lemma scrollTo_ends_on_a_candidate_witness :
  snd (Keymaps.scrollTo (fun w : Z => w) (Keymaps.page_scrollTo 1000)
         [Keymaps.mkHTMLElement 100; Keymaps.mkHTMLElement 500; Keymaps.mkHTMLElement 800]
         (fun elem windowTop => Z.ltb windowTop (Keymaps.offsetTop elem)) 100%Z)
  = 500%Z.
Proof.
  apply (proj1 (proj2 (proj2 (scrollTo_ends_on_a_candidate Z (fun w : Z => w)
                                (Keymaps.page_scrollTo 1000)
                                (fun elem windowTop => Z.ltb windowTop (Keymaps.offsetTop elem))
                                100%Z)))
           [Keymaps.mkHTMLElement 100] (Keymaps.mkHTMLElement 500) [Keymaps.mkHTMLElement 800]).
  - repeat constructor.
  - reflexivity.
  - discriminate.
Defined.

Lemma section_jumps_wrap_around_witness :
  snd (Keymaps.ScrollNextSection (fun w : Z => w) (Keymaps.page_scrollTo 1000)
         [Keymaps.mkHTMLElement 100; Keymaps.mkHTMLElement 500] 700%Z)
  = 100%Z.
Proof.
  apply (proj1 (proj2 (proj2 (proj2 (section_jumps_wrap_around Z (fun w : Z => w)
                                       (Keymaps.page_scrollTo 1000) 700%Z))))
           (Keymaps.mkHTMLElement 100) [Keymaps.mkHTMLElement 500]).
  repeat constructor; simpl; lia.
Defined.

Lemma register_groups_key_bindings_witness :
  map (fun b => (Keymaps.action b, Keymaps.binds b))
    (Keymaps.shortcuts
       (snd (Keymaps.register Keymaps.by_length
               [("j", "ScrollDown"); ("x", "Nope"); ("down", "ScrollDown"); ("q", "Quit")]
               tt (Keymaps.new_KeyMapping unit))))
  = [("Quit", ["q"]); ("ScrollDown", ["j"; "down"])]
  /\ NoDup (map Keymaps.action
              (Keymaps.shortcuts
                 (snd (Keymaps.register Keymaps.by_length
                         [("j", "ScrollDown"); ("x", "Nope"); ("down", "ScrollDown");
                          ("q", "Quit")]
                         tt (Keymaps.new_KeyMapping unit))))).
Proof.
  split; [reflexivity|].
  apply (register_groups_key_bindings unit Keymaps.by_length
           [("j", "ScrollDown"); ("x", "Nope"); ("down", "ScrollDown"); ("q", "Quit")]
           tt (Keymaps.new_KeyMapping unit)).
  reflexivity.
Defined.

Lemma register_binds_and_reports_witness :
  exists bounds,
    Keymaps.grouped [("j", "ScrollDown"); ("x", "Nope")] bounds
    /\ Keymaps.register Keymaps.by_length [("j", "ScrollDown"); ("x", "Nope")] tt
         (Keymaps.new_KeyMapping unit)
       = (Returned tt,
          {| Keymaps.sortedShortcuts := Keymaps.sort Keymaps.by_length (Keymaps.Map_values bounds);
             Keymaps.mousetrap :=
               [] ++ Keymaps.bindings_of [("j", "ScrollDown"); ("x", "Nope")] tt;
             Keymaps.console :=
               [] ++ Keymaps.errors_of [("j", "ScrollDown"); ("x", "Nope")] |}).
Proof.
  apply (register_binds_and_reports unit Keymaps.by_length
           [("j", "ScrollDown"); ("x", "Nope")] tt (Keymaps.new_KeyMapping unit)).
  reflexivity.
Defined.

Lemma register_throws_on_inherited_names_witness :
  Keymaps.register Keymaps.by_length
    [("j", "ScrollDown"); ("x", "toString"); ("q", "Quit")] tt (Keymaps.new_KeyMapping unit)
  = (Thrown "TypeError",
     {| Keymaps.sortedShortcuts := [];
        Keymaps.mousetrap := [] ++ Keymaps.bindings_of [("j", "ScrollDown")] tt;
        Keymaps.console := [] ++ Keymaps.errors_of [("j", "ScrollDown")] |}).
Proof.
  apply (proj1 (register_throws_on_inherited_names unit Keymaps.by_length tt
                  (Keymaps.new_KeyMapping unit))
           [("j", "ScrollDown")] "x" "toString" [("q", "Quit")]).
  - reflexivity.
  - simpl. tauto.
Defined.

Lemma register_sorts_by_action_witness :
  StronglySorted (Keymaps.by_action Keymaps.by_length)
    (Keymaps.shortcuts
       (snd (Keymaps.register Keymaps.by_length
               [("j", "ScrollDown"); ("q", "Quit"); ("r", "Reload")]
               tt (Keymaps.new_KeyMapping unit)))).
Proof.
  apply (register_sorts_by_action unit Keymaps.by_length
           [("j", "ScrollDown"); ("q", "Quit"); ("r", "Reload")] tt
           (Keymaps.new_KeyMapping unit)).
  - unfold Keymaps.by_length. intros a b. lia.
  - unfold Keymaps.by_length. intros a b c. lia.
  - reflexivity.
Defined.

Lemma rendering_follows_the_tree_witness :
  exists outs,
    jsx (Tag "p") (Some 0) [] [RText "a"] = jsx (Tag "p") (Some 0) [] outs
    /\ renderings_of no_fence plain_math [Text "a"] outs.
Proof.
  apply (proj1 (rendering_follows_the_tree no_fence plain_math (P [Text "a"]) 0
                  (jsx (Tag "p") (Some 0) [] [RText "a"])
                  (ex_intro _ new_session
                     (ex_intro _ (fst (render (P [Text "a"]) (Some 0) new_session))
                        (conj (evolves_refl no_fence plain_math _) eq_refl))))).
  reflexivity.
Defined.

Lemma legacy_table_state_is_never_read_witness :
  fst (Legacy.render no_markup text_markup (Tr [Td [Text "a"]]) Legacy.new_renderer)
  = fst (Legacy.render no_markup text_markup (Tr [Td [Text "a"]])
           (Legacy.set_table (Some {| aligns := [Some right]; index := 0 |})
              Legacy.new_renderer)).
Proof.
  apply (proj1 (legacy_table_state_is_never_read no_markup text_markup
                  Legacy.new_renderer
                  (Legacy.set_table (Some {| aligns := [Some right]; index := 0 |})
                     Legacy.new_renderer)
                  (conj eq_refl eq_refl))).
Defined.

Lemma shortcuts_do_what_the_switch_does_witness :
  exists shortcut,
    Keymaps.own "ScrollNextSection" = Some shortcut
    /\ Keymaps.dispatch shortcut = Keymaps.scrollTo_next_section.
Proof.
  apply (proj1 shortcuts_do_what_the_switch_does "NextSection").
  reflexivity.
Defined.

